(** * Gear-train connectivity and kinematics engine

    A shallow embedding of the core of [src/js/GearSimulator.js] (the first
    [GearSimulator] class of that file, the one with the jamming and overlap
    checks; two earlier versions of the class follow it there) and of the
    constructor of [src/js/GearGeometry.js], with the properties the
    specification states about them.

    Conventions of the embedding.
    - A JavaScript number is a rational ([Q]): arithmetic is exact, where
      the source rounds to a double.  [NaN], where the source handles one
      read from a text field, is [None] of an [option Q]; an operation that
      would store a [NaN] in a gear has no result in the model.
    - A gear object is a record held in the registry ([this.gears], a list in
      insertion order).  References to gear objects ([connectedTo],
      [incompatibleWith], [selectedGear]) are the gear's [id]: the registry is
      the shared store and a reference is resolved in the store as it is at
      the time of the read.  A reference to a gear that has left the registry
      resolves to nothing; the source removes such references when it
      deletes a gear.
    - [THREE.Vector3.distanceTo] and [normalize] belong to a library that is
      not part of the repository: the engine is parameterised by them.  The
      concrete scenes use the Euclidean distance, computed to six decimals,
      on points whose distances have no more.
    - Rendering, sound, DOM and XR panel effects are left out, and with them
      the colour fields of a gear.  The rotation angle of a mesh is not a
      field of the gear record: the animation keeps the angles apart, one
      for each [id], counted in units of [Math.PI]. *)

From Stdlib Require Import QArith Qabs Qminmax ZArith List Bool Arith Lia Lqa
     Sorted.
Import ListNotations.
Open Scope Q_scope.

(* ================================================================== *)
(** * JavaScript numbers *)

(** [x < y] on numbers, as a boolean. *)
Definition Qltb (x y : Q) : bool := negb (Qle_bool y x).

(** [x || d] for a number read from a text field: [NaN] and [0] are falsy. *)
Definition orDefault (x : option Q) (d : Q) : Q :=
  match x with
  | Some q => if Qeq_bool q 0 then d else q
  | None => d
  end.

(** [x || d] for a number that is not [NaN]. *)
Definition orElse (x d : Q) : Q := if Qeq_bool x 0 then d else x.

(* ================================================================== *)
(** * GearGeometry.js: the constructor *)

Module GearGeometry.

(** The [params] object handed to the constructor. *)
Record Params := mkParams {
  p_teeth : Q;
  p_module : Q;
  p_pressureAngle : Q;
  p_thickness : Q;
  p_boreDiameter : Q
}.

(** The fields the constructor sets.  [pressureAngle] is kept in degrees
    and [baseRadius] (a cosine of it) is not represented: no rational
    holds them, and neither the meshing rules nor the radii below read
    them. *)
Record t := mk {
  teeth : Q;
  module : Q;
  pressureAngleDeg : Q;
  thickness : Q;
  boreDiameter : Q;
  pitchDiameter : Q;
  pitchRadius : Q;
  addendum : Q;
  dedendum : Q;
  outerRadius : Q;
  rootRadius : Q;
  boreRadius : Q
}.

Definition constructor (params : Params) : t :=
  let teeth := orElse (p_teeth params) 20 in
  let module := orElse (p_module params) 2 in
  let pressureAngleDeg := orElse (p_pressureAngle params) 20 in
  let thickness := orElse (p_thickness params) 5 in
  let boreDiameter := orElse (p_boreDiameter params) 5 in
  let pitchDiameter := teeth * module in
  let pitchRadius := pitchDiameter / 2 in
  let addendum := module in
  let dedendum := (5 # 4) * module in
  let outerRadius := pitchRadius + addendum in
  let rootRadius := pitchRadius - dedendum in
  let boreRadius := boreDiameter / 2 in
  (* Ensure bore doesn't exceed root *)
  let boreRadius :=
    if Qle_bool rootRadius boreRadius then rootRadius * (1 # 2)
    else boreRadius in
  mk teeth module pressureAngleDeg thickness boreDiameter pitchDiameter
     pitchRadius addendum dedendum outerRadius rootRadius boreRadius.

(** The ranges of section 3 of the specification. *)
Definition validSpec (params : Params) : Prop :=
  8 <= p_teeth params <= 100 /\
  (1 # 2) <= p_module params <= 10 /\
  (29 # 2) <= p_pressureAngle params <= 25 /\
  1 <= p_boreDiameter params <= 20.

End GearGeometry.

(* ================================================================== *)
(** * The data model of GearSimulator.js *)

Record Vec3 := mkVec3 { vx : Q; vy : Q; vz : Q }.

(** [gear.params] *)
Record GearParams := mkGearParams {
  teeth : Q;
  module : Q;
  pressureAngle : Q;
  thickness : Q;
  boreDiameter : Q;
  pitchDiameter : Q
}.

(** A gear object.  [position] is [gear.mesh.position]. *)
Record Gear := mkGear {
  id : nat;
  position : Vec3;
  params : GearParams;
  rpm : Q;
  rotationDirection : Z;
  connectedTo : list nat;
  isDriver : bool;
  incompatibleWith : option nat;
  jammingError : bool;
  overlapError : bool
}.

(** The fields of [this] that the engine reads and writes. *)
Record Simulator := mkSimulator {
  gears : list Gear;
  selectedGear : option nat;
  nextGearId : nat;
  isPlaying : bool;
  inputRPM : Q
}.

(** The state the constructor of [GearSimulator] leaves. *)
Definition initial : Simulator := mkSimulator [] None 1%nat false 30.

(* ================================================================== *)
(** * The registry as a store of gear objects *)

(** Resolve a reference. *)
Definition findGear (i : nat) (gs : list Gear) : option Gear :=
  find (fun g => Nat.eqb (id g) i) gs.

(** Mutate the object a reference points to. *)
Definition updateGear (i : nat) (f : Gear -> Gear) (gs : list Gear)
  : list Gear :=
  map (fun g => if Nat.eqb (id g) i then f g else g) gs.

(** [array.includes(ref)] *)
Definition includes (l : list nat) (i : nat) : bool := existsb (Nat.eqb i) l.

Definition isSome {A} (o : option A) : bool :=
  match o with Some _ => true | None => false end.

(** [sel === ref], for a [sel] that may be [null]. *)
Definition refIs (sel : option nat) (i : nat) : bool :=
  match sel with Some j => Nat.eqb j i | None => false end.

Definition setConnectedTo (l : list nat) (g : Gear) : Gear :=
  mkGear (id g) (position g) (params g) (rpm g) (rotationDirection g) l
         (isDriver g) (incompatibleWith g) (jammingError g) (overlapError g).

Definition setSpeed (r : Q) (d : Z) (g : Gear) : Gear :=
  mkGear (id g) (position g) (params g) r d (connectedTo g)
         (isDriver g) (incompatibleWith g) (jammingError g) (overlapError g).

Definition setError (w : option nat) (jam ov : bool) (g : Gear) : Gear :=
  mkGear (id g) (position g) (params g) (rpm g) (rotationDirection g)
         (connectedTo g) (isDriver g) w jam ov.

Definition setPosition (p : Vec3) (g : Gear) : Gear :=
  mkGear (id g) p (params g) (rpm g) (rotationDirection g) (connectedTo g)
         (isDriver g) (incompatibleWith g) (jammingError g) (overlapError g).

Definition setParams (p : GearParams) (g : Gear) : Gear :=
  mkGear (id g) (position g) p (rpm g) (rotationDirection g) (connectedTo g)
         (isDriver g) (incompatibleWith g) (jammingError g) (overlapError g).

Definition setGears (gs : list Gear) (s : Simulator) : Simulator :=
  mkSimulator gs (selectedGear s) (nextGearId s) (isPlaying s) (inputRPM s).

(** ** The error state of a gear *)

(** [setJammingState(movingGear, targetGear)], on [movingGear]. *)
Definition setJammingState (target : nat) (g : Gear) : Gear :=
  setError (Some target) true (overlapError g) g.

(** [setOverlapState(movingGear, targetGear)], on [movingGear]. *)
Definition setOverlapState (target : nat) (g : Gear) : Gear :=
  setError (Some target) (jammingError g) true g.

(** [setIncompatibleState(movingGear, targetGear)], on [movingGear]. *)
Definition setIncompatibleState (target : nat) (g : Gear) : Gear :=
  setError (Some target) (jammingError g) (overlapError g) g.

(** [clearIncompatibleState(gear)] *)
Definition clearIncompatibleState (g : Gear) : Gear :=
  match incompatibleWith g with
  | None => g
  | Some _ => setError None false false g
  end.

(** The error a gear shows, as [updateInfoPanelContent] reads it off the
    three fields: the tagged variant of the specification. *)
Inductive ErrorState :=
| NoError
| Incompatible (w : nat)
| Jamming (w : nat)
| Overlapping (w : nat).

Definition errorState (g : Gear) : ErrorState :=
  match incompatibleWith g with
  | None => NoError
  | Some w => if overlapError g then Overlapping w
              else if jammingError g then Jamming w
              else Incompatible w
  end.

(* ================================================================== *)
(** * The connectivity graph *)

(** [gear.connectedTo || []], through a reference. *)
Definition neighbours (gs : list Gear) (i : nat) : list nat :=
  match findGear i gs with
  | Some g => connectedTo g
  | None => []
  end.

(** [connectGears(gear1, gear2)] *)
Definition pushIfAbsent (j : nat) (g : Gear) : Gear :=
  if includes (connectedTo g) j then g
  else setConnectedTo (connectedTo g ++ [j]) g.

Definition connectGears (gs : list Gear) (i j : nat) : list Gear :=
  updateGear j (pushIfAbsent i) (updateGear i (pushIfAbsent j) gs).

(** ** wouldCauseJamming *)

(** The [for (const connected of gear.connectedTo)] loop of the search:
    [inl cycleLength] is the return from inside the loop, [inr] carries the
    visited set and the queue on to the next round of the [while]. *)
Fixpoint jamScan (gear2 depth : nat) (conn : list nat)
         (visited : list nat) (queue : list (nat * nat))
  : nat + (list nat * list (nat * nat)) :=
  match conn with
  | [] => inr (visited, queue)
  | connected :: rest =>
      if Nat.eqb connected gear2 then inl (depth + 2)%nat
      else if includes visited connected
           then jamScan gear2 depth rest visited queue
           else jamScan gear2 depth rest (connected :: visited)
                        (queue ++ [(connected, S depth)])
  end.

(** The [while (queue.length > 0)] loop; [None] when [fuel] rounds did not
    empty the queue, [Some None] when the search ends without a path. *)
Fixpoint jamLoop (fuel : nat) (gs : list Gear) (gear2 : nat)
         (visited : list nat) (queue : list (nat * nat))
  : option (option nat) :=
  match fuel with
  | O => None
  | S fuel' =>
      match queue with
      | [] => Some None
      | (gear, depth) :: queue' =>
          match jamScan gear2 depth (neighbours gs gear) visited queue' with
          | inl cycleLength => Some (Some cycleLength)
          | inr (visited', queue'') =>
              jamLoop fuel' gs gear2 visited' queue''
          end
      end
  end.

(** Every gear the search can put in its queue is [gear1] or an element of
    some [connectedTo]: two more rounds than there are such elements empty
    the queue (lemma [jamLoop_total]). *)
Definition searchFuel (gs : list Gear) : nat :=
  S (S (length (flat_map connectedTo gs))).

(** The length of the cycle that the edge [gear1]-[gear2] would close, as
    the search finds it. *)
Definition closingCycle (gs : list Gear) (gear1 gear2 : nat) : option nat :=
  match jamLoop (searchFuel gs) gs gear2 [gear1] [(gear1, O)] with
  | Some r => r
  | None => None
  end.

Definition wouldCauseJamming (gs : list Gear) (gear1 gear2 : nat) : bool :=
  match neighbours gs gear1, neighbours gs gear2 with
  | [], [] => false
  | _, _ =>
      match closingCycle gs gear1 gear2 with
      | Some cycleLength => Nat.odd cycleLength
      | None => false
      end
  end.

(** ** Pairwise rules *)

Definition idealDistance (a b : Gear) : Q :=
  (pitchDiameter (params a) + pitchDiameter (params b)) / 2.

(** [areGearsCompatible(gear1, gear2)] *)
Definition areGearsCompatible (a b : Gear) : bool :=
  Qltb (Qabs (module (params a) - module (params b))) (1 # 1000).

Definition meshThreshold : Q := 3.
Definition incompatibleClearThreshold : Q := 10.
Definition snapThreshold : Q := 5.

Record Candidate := mkCandidate {
  gear1 : nat;
  gear2 : nat;
  distance : Q
}.

(** The pairs [(gears[i], gears[j])], [i < j], in the order of the two nested
    [for] loops. *)
Fixpoint pairs {A} (l : list A) : list (A * A) :=
  match l with
  | [] => []
  | x :: rest => map (pair x) rest ++ pairs rest
  end.

(** [potentialConnections.sort((a, b) => a.distance - b.distance)]: the sort
    of an array is stable. *)
Fixpoint insertByDistance (c : Candidate) (l : list Candidate)
  : list Candidate :=
  match l with
  | [] => [c]
  | d :: rest =>
      if Qle_bool (distance c) (distance d) then c :: d :: rest
      else d :: insertByDistance c rest
  end.

Definition sortByDistance (l : list Candidate) : list Candidate :=
  fold_right insertByDistance [] l.

(** Which gear of a pair carries the error, and which one it names. *)
Definition errorGearOf (selected : option nat) (pair : nat * nat)
  : nat * nat :=
  let (a, b) := pair in
  if refIs selected a then (a, b)
  else if refIs selected b then (b, a)
  else (a, b).

Definition vsub (p q : Vec3) : Vec3 :=
  mkVec3 (vx p - vx q) (vy p - vy q) (vz p - vz q).
Definition vadd (p q : Vec3) : Vec3 :=
  mkVec3 (vx p + vx q) (vy p + vy q) (vz p + vz q).
Definition vscale (p : Vec3) (k : Q) : Vec3 :=
  mkVec3 (vx p * k) (vy p * k) (vz p * k).

(* ================================================================== *)
(** * The connectivity engine *)

Section Engine.

(** [a.distanceTo(b)] and [v.normalize()] of THREE.Vector3. *)
Variable distanceTo : Vec3 -> Vec3 -> Q.
Variable normalize : Vec3 -> Vec3.

Definition currentDistance (a b : Gear) : Q :=
  distanceTo (position a) (position b).

(** [checkGearsOverlap(gear1, gear2)] *)
Definition checkGearsOverlap (a b : Gear) : bool :=
  let overlapThreshold := idealDistance a b * (9 # 10) in
  Qltb (currentDistance a b) overlapThreshold.

(** The two predicates on references; a reference that resolves to nothing
    takes the [return false] of the guards. *)
Definition overlapRef (gs : list Gear) (i j : nat) : bool :=
  match findGear i gs, findGear j gs with
  | Some a, Some b => checkGearsOverlap a b
  | _, _ => false
  end.

Definition compatibleRef (gs : list Gear) (i j : nat) : bool :=
  match findGear i gs, findGear j gs with
  | Some a, Some b => areGearsCompatible a b
  | _, _ => false
  end.

(** ** updateConnections *)

(** First loop: jamming and overlap errors are dropped. *)
Definition clearPositional (g : Gear) : Gear :=
  if isSome (incompatibleWith g) && (jammingError g || overlapError g)
  then clearIncompatibleState g
  else g.

(** Second loop: a module incompatibility is dropped once the pair is more
    than [incompatibleClearThreshold] off its ideal distance, or when its
    target is gone. *)
Definition clearMovedAway (gs : list Gear) (g : Gear) : Gear :=
  match incompatibleWith g with
  | Some target =>
      if negb (jammingError g) && negb (overlapError g) then
        match findGear target gs with
        | None => clearIncompatibleState g
        | Some targetGear =>
            let diff :=
              Qabs (currentDistance g targetGear
                    - idealDistance g targetGear) in
            if Qltb incompatibleClearThreshold diff
            then clearIncompatibleState g
            else g
        end
      else g
  | None => g
  end.

(** The pairs close enough to their ideal distance, in enumeration
    order. *)
Definition candidateOf (p : Gear * Gear) : list Candidate :=
  let (a, b) := p in
  if Qltb (Qabs (currentDistance a b - idealDistance a b)) meshThreshold
  then [mkCandidate (id a) (id b) (currentDistance a b)]
  else [].

Definition potentialConnections (gs : list Gear) : list Candidate :=
  flat_map candidateOf (pairs gs).

(** The first overlapping pair, in enumeration order. *)
Definition firstOverlap (gs : list Gear) : option (nat * nat) :=
  match find (fun p => checkGearsOverlap (fst p) (snd p)) (pairs gs) with
  | Some (a, b) => Some (id a, id b)
  | None => None
  end.

(** One round of the loop over the sorted candidates.  The state is the
    registry and the first jamming pair met so far. *)
Definition connectStep (st : list Gear * option (nat * nat))
           (c : Candidate) : list Gear * option (nat * nat) :=
  let (gs, jamming) := st in
  if overlapRef gs (gear1 c) (gear2 c) then st
  else if negb (compatibleRef gs (gear1 c) (gear2 c)) then st
  else if wouldCauseJamming gs (gear1 c) (gear2 c) then
    (gs, match jamming with
         | None => Some (gear1 c, gear2 c)
         | Some _ => jamming
         end)
  else (connectGears gs (gear1 c) (gear2 c), jamming).

Definition connectAll (gs : list Gear) (cs : list Candidate)
  : list Gear * option (nat * nat) :=
  fold_left connectStep cs (gs, None).

(** The error shown at the end: one overlap, else one jamming. *)
Definition surfaceError (selected : option nat)
           (overlap jamming : option (nat * nat)) (gs : list Gear)
  : list Gear :=
  match overlap with
  | Some p =>
      let (errorGear, otherGear) := errorGearOf selected p in
      updateGear errorGear (setOverlapState otherGear) gs
  | None =>
      match jamming with
      | Some p =>
          let (errorGear, otherGear) := errorGearOf selected p in
          updateGear errorGear (setJammingState otherGear) gs
      | None => gs
      end
  end.

Definition rebuild (selected : option nat) (gs : list Gear) : list Gear :=
  let gs1 := map clearPositional gs in
  let gs2 := map (clearMovedAway gs1) gs1 in
  let gs3 := map (setConnectedTo []) gs2 in
  let candidates := sortByDistance (potentialConnections gs3) in
  let overlap := firstOverlap gs3 in
  let (gs4, jamming) := connectAll gs3 candidates in
  surfaceError selected overlap jamming gs4.

Definition updateConnections (s : Simulator) : Simulator :=
  setGears (rebuild (selectedGear s) (gears s)) s.

(** ** checkSnapToMesh *)

Definition snapTo (gs : list Gear) (moving gear : Gear) : list Gear :=
  let gs1 :=
    if isSome (incompatibleWith moving)
    then updateGear (id moving) clearIncompatibleState gs
    else gs in
  let direction := normalize (vsub (position moving) (position gear)) in
  let target :=
    vadd (position gear) (vscale direction (idealDistance moving gear)) in
  let gs2 := updateGear (id moving) (setPosition target) gs1 in
  if includes (connectedTo moving) (id gear) then gs2
  else connectGears gs2 (id moving) (id gear).

(** The loop over [this.gears]; nothing is written before the round that
    returns, so the gears met are those of the registry [gs]. *)
Fixpoint snapLoop (gs : list Gear) (moving : Gear) (rest : list Gear)
  : list Gear * bool :=
  match rest with
  | [] => (gs, false)
  | gear :: rest' =>
      if Nat.eqb (id gear) (id moving) then snapLoop gs moving rest'
      else if checkGearsOverlap moving gear then
        (updateGear (id moving) (setOverlapState (id gear)) gs, false)
      else
        let diff :=
          Qabs (currentDistance moving gear - idealDistance moving gear) in
        if Qltb diff snapThreshold && Qltb (1 # 10) diff then
          if negb (areGearsCompatible moving gear) then
            (updateGear (id moving) (setIncompatibleState (id gear)) gs,
             false)
          else if wouldCauseJamming gs (id moving) (id gear) then
            (updateGear (id moving) (setJammingState (id gear)) gs, false)
          else (snapTo gs moving gear, true)
        else snapLoop gs moving rest'
  end.

Definition checkSnapToMesh (s : Simulator) (movingGear : nat)
  : Simulator * bool :=
  match findGear movingGear (gears s) with
  | None => (s, false)
  | Some moving =>
      let (gs, snapped) := snapLoop (gears s) moving (gears s) in
      (setGears gs s, snapped)
  end.

End Engine.

(* ================================================================== *)
(** * Kinematics: calculateGearSpeeds *)

(** [this.gears.find((g) => g.isDriver) || this.gears[0]] *)
Definition findDriver (gs : list Gear) : option Gear :=
  match find isDriver gs with
  | Some g => Some g
  | None => hd_error gs
  end.

(** The assignment to a newly visited [connected], read from [current] as
    the store has it at that moment. *)
Definition propagateTo (gs : list Gear) (current connected : nat)
  : list Gear :=
  match findGear current gs, findGear connected gs with
  | Some cur, Some con =>
      let ratio := teeth (params cur) / teeth (params con) in
      updateGear connected
                 (setSpeed (rpm cur * ratio) (- rotationDirection cur)) gs
  | _, _ => gs
  end.

(** The [for (const connected of current.connectedTo)] loop. *)
Fixpoint speedScan (current : nat) (conn : list nat) (gs : list Gear)
         (visited queue : list nat) : list Gear * list nat * list nat :=
  match conn with
  | [] => (gs, visited, queue)
  | connected :: rest =>
      if includes visited connected
      then speedScan current rest gs visited queue
      else speedScan current rest (propagateTo gs current connected)
                     (connected :: visited) (queue ++ [connected])
  end.

(** The [while (queue.length > 0)] loop; [None] when [fuel] rounds did not
    empty the queue. *)
Fixpoint speedLoop (fuel : nat) (gs : list Gear) (visited queue : list nat)
  : option (list Gear) :=
  match fuel with
  | O => None
  | S fuel' =>
      match queue with
      | [] => Some gs
      | current :: queue' =>
          let '(gs', visited', queue'') :=
            speedScan current (neighbours gs current) gs visited queue' in
          speedLoop fuel' gs' visited' queue''
      end
  end.

(** The traversal from a chosen driver.  The fuel always suffices (lemma
    [propagateFrom_runs]), so the last branch is never taken. *)
Definition propagateFrom (driver : nat) (inputRPM : Q) (gs : list Gear)
  : list Gear :=
  let gs0 := updateGear driver (setSpeed inputRPM 1%Z) gs in
  match speedLoop (searchFuel gs0) gs0 [driver] [driver] with
  | Some gs' => gs'
  | None => gs0
  end.

Definition calculateGearSpeeds (s : Simulator) : Simulator :=
  match findDriver (gears s) with
  | None => s
  | Some driver => setGears (propagateFrom (id driver) (inputRPM s) (gears s)) s
  end.

(* ================================================================== *)
(** * The lifecycle operations *)

Definition setPlaying (b : bool) (s : Simulator) : Simulator :=
  mkSimulator (gears s) (selectedGear s) (nextGearId s) b (inputRPM s).

Definition setSelected (sel : option nat) (s : Simulator) : Simulator :=
  mkSimulator (gears s) sel (nextGearId s) (isPlaying s) (inputRPM s).

Definition setInputRPM (q : Q) (s : Simulator) : Simulator :=
  mkSimulator (gears s) (selectedGear s) (nextGearId s) (isPlaying s) q.

(** How a call ends. *)
Inductive Completion := Returned | Thrown.

(** [play()].  With a jamming gear it calls [showJammingMessage()] without
    the argument: the message is shown, and the log line at the end of
    [showJammingMessage] then reads [gear.id] of [undefined].  The call ends
    there, before [play] has written anything. *)
Definition play (s : Simulator) : Simulator * Completion :=
  match find jammingError (gears s) with
  | Some jammingGear => (s, Thrown)
  | None => (calculateGearSpeeds (setPlaying true s), Returned)
  end.

(** [pause()] *)
Definition pause (s : Simulator) : Simulator := setPlaying false s.

(** [selectGear(gear)] *)
Definition selectGear (s : Simulator) (gear : option nat) : Simulator :=
  setSelected gear s.

(** What [parseInt] and [parseFloat] return for the five parameter fields of
    the page; [None] is [NaN]. *)
Record ParamInputs := mkParamInputs {
  in_teeth : option Q;
  in_module : option Q;
  in_pressureAngle : option Q;
  in_thickness : option Q;
  in_boreDiameter : option Q
}.

(** [this.gears.includes(ref)] *)
Definition inRegistry (gs : list Gear) (i : nat) : bool :=
  existsb (fun g => Nat.eqb (id g) i) gs.

(** [addGear()] *)
Definition addGear (s : Simulator) (inp : ParamInputs) : Simulator :=
  let params :=
    GearGeometry.mkParams
      (orDefault (in_teeth inp) 20)
      (orDefault (in_module inp) 2)
      (orDefault (in_pressureAngle inp) 20)
      (orDefault (in_thickness inp) 5)
      (orDefault (in_boreDiameter inp) 5) in
  let gearGeom := GearGeometry.constructor params in
  let offset := inject_Z (Z.of_nat (length (gears s))) * 50 in
  let gear :=
    mkGear (nextGearId s) (mkVec3 offset 0 0)
           (mkGearParams (GearGeometry.p_teeth params)
                         (GearGeometry.p_module params)
                         (GearGeometry.p_pressureAngle params)
                         (GearGeometry.p_thickness params)
                         (GearGeometry.p_boreDiameter params)
                         (GearGeometry.pitchDiameter gearGeom))
           0 1%Z [] (Nat.eqb (length (gears s)) 0) None false false in
  mkSimulator (gears s ++ [gear]) (Some (id gear)) (S (nextGearId s))
              (isPlaying s) (inputRPM s).

(** [Math.max(lo, Math.min(hi, x))] *)
Definition clamp (lo hi x : Q) : Q := Qmax lo (Qmin hi x).

(** [deleteSelectedGear()] *)
Definition deleteSelectedGear (s : Simulator) : Simulator :=
  match selectedGear s with
  | None => s
  | Some gearToDelete =>
      if negb (inRegistry (gears s) gearToDelete) then setSelected None s
      else
        let gs1 :=
          map (fun g => if refIs (incompatibleWith g) gearToDelete
                        then clearIncompatibleState g else g) (gears s) in
        let gs2 := updateGear gearToDelete clearIncompatibleState gs1 in
        let gs3 :=
          map (fun g =>
                 setConnectedTo
                   (filter (fun c => negb (Nat.eqb c gearToDelete))
                           (connectedTo g)) g) gs2 in
        let gs4 := filter (fun g => negb (Nat.eqb (id g) gearToDelete)) gs3 in
        mkSimulator gs4 None (nextGearId s) (isPlaying s) (inputRPM s)
  end.

(** [resetScene()] *)
Definition resetScene (s : Simulator) : Simulator :=
  mkSimulator [] None (nextGearId s) false (inputRPM s).

Section Lifecycle.

Variable distanceTo : Vec3 -> Vec3 -> Q.
Variable normalize : Vec3 -> Vec3.

(** [updateSelectedGearParams()].  When a field parses to [NaN] the source
    stores [NaN] in [params]; no rational holds it and the result is
    [None]. *)
Definition updateSelectedGearParams (s : Simulator) (inp : ParamInputs)
  : option Simulator :=
  match selectedGear s with
  | None => Some s
  | Some sel =>
      if negb (inRegistry (gears s) sel) then Some (setSelected None s)
      else
        match in_teeth inp, in_module inp, in_pressureAngle inp,
              in_thickness inp, in_boreDiameter inp with
        | Some t, Some m, Some pa, Some th, Some bd =>
            let params :=
              GearGeometry.mkParams (clamp 8 100 t) (clamp (1 # 2) 10 m)
                                    (clamp (29 # 2) 25 pa) (clamp 1 20 th)
                                    (clamp 1 20 bd) in
            let gearGeom := GearGeometry.constructor params in
            let stored :=
              mkGearParams (GearGeometry.p_teeth params)
                           (GearGeometry.p_module params)
                           (GearGeometry.p_pressureAngle params)
                           (GearGeometry.p_thickness params)
                           (GearGeometry.p_boreDiameter params)
                           (GearGeometry.pitchDiameter gearGeom) in
            Some (updateConnections distanceTo
                    (setGears (updateGear sel (setParams stored) (gears s))
                              s))
        | _, _, _, _, _ => None
        end
  end.

(** [updateSelectedGearPosition()] *)
Definition updateSelectedGearPosition (s : Simulator) (x y z : option Q)
  : Simulator :=
  match selectedGear s with
  | None => s
  | Some sel =>
      let p := mkVec3 (orDefault x 0) (orDefault y 0) (orDefault z 0) in
      updateConnections distanceTo
        (setGears (updateGear sel (setPosition p) (gears s)) s)
  end.

(** A write to [gear.mesh.position] by a drag or a grab. *)
Definition moveGear (s : Simulator) (gear : nat) (p : Vec3) : Simulator :=
  setGears (updateGear gear (setPosition p) (gears s)) s.

(** ** What the presentation layer can ask for *)

Inductive Event :=
| EvAddGear (inp : ParamInputs)
| EvSelect (gear : option nat)
| EvUpdateParams (inp : ParamInputs)
| EvUpdatePosition (x y z : option Q)
| EvMove (gear : nat) (p : Vec3)
| EvSnap (gear : nat)
| EvRebuild
| EvDelete
| EvResetScene
| EvPlay
| EvPause
| EvInputRPM (q : Q)
| EvRecalculate.

Definition step (s : Simulator) (e : Event) : option Simulator :=
  match e with
  | EvAddGear inp => Some (addGear s inp)
  | EvSelect gear => Some (selectGear s gear)
  | EvUpdateParams inp => updateSelectedGearParams s inp
  | EvUpdatePosition x y z => Some (updateSelectedGearPosition s x y z)
  | EvMove gear p => Some (moveGear s gear p)
  | EvSnap gear => Some (fst (checkSnapToMesh distanceTo normalize s gear))
  | EvRebuild => Some (updateConnections distanceTo s)
  | EvDelete => Some (deleteSelectedGear s)
  | EvResetScene => Some (resetScene s)
  | EvPlay => Some (fst (play s))
  | EvPause => Some (pause s)
  | EvInputRPM q => Some (setInputRPM q s)
  | EvRecalculate => Some (calculateGearSpeeds s)
  end.

Fixpoint run (s : Simulator) (es : list Event) : option Simulator :=
  match es with
  | [] => Some s
  | e :: rest =>
      match step s e with
      | Some s' => run s' rest
      | None => None
      end
  end.

(** The states the simulator can be in. *)
Definition Reachable (s : Simulator) : Prop :=
  exists es, run initial es = Some s.

End Lifecycle.

(* ================================================================== *)
(** * The handlers of the page and of the XR panel *)

Section Handlers.

Variable distanceTo : Vec3 -> Vec3 -> Q.
Variable normalize : Vec3 -> Vec3.

(** [onMouseMove(event)], the branch of a drag.  [isDragging] and the
    shift key are those of the page; [newX], [newY] is the point under the
    mouse less the drag offset, [newZ] the height the shift-drag asks
    for. *)
Definition onMouseMove (s : Simulator) (isDragging shiftKey : bool)
           (newX newY newZ : Q) : Simulator :=
  match selectedGear s with
  | Some sel =>
      if isDragging then
        let s1 :=
          if shiftKey then
            setGears
              (updateGear sel
                 (fun g => setPosition (mkVec3 (vx (position g))
                                               (vy (position g)) newZ) g)
                 (gears s)) s
          else
            fst (checkSnapToMesh distanceTo normalize
                   (setGears
                      (updateGear sel
                         (fun g => setPosition
                                     (mkVec3 newX newY (vz (position g))) g)
                         (gears s)) s)
                   sel) in
        updateConnections distanceTo s1
      else s
  | None => s
  end.

(** [releaseGrab(handedness)], for the grab state of that hand:
    [grabbedGear] is [None] when the hand holds nothing. *)
Definition releaseGrab (s : Simulator) (isGrabbing : bool)
           (grabbedGear : option nat) : Simulator :=
  match grabbedGear with
  | Some gear =>
      if isGrabbing then
        updateConnections distanceTo
          (fst (checkSnapToMesh distanceTo normalize s gear))
      else s
  | None => s
  end.

End Handlers.







(** ** The animation *)





(* ================================================================== *)
(** * The Euclidean distance, for the concrete scenes *)

(** [Math.sqrt], cut after six decimals; exact when the root has no more. *)
Definition sqrt6 (q : Q) : Q :=
  Qred (Z.sqrt ((Qnum q * 10 ^ 12) / Zpos (Qden q)) # 1000000).

Definition euclid (p q : Vec3) : Q :=
  let d := vsub p q in
  sqrt6 (vx d * vx d + vy d * vy d + vz d * vz d).

(** [v.normalize()]: [v] divided by its length, and [v] itself when the
    length is zero. *)
Definition unit (v : Vec3) : Vec3 :=
  let len := sqrt6 (vx v * vx v + vy v * vy v + vz v * vz v) in
  vscale v (/ orElse len 1).

(** The text fields of the page holding [teeth] and [module], the other
    three at their defaults. *)
Definition fields (teeth module : Q) : ParamInputs :=
  mkParamInputs (Some teeth) (Some module) (Some 20) (Some 5) (Some 5).

Definition at2 (x y : Q) : Vec3 := mkVec3 x y 0.

(* ================================================================== *)
(** * Vocabulary of the statements *)

(** ** Paths in the connectivity graph *)

(** [walk adj n a b]: [n] edges lead from [a] to [b]. *)
Inductive walk (adj : nat -> list nat) : nat -> nat -> nat -> Prop :=
| walk_here a : walk adj 0 a a
| walk_edge n a b c : In b (adj a) -> walk adj n b c -> walk adj (S n) a c.

Definition reach (adj : nat -> list nat) (a b : nat) : Prop :=
  exists n, walk adj n a b.

(** [pathLength adj a b k]: the shortest way from [a] to [b] along at least
    one edge has [k] edges. *)
Definition pathLength (adj : nat -> list nat) (a b k : nat) : Prop :=
  (1 <= k)%nat /\ walk adj k a b /\
  forall m, (1 <= m)%nat -> walk adj m a b -> (k <= m)%nat.

Definition byDepth (x y : nat * nat) : Prop := (snd x <= snd y)%nat.

(** ** Relations between two states of a gear *)

(** The object is the same and its place in the graph is the same. *)
Definition sameLink (g g' : Gear) : Prop :=
  id g' = id g /\ connectedTo g' = connectedTo g.

(** Only [rpm] and [rotationDirection] may differ. *)
Definition sameButSpeed (g g' : Gear) : Prop :=
  id g' = id g /\ position g' = position g /\ params g' = params g /\
  connectedTo g' = connectedTo g /\ isDriver g' = isDriver g /\
  incompatibleWith g' = incompatibleWith g /\
  jammingError g' = jammingError g /\ overlapError g' = overlapError g.

(** The same object at the same place with the same dimensions. *)
Definition sameGeo (g g' : Gear) : Prop :=
  id g' = id g /\ position g' = position g /\ params g' = params g.

(** All that the graph construction reads. *)
Definition sameCore (g g' : Gear) : Prop :=
  sameGeo g g' /\ connectedTo g' = connectedTo g.

(** All but [connectedTo] and the error fields. *)
Definition sameRest (g g' : Gear) : Prop :=
  sameGeo g g' /\ rpm g' = rpm g /\
  rotationDirection g' = rotationDirection g /\ isDriver g' = isDriver g.

Definition sameErrors (g g' : Gear) : Prop :=
  incompatibleWith g' = incompatibleWith g /\
  jammingError g' = jammingError g /\ overlapError g' = overlapError g.

Definition pairRel (R : Gear -> Gear -> Prop) (p p' : Gear * Gear) : Prop :=
  R (fst p) (fst p') /\ R (snd p) (snd p').

Definition noFlags (g : Gear) : Prop :=
  jammingError g = false /\ overlapError g = false.

(** A jamming or overlap flag comes with the gear it refers to. *)
Definition okFlags (g : Gear) : Prop :=
  incompatibleWith g = None -> noFlags g.

(** A write that keeps the identifier and the agreement of the flags. *)
Definition tame (g g' : Gear) : Prop :=
  id g' = id g /\ (okFlags g -> okFlags g').

(** Identifiers are distinct and below the next one to be given, and a
    jamming or overlap flag comes with the gear it refers to. *)
Definition wellFormedGears (next : nat) (gs : list Gear) : Prop :=
  NoDup (map id gs) /\ Forall okFlags gs /\
  Forall (fun g => (id g < next)%nat) gs.

Definition wellFormed (s : Simulator) : Prop :=
  wellFormedGears (nextGearId s) (gears s).

(** teeth 8-100, module 0.5-10, pressure angle 14.5-25, thickness 1-20,
    bore diameter 1-20. *)
Definition inBounds (p : GearParams) : Prop :=
  8 <= teeth p <= 100 /\
  (1 # 2) <= module p <= 10 /\
  (29 # 2) <= pressureAngle p <= 25 /\
  1 <= thickness p <= 20 /\
  1 <= boreDiameter p <= 20.

(** ** The invariant of the traversal of calculateGearSpeeds *)

Section TraversalVocabulary.

Variable driver : nat.

(** Every visited gear but the driver has a visited neighbour from which
    its speed and direction derive. *)
Definition parentLaw (gs : list Gear) (visited : list nat) : Prop :=
  forall c gc,
    In c visited -> c <> driver -> findGear c gs = Some gc ->
    exists p gp,
      In p visited /\ findGear p gs = Some gp /\
      In c (connectedTo gp) /\
      rpm gc = rpm gp * (teeth (params gp) / teeth (params gc)) /\
      rotationDirection gc = (- rotationDirection gp)%Z.

Record traversalInv (adj : nat -> list nat) (gs : list Gear)
       (visited queue : list nat) : Prop := {
  inv_driver : In driver visited;
  inv_queue : incl queue visited;
  inv_closed : forall v, In v visited -> In v queue \/ incl (adj v) visited;
  inv_sound : forall v, In v visited -> reach adj driver v;
  inv_parents : parentLaw gs visited;
  inv_adj : forall i, neighbours gs i = adj i
}.

End TraversalVocabulary.

(** ** The invariant of the search of wouldCauseJamming *)

Section SearchVocabulary.

Variable adj : nat -> list nat.
Variables gear1 gear2 : nat.

Record searchInv (visited : list nat) (queue : list (nat * nat))
  : Prop := {
  si_start : In gear1 visited;
  si_sorted : StronglySorted byDepth queue;
  si_band : forall u d rest,
      queue = (u, d) :: rest ->
      forall v dv, In (v, dv) queue -> (dv <= S d)%nat;
  si_walk : forall v dv,
      In (v, dv) queue -> walk adj dv gear1 v /\ In v visited;
  si_least : forall v dv,
      In (v, dv) queue -> forall m, walk adj m gear1 v -> (dv <= m)%nat;
  si_done : forall b,
      In b visited -> ~ In b (map fst queue) ->
      ~ In gear2 (adj b) /\ incl (adj b) visited
}.

End SearchVocabulary.

(** ** The stages of a rebuild *)

(** What [surfaceError] does to one gear. *)
Definition surfaceGear (selected : option nat)
           (overlap jamming : option (nat * nat)) (g : Gear) : Gear :=
  match overlap with
  | Some p =>
      let (errorGear, otherGear) := errorGearOf selected p in
      if Nat.eqb (id g) errorGear then setOverlapState otherGear g else g
  | None =>
      match jamming with
      | Some p =>
          let (errorGear, otherGear) := errorGearOf selected p in
          if Nat.eqb (id g) errorGear then setJammingState otherGear g else g
      | None => g
      end
  end.

Section RebuildVocabulary.

Variable distanceTo : Vec3 -> Vec3 -> Q.

(** The registry on which the graph is built: errors cleared, no edges. *)
Definition bare (gs : list Gear) : list Gear :=
  let gs1 := map clearPositional gs in
  map (setConnectedTo []) (map (clearMovedAway distanceTo gs1) gs1).

(** The gear as the two clearing loops leave it. *)
Definition cleaned (gs : list Gear) (g : Gear) : Gear :=
  clearMovedAway distanceTo (map clearPositional gs) (clearPositional g).

Definition candidates (gs : list Gear) : list Candidate :=
  sortByDistance (potentialConnections distanceTo (bare gs)).

(** Within [meshThreshold] of the ideal distance. *)
Definition inRange (a b : Gear) : bool :=
  Qltb (Qabs (currentDistance distanceTo a b - idealDistance a b))
       meshThreshold.

(** What a rebuild asks of a pair before it looks for a cycle. *)
Definition mayMesh (a b : Gear) : Prop :=
  inRange a b = true /\
  checkGearsOverlap distanceTo a b = false /\
  areGearsCompatible a b = true.

(** Every edge of the registry comes from a candidate of [cs] that passed
    the overlap and compatibility tests on the registry [B]. *)
Definition edgesFrom (B : list Gear) (cs : list Candidate)
           (gs : list Gear) : Prop :=
  forall g j,
    In g gs -> In j (connectedTo g) ->
    exists c,
      In c cs /\
      ((gear1 c = id g /\ gear2 c = j) \/ (gear1 c = j /\ gear2 c = id g)) /\
      overlapRef distanceTo B (gear1 c) (gear2 c) = false /\
      compatibleRef B (gear1 c) (gear2 c) = true.

End RebuildVocabulary.

(** ** Concrete scenes *)

(** The state after a sequence of requests, from the initial state. *)
Definition after (es : list Event) : Simulator :=
  match run euclid unit initial es with
  | Some s => s
  | None => initial
  end.

(** What a gear of the registry shows of its kinematics. *)
Definition speeds (s : Simulator) : list (nat * Q * Z) :=
  map (fun g => (id g, Qred (rpm g), rotationDirection g)) (gears s).

(** The graph, as adjacency lists. *)
Definition graph (s : Simulator) : list (nat * list nat) :=
  map (fun g => (id g, connectedTo g)) (gears s).

(** The errors shown. *)
Definition errors (s : Simulator) : list (nat * ErrorState) :=
  map (fun g => (id g, errorState g)) (gears s).

(** A 20-tooth gear of module 2 with a bore of 20. *)
Definition wideBore : GearGeometry.Params :=
  GearGeometry.mkParams 20 2 20 5 20.

(** Three gears of 33 teeth, module 2 (pitch diameter 66), at the corners of
    a triangle with sides 65, 65 and 66: gear 1 at the origin, gear 2 at
    (33, 56), gear 3 at (66, 0). *)
Definition triangleScene : list Event :=
  [EvAddGear (fields 33 2); EvAddGear (fields 33 2); EvAddGear (fields 33 2);
   EvMove 2 (at2 33 56); EvMove 3 (at2 66 0); EvRebuild].

(** Four gears of 20 teeth, module 2 (pitch diameter 40), at the corners of
    a square of side 40, in the order 1, 2, 3, 4 around it. *)
Definition squareScene : list Event :=
  [EvAddGear (fields 20 2); EvAddGear (fields 20 2); EvAddGear (fields 20 2);
   EvAddGear (fields 20 2);
   EvMove 2 (at2 40 0); EvMove 3 (at2 40 40); EvMove 4 (at2 0 40);
   EvRebuild].

(** Gears of 20, 30 and 15 teeth, module 2, in a row at their ideal
    distances 50 and 45. *)
Definition chainScene : list Event :=
  [EvAddGear (fields 20 2); EvAddGear (fields 30 2); EvAddGear (fields 15 2);
   EvMove 2 (at2 50 0); EvMove 3 (at2 95 0); EvRebuild].

(** Gears of 53, 8 and 54 teeth, module 1/2 (pitch diameters 26.5, 4 and
    27): gear 1 at the origin, gear 2 at (12, 9), gear 3 at (24, 0).  Gears
    1-2 and 2-3 are 15 apart and mesh; gears 1-3 are 24 apart, within 3 of
    their ideal 26.75 and below nine tenths of it. *)
Definition overlapScene : list Event :=
  [EvAddGear (fields 53 (1 # 2)); EvAddGear (fields 8 (1 # 2));
   EvAddGear (fields 54 (1 # 2));
   EvMove 2 (at2 12 9); EvMove 3 (at2 24 0); EvRebuild].

(** Gears of 20 teeth with modules 2 and 3 (pitch diameters 40 and 60),
    50 apart: at their ideal distance. *)
Definition mismatchScene : list Event :=
  [EvAddGear (fields 20 2); EvAddGear (fields 20 3);
   EvMove 2 (at2 50 0); EvRebuild].

(** Two gears; the first, the driver, is selected and deleted; then
    [play]. *)
Definition driverDeleted : list Event :=
  [EvAddGear (fields 20 2); EvAddGear (fields 30 2);
   EvSelect (Some 1%nat); EvDelete; EvPlay].


(** ** The shape of the connectivity graph *)

(** [b] is on the [connectedTo] list of the gear [a] refers to. *)
Definition linked (gs : list Gear) (a b : nat) : Prop :=
  In b (neighbours gs a).

(** Edges go both ways, join two different gears of the registry, and are
    listed once. *)
Record graphShape (gs : list Gear) : Prop := {
  shape_sym : forall a b, linked gs a b -> linked gs b a;
  shape_irrefl : forall a, ~ linked gs a a;
  shape_once : forall a, NoDup (neighbours gs a);
  shape_closed : forall a b, linked gs a b -> In b (map id gs)
}.

(** Every edge joins gears of different colours. *)
Definition twoColoured (gs : list Gear) (col : nat -> bool) : Prop :=
  forall a b, linked gs a b -> col b = negb (col a).

Definition bipartite (gs : list Gear) : Prop :=
  exists col, twoColoured gs col.

(** Whether [b] can be reached from [a], by the search of
    [wouldCauseJamming]. *)
Definition reachb (gs : list Gear) (a b : nat) : bool :=
  Nat.eqb a b || isSome (closingCycle gs a b).

(** [array.push(x)] unless [array.includes(x)]. *)
Definition pushed (j : nat) (l : list nat) : list nat :=
  if includes l j then l else l ++ [j].

(** The same object of the same make: what no operation but an update of
    the parameters changes. *)
Definition sameMake (g g' : Gear) : Prop :=
  id g' = id g /\ params g' = params g /\ isDriver g' = isDriver g.

(** The stored pitch diameter is that of the stored teeth and module, and
    neither of these is zero. *)
Definition consistentParams (p : GearParams) : Prop :=
  ~ teeth p == 0 /\ ~ module p == 0 /\
  pitchDiameter p = teeth p * module p.
(** Edges both ways between different registered gears, listed once, and
    two colours for the gears. *)
Definition evenGraph (gs : list Gear) : Prop :=
  graphShape gs /\ bipartite gs.

(** The references [deleteSelectedGear] writes, as one pass. *)
Definition withoutGear (d : nat) (gs : list Gear) : list Gear :=
  map (fun g =>
         setConnectedTo
           (filter (fun c => negb (Nat.eqb c d)) (connectedTo g)) g)
      (updateGear d clearIncompatibleState
         (map (fun g => if refIs (incompatibleWith g) d
                        then clearIncompatibleState g else g) gs)).
(** Make, speed and direction: what only calculateGearSpeeds changes. *)
Definition sameDrive (g g' : Gear) : Prop :=
  sameMake g g' /\ rpm g' = rpm g /\
  rotationDirection g' = rotationDirection g.

(** A write that leaves the place and the errors of every gear but [m]. *)
Definition movedOnly (m : nat) (g g' : Gear) : Prop :=
  sameDrive g g' /\
  (id g <> m -> position g' = position g /\ sameErrors g g').

(** A write that keeps the identifier and the driver mark, and keeps the
    parameters consistent. *)
Definition sameRole (g g' : Gear) : Prop :=
  id g' = id g /\ isDriver g' = isDriver g /\
  (consistentParams (params g) -> consistentParams (params g')).

(** No gear after the first is marked as the driver. *)
Definition driverFirst (gs : list Gear) : Prop :=
  match gs with
  | [] => True
  | _ :: rest => Forall (fun g => isDriver g = false) rest
  end.
(** What [deleteSelectedGear] makes of a gear that stays. *)
Definition afterDeletionOf (d : nat) (g : Gear) : Gear :=
  let g1 := if refIs (incompatibleWith g) d
            then clearIncompatibleState g else g in
  setConnectedTo (filter (fun c => negb (Nat.eqb c d)) (connectedTo g1)) g1.

Section ShownVocabulary.

Variable distanceTo : Vec3 -> Vec3 -> Q.



End ShownVocabulary.
(** A write that keeps the place of every gear but [m], and the make,
    speed and direction of all. *)
Definition placeKept (m : nat) (g g' : Gear) : Prop :=
  sameDrive g g' /\ (id g <> m -> position g' = position g).

(** ** More scenes *)

(** The gear a reference resolves to, in a scene where it does. *)
Definition gearOf (s : Simulator) (i : nat) : Gear :=
  match findGear i (gears s) with
  | Some g => g
  | None => mkGear 0 (at2 0 0) (mkGearParams 0 0 0 0 0 0) 0 0%Z [] false
                   None false false
  end.

(** The chain of 20, 30 and 15 teeth with the gear in the middle
    selected. *)
Definition chainSelected : list Event :=
  chainScene ++ [EvSelect (Some 2%nat)].


(** Two gears of 20 teeth, module 2 (pitch diameter 40), 42 apart: 2 off
    their ideal distance. *)
Definition nearScene : list Event :=
  [EvAddGear (fields 20 2); EvAddGear (fields 20 2); EvMove 2 (at2 42 0)].

(** Two gears of pitch diameter 40, 30 apart. *)
Definition overlappingPair : Gear * Gear :=
  (mkGear 1 (at2 0 0) (mkGearParams 20 2 20 5 5 40) 0 1%Z [] true None
          false false,
   mkGear 2 (at2 30 0) (mkGearParams 20 2 20 5 5 40) 0 1%Z [] false None
          false false).

(* ================================================================== *)
(** * Facts about numbers *)

Lemma Qltb_lt (x y : Q) : Qltb x y = true <-> x < y.
Proof.
  unfold Qltb. rewrite negb_true_iff. split; intro H.
  - apply Qnot_le_lt. intro L. apply Qle_bool_iff in L. congruence.
  - destruct (Qle_bool y x) eqn:E; trivial.
    apply Qle_bool_iff in E. apply Qle_not_lt in E. contradiction.
Qed.

Lemma Qltb_ge (x y : Q) : Qltb x y = false <-> y <= x.
Proof.
  unfold Qltb. rewrite negb_false_iff. apply Qle_bool_iff.
Qed.

Lemma Qltb_compat (x x' y y' : Q) :
  x == x' -> y == y' -> Qltb x y = Qltb x' y'.
Proof.
  intros Hx Hy.
  destruct (Qltb x y) eqn:E; symmetry.
  - apply Qltb_lt. apply Qltb_lt in E. now rewrite <- Hx, <- Hy.
  - apply Qltb_ge. apply Qltb_ge in E. now rewrite <- Hx, <- Hy.
Qed.

Lemma orElse_nonzero (x d : Q) : ~ x == 0 -> orElse x d = x.
Proof.
  intro H. unfold orElse. destruct (Qeq_bool x 0) eqn:E; trivial.
  apply Qeq_bool_iff in E. contradiction.
Qed.

Lemma clamp_bounds (lo hi x : Q) : lo <= hi -> lo <= clamp lo hi x <= hi.
Proof.
  intro H. unfold clamp. split.
  - apply Q.le_max_l.
  - apply Q.max_lub; trivial. apply Q.le_min_l.
Qed.

(* ================================================================== *)
(** * The derived dimensions of a gear *)

Section Radii.

Import GearGeometry.

Variable spec : Params.
Hypothesis valid : validSpec spec.

Let g := constructor spec.

Lemma constructor_keeps_valid_fields :
  GearGeometry.teeth g = p_teeth spec /\
  GearGeometry.module g = p_module spec /\
  GearGeometry.boreDiameter g = p_boreDiameter spec.
Proof.
  destruct valid as ([T1 _] & [M1 _] & _ & [B1 _]).
  unfold g, constructor; cbn.
  rewrite !orElse_nonzero; try tauto; intro E; rewrite E in *; lra.
Qed.

Lemma rootRadius_formula :
  rootRadius g == p_teeth spec * p_module spec * (1 # 2)
                  - (5 # 4) * p_module spec.
Proof.
  destruct constructor_keeps_valid_fields as (T & M & _).
  unfold g, constructor in *; cbn in *. rewrite T, M.
  unfold Qdiv. setoid_replace (/ 2) with (1 # 2) by reflexivity. lra.
Qed.

Lemma pitchRadius_formula :
  pitchRadius g == p_teeth spec * p_module spec * (1 # 2).
Proof.
  destruct constructor_keeps_valid_fields as (T & M & _).
  unfold g, constructor in *; cbn in *. rewrite T, M.
  unfold Qdiv. setoid_replace (/ 2) with (1 # 2) by reflexivity. lra.
Qed.

Lemma outerRadius_formula :
  outerRadius g == p_teeth spec * p_module spec * (1 # 2) + p_module spec.
Proof.
  destruct constructor_keeps_valid_fields as (T & M & _).
  unfold g, constructor in *; cbn in *. rewrite T, M.
  unfold Qdiv. setoid_replace (/ 2) with (1 # 2) by reflexivity. lra.
Qed.

Lemma rootRadius_positive : 0 < rootRadius g.
Proof.
  rewrite rootRadius_formula.
  destruct valid as ([T1 _] & [M1 _] & _).
  assert (0 <= (p_teeth spec - 8) * p_module spec)
    by (apply Qmult_le_0_compat; lra).
  lra.
Qed.

(** The bore radius, as the constructor's [if] leaves it. *)
Lemma boreRadius_cases :
  (p_boreDiameter spec / 2 < rootRadius g ->
   boreRadius g = p_boreDiameter spec / 2) /\
  (rootRadius g <= p_boreDiameter spec / 2 ->
   boreRadius g = rootRadius g * (1 # 2)).
Proof.
  destruct constructor_keeps_valid_fields as (_ & _ & B).
  unfold g, constructor in *; cbn in *. rewrite B.
  match goal with |- context [Qle_bool ?a ?b] =>
    destruct (Qle_bool a b) eqn:E end.
  - apply Qle_bool_iff in E. split; intro H; trivial.
    apply Qlt_not_le in H. contradiction.
  - split; intro H; trivial.
    apply Qle_bool_iff in H. congruence.
Qed.

(** C9, as amended: for every valid specification the radii are ordered
    [rootRadius < pitchRadius < outerRadius], the bore stays inside the
    root circle, and the bore radius is [boreDiameter / 2] when that is
    below the root radius and half the root radius otherwise. *)
Theorem radii_ordered_and_bore_inside_root :
  rootRadius g < pitchRadius g /\
  pitchRadius g < outerRadius g /\
  boreRadius g < rootRadius g /\
  (p_boreDiameter spec / 2 < rootRadius g ->
   boreRadius g = p_boreDiameter spec / 2) /\
  (rootRadius g <= p_boreDiameter spec / 2 ->
   boreRadius g = rootRadius g * (1 # 2)).
Proof.
  pose proof rootRadius_positive as Pos.
  pose proof boreRadius_cases as [Small Large].
  destruct valid as (_ & [M1 _] & _).
  repeat split; trivial.
  - rewrite rootRadius_formula, pitchRadius_formula. lra.
  - rewrite pitchRadius_formula, outerRadius_formula. lra.
  - destruct (Qlt_le_dec (p_boreDiameter spec / 2) (rootRadius g)) as [L | L].
    + now rewrite (Small L).
    + rewrite (Large L). lra.
Qed.

End Radii.

Lemma wideBore_valid : GearGeometry.validSpec wideBore.
Proof. unfold GearGeometry.validSpec; cbn. repeat split; discriminate. Qed.

Lemma radii_ordered_witness :
  let g := GearGeometry.constructor wideBore in
  GearGeometry.rootRadius g < GearGeometry.pitchRadius g /\
  GearGeometry.pitchRadius g < GearGeometry.outerRadius g /\
  GearGeometry.boreRadius g < GearGeometry.rootRadius g /\
  (GearGeometry.p_boreDiameter wideBore / 2 < GearGeometry.rootRadius g ->
   GearGeometry.boreRadius g = GearGeometry.p_boreDiameter wideBore / 2) /\
  (GearGeometry.rootRadius g <= GearGeometry.p_boreDiameter wideBore / 2 ->
   GearGeometry.boreRadius g = GearGeometry.rootRadius g * (1 # 2)).
Proof. exact (radii_ordered_and_bore_inside_root wideBore wideBore_valid). Defined.

(** The bore radius is not the minimum of [boreDiameter / 2] and half the
    root radius: a bore of 20 in a root circle of radius 17.5 keeps its
    radius 10, above 8.75. *)
Lemma bore_radius_is_not_the_minimum :
  GearGeometry.validSpec wideBore /\
  let g := GearGeometry.constructor wideBore in
  GearGeometry.boreRadius g == 10 /\
  Qmin (GearGeometry.p_boreDiameter wideBore / 2)
       (GearGeometry.rootRadius g * (1 # 2)) == 35 # 4 /\
  ~ GearGeometry.boreRadius g ==
    Qmin (GearGeometry.p_boreDiameter wideBore / 2)
         (GearGeometry.rootRadius g * (1 # 2)).
Proof.
  split; [exact wideBore_valid |].
  assert (M : Qmin (GearGeometry.p_boreDiameter wideBore / 2)
                (GearGeometry.rootRadius (GearGeometry.constructor wideBore)
                 * (1 # 2)) == 35 # 4).
  { rewrite Q.min_r; [reflexivity | discriminate]. }
  cbv zeta. split; [reflexivity | split; [exact M |]].
  rewrite M. discriminate.
Qed.

(* ================================================================== *)
(** * Facts about the store *)

Lemma includes_In (l : list nat) (i : nat) : includes l i = true <-> In i l.
Proof.
  unfold includes. rewrite existsb_exists. split.
  - intros (x & Hx & E). apply Nat.eqb_eq in E. now subst.
  - intro H. exists i. split; trivial. apply Nat.eqb_refl.
Qed.

Lemma includes_not_In (l : list nat) (i : nat) :
  includes l i = false <-> ~ In i l.
Proof.
  rewrite <- includes_In. destruct (includes l i); split; congruence.
Qed.

Lemma findGear_Some (i : nat) (gs : list Gear) (g : Gear) :
  findGear i gs = Some g -> In g gs /\ id g = i.
Proof.
  intro H. apply find_some in H. destruct H as [H E].
  apply Nat.eqb_eq in E. now split.
Qed.

Lemma findGear_In (gs : list Gear) (g : Gear) :
  NoDup (map id gs) -> In g gs -> findGear (id g) gs = Some g.
Proof.
  induction gs as [| a gs IH]; cbn; intros ND H; [contradiction |].
  inversion ND as [| ? ? Hnot ND']; subst.
  destruct H as [-> | H].
  - now rewrite Nat.eqb_refl.
  - destruct (Nat.eqb (id a) (id g)) eqn:E.
    + apply Nat.eqb_eq in E. exfalso. apply Hnot. rewrite E.
      now apply in_map.
    + now apply IH.
Qed.

Lemma findGear_None (i : nat) (gs : list Gear) :
  findGear i gs = None <-> ~ In i (map id gs).
Proof.
  unfold findGear. split.
  - intros H Hin. apply in_map_iff in Hin. destruct Hin as (g & E & Hg).
    apply (find_none _ _ H) in Hg. apply Nat.eqb_neq in Hg. congruence.
  - intro H. destruct (find _ gs) eqn:E; trivial.
    apply find_some in E. destruct E as [Hin E]. apply Nat.eqb_eq in E.
    exfalso. apply H. rewrite <- E. now apply in_map.
Qed.


Section UpdateGear.

Variable f : Gear -> Gear.
Hypothesis f_id : forall g, id (f g) = id g.

Lemma updateGear_ids (i : nat) (gs : list Gear) :
  map id (updateGear i f gs) = map id gs.
Proof.
  unfold updateGear. rewrite map_map. apply map_ext. intro g.
  now destruct (Nat.eqb (id g) i).
Qed.

Lemma findGear_updateGear_other (i j : nat) (gs : list Gear) :
  i <> j -> findGear i (updateGear j f gs) = findGear i gs.
Proof.
  intro N. induction gs as [| a gs IH]; cbn; trivial.
  destruct (Nat.eqb (id a) j) eqn:Ej.
  - rewrite f_id. apply Nat.eqb_eq in Ej.
    destruct (Nat.eqb (id a) i) eqn:Ei.
    + apply Nat.eqb_eq in Ei. congruence.
    + exact IH.
  - destruct (Nat.eqb (id a) i); trivial.
Qed.

Lemma findGear_updateGear_same (i : nat) (gs : list Gear) :
  findGear i (updateGear i f gs) = option_map f (findGear i gs).
Proof.
  induction gs as [| a gs IH]; cbn; trivial.
  destruct (Nat.eqb (id a) i) eqn:Ei.
  - now rewrite f_id, Ei.
  - now rewrite Ei.
Qed.

End UpdateGear.

(** ** Relations between two states of the registry, gear by gear *)

Lemma Forall2_refl_on {A} (R : A -> A -> Prop) (l : list A) :
  (forall a, In a l -> R a a) -> Forall2 R l l.
Proof.
  induction l as [| a l IH]; intro H; constructor.
  - apply H. now left.
  - apply IH. intros b Hb. apply H. now right.
Qed.

Lemma Forall2_trans {A} (R1 R2 R3 : A -> A -> Prop) (l1 l2 l3 : list A) :
  (forall a b c, R1 a b -> R2 b c -> R3 a c) ->
  Forall2 R1 l1 l2 -> Forall2 R2 l2 l3 -> Forall2 R3 l1 l3.
Proof.
  intros T H. revert l3. induction H; intros l3 H3; inversion H3; subst.
  - constructor.
  - constructor; eauto.
Qed.

Lemma Forall2_map_r {A} (R : A -> A -> Prop) (h : A -> A) (l : list A) :
  (forall a, In a l -> R a (h a)) -> Forall2 R l (map h l).
Proof.
  induction l as [| a l IH]; intro H; cbn; constructor.
  - apply H. now left.
  - apply IH. intros b Hb. apply H. now right.
Qed.

Lemma Forall2_and {A} (R1 R2 : A -> A -> Prop) (l l' : list A) :
  Forall2 R1 l l' -> Forall2 R2 l l' ->
  Forall2 (fun a b => R1 a b /\ R2 a b) l l'.
Proof.
  induction 1; intro H2; inversion H2; subst; constructor; auto.
Qed.

Lemma Forall2_flip {A} (R : A -> A -> Prop) (l l' : list A) :
  Forall2 R l l' -> Forall2 (fun b a => R a b) l' l.
Proof. induction 1; constructor; auto. Qed.

Lemma Forall2_map_l_inv {A} (R : A -> A -> Prop) (h : A -> A)
      (l l' : list A) :
  Forall2 R (map h l) l' -> Forall2 (fun a b => R (h a) b) l l'.
Proof.
  revert l'. induction l as [| a l IH]; cbn; intros l' H;
    inversion H; subst; constructor; auto.
Qed.

Lemma Forall2_with_left {A} (P : A -> Prop) (R : A -> A -> Prop)
      (l l' : list A) :
  Forall P l -> Forall2 R l l' -> Forall2 (fun a b => P a /\ R a b) l l'.
Proof.
  intros F H. induction H; inversion F; subst; constructor; auto.
Qed.

Lemma Forall2_map_eq {A B} (h : A -> B) (l l' : list A) :
  Forall2 (fun a b => h b = h a) l l' -> map h l' = map h l.
Proof. induction 1; cbn; congruence. Qed.

Lemma Forall2_eq {A} (l l' : list A) : Forall2 eq l l' -> l = l'.
Proof. induction 1; congruence. Qed.


Lemma Forall2_In_r {A} (R : A -> A -> Prop) (l l' : list A) (b : A) :
  Forall2 R l l' -> In b l' -> exists a, In a l /\ R a b.
Proof.
  induction 1 as [| x y l l' Hxy H IH]; cbn; [contradiction |].
  intros [-> | Hin].
  - exists x. auto.
  - destruct (IH Hin) as (a & Ha & Ra). exists a. auto.
Qed.

Lemma sameButSpeed_refl (g : Gear) : sameButSpeed g g.
Proof. unfold sameButSpeed. tauto. Qed.

Lemma sameButSpeed_trans (a b c : Gear) :
  sameButSpeed a b -> sameButSpeed b c -> sameButSpeed a c.
Proof. unfold sameButSpeed. intuition congruence. Qed.

Lemma sameButSpeed_setSpeed (r : Q) (d : Z) (g : Gear) :
  sameButSpeed g (setSpeed r d g).
Proof. unfold sameButSpeed. cbn. tauto. Qed.

Lemma sameButSpeed_link (g g' : Gear) : sameButSpeed g g' -> sameLink g g'.
Proof. unfold sameButSpeed, sameLink. tauto. Qed.

Lemma findGear_sameLink (gs gs' : list Gear) (i : nat) :
  Forall2 sameLink gs gs' ->
  match findGear i gs, findGear i gs' with
  | Some g, Some g' => sameLink g g'
  | None, None => True
  | _, _ => False
  end.
Proof.
  induction 1 as [| a b gs gs' [Hid Hc] H IH]; cbn; trivial.
  rewrite Hid. destruct (Nat.eqb (id a) i); trivial. now split.
Qed.

Lemma neighbours_sameLink (gs gs' : list Gear) (i : nat) :
  Forall2 sameLink gs gs' -> neighbours gs' i = neighbours gs i.
Proof.
  intro H. pose proof (findGear_sameLink gs gs' i H) as F.
  unfold neighbours.
  destruct (findGear i gs), (findGear i gs'); try contradiction; trivial.
  apply F.
Qed.

Lemma targets_sameLink (gs gs' : list Gear) :
  Forall2 sameLink gs gs' ->
  flat_map connectedTo gs' = flat_map connectedTo gs.
Proof.
  induction 1 as [| a b gs gs' [_ Hc] H IH]; cbn; congruence.
Qed.

Lemma neighbours_in_targets (gs : list Gear) (i : nat) :
  incl (neighbours gs i) (flat_map connectedTo gs).
Proof.
  unfold neighbours. destruct (findGear i gs) as [g |] eqn:E.
  - apply findGear_Some in E. destruct E as [Hin _].
    intros c Hc. apply in_flat_map. now exists g.
  - intros c [].
Qed.

(* ================================================================== *)
(** * Paths in the connectivity graph *)

Lemma walk_snoc adj n a b c :
  walk adj n a b -> In c (adj b) -> walk adj (S n) a c.
Proof.
  induction 1 as [a | n a x b Hx W IH]; intro Hc.
  - apply walk_edge with c; trivial. constructor.
  - apply walk_edge with x; auto.
Qed.

Lemma walk_last adj n a c :
  walk adj (S n) a c -> exists b, walk adj n a b /\ In c (adj b).
Proof.
  revert a. induction n as [| n IH]; intros a W; inversion W; subst.
  - match goal with H : walk _ 0 _ _ |- _ => inversion H; subst end.
    exists a. split; [constructor | trivial].
  - match goal with H : walk _ (S n) _ _ |- _ =>
      destruct (IH _ H) as (x & Wx & Hx) end.
    exists x. split; trivial. eapply walk_edge; eauto.
Qed.

Lemma reach_refl adj a : reach adj a a.
Proof. exists O. constructor. Qed.

Lemma reach_edge adj a b c : In b (adj a) -> reach adj b c -> reach adj a c.
Proof. intros H [n W]. exists (S n). eapply walk_edge; eauto. Qed.

Lemma reach_snoc adj a b c : reach adj a b -> In c (adj b) -> reach adj a c.
Proof. intros [n W] H. exists (S n). eapply walk_snoc; eauto. Qed.

Lemma walk_ext adj adj' n a b :
  (forall x, adj' x = adj x) -> walk adj n a b -> walk adj' n a b.
Proof.
  intros E W. induction W; econstructor; eauto. now rewrite E.
Qed.

(** A set that holds [a] and is closed under the edges holds all that [a]
    reaches. *)
Lemma reach_closed adj (S : nat -> Prop) a b :
  S a -> (forall x y, S x -> In y (adj x) -> S y) -> reach adj a b -> S b.
Proof.
  intros Ha Cl [n W]. induction W; eauto.
Qed.

(* ================================================================== *)
(** * The traversal of calculateGearSpeeds *)

Lemma propagateTo_frame (gs : list Gear) (current connected : nat) :
  Forall2 (fun g g' => sameButSpeed g g' /\ (id g <> connected -> g' = g))
          gs (propagateTo gs current connected).
Proof.
  unfold propagateTo.
  destruct (findGear current gs) as [cur |];
    [destruct (findGear connected gs) as [con |] |];
    try (apply Forall2_refl_on; intros; split;
         [apply sameButSpeed_refl | trivial]).
  unfold updateGear. apply Forall2_map_r. intros g _.
  destruct (Nat.eqb (id g) connected) eqn:E.
  - apply Nat.eqb_eq in E. split; [apply sameButSpeed_setSpeed | congruence].
  - split; [apply sameButSpeed_refl | trivial].
Qed.

Lemma speedScan_frame (current : nat) (conn : list nat) :
  forall gs visited queue gs' visited' queue',
    speedScan current conn gs visited queue = (gs', visited', queue') ->
    Forall2 (fun g g' =>
               sameButSpeed g g' /\
               (In (id g) visited \/ ~ In (id g) conn -> g' = g))
            gs gs'.
Proof.
  induction conn as [| connected rest IH]; cbn;
    intros gs visited queue gs' visited' queue' H.
  - inversion H; subst. apply Forall2_refl_on. intros.
    split; [apply sameButSpeed_refl | trivial].
  - destruct (includes visited connected) eqn:V.
    + apply IH in H. eapply Forall2_impl; [| exact H].
      cbn. intros a b [S F]. split; trivial. intro C. apply F. tauto.
    + apply includes_not_In in V. apply IH in H.
      eapply Forall2_trans; [| apply propagateTo_frame | exact H].
      cbn. intros a b c [S1 F1] [S2 F2]. split.
      * eapply sameButSpeed_trans; eauto.
      * intro C.
        assert (N : id a <> connected).
        { intro E. destruct C as [C | C].
          - apply V. now rewrite <- E.
          - apply C. left. now symmetry. }
        specialize (F1 N). subst b. apply F2.
        destruct C as [C | C]; [left; now right | right].
        intro R. apply C. now right.
Qed.

Lemma speedScan_sets (current : nat) (conn : list nat) :
  forall gs visited queue gs' visited' queue',
    speedScan current conn gs visited queue = (gs', visited', queue') ->
    (forall x, In x visited' <-> In x visited \/ In x conn) /\
    (forall x, In x queue' <-> In x queue \/ (In x conn /\ ~ In x visited)) /\
    (NoDup visited -> NoDup visited') /\
    (length queue' + length visited = length queue + length visited')%nat.
Proof.
  induction conn as [| connected rest IH]; cbn;
    intros gs visited queue gs' visited' queue' H.
  - inversion H; subst. repeat split; try tauto; intuition.
  - destruct (includes visited connected) eqn:V.
    + apply includes_In in V.
      destruct (IH _ _ _ _ _ _ H) as (Hv & Hq & Hn & Hl).
      repeat split; trivial.
      * rewrite Hv. intuition congruence.
      * rewrite Hv. intuition congruence.
      * rewrite Hq. intuition congruence.
      * rewrite Hq. intuition congruence.
    + apply includes_not_In in V.
      destruct (IH _ _ _ _ _ _ H) as (Hv & Hq & Hn & Hl).
      repeat split.
      * rewrite Hv. cbn. tauto.
      * rewrite Hv. cbn. tauto.
      * rewrite Hq, in_app_iff. cbn.
        intros [[Q | [E | []]] | [R N]]; [tauto | | tauto].
        right. split; [now left |]. now rewrite <- E.
      * rewrite Hq, in_app_iff. cbn. intros [Q | [[E | R] N]].
        -- tauto.
        -- left. right. now left.
        -- destruct (Nat.eq_dec connected x) as [D | D].
           ++ left. right. now left.
           ++ right. tauto.
      * intro ND. apply Hn. now constructor.
      * rewrite length_app in Hl. cbn in Hl. lia.
Qed.

Lemma speedLoop_frame (fuel : nat) :
  forall gs visited queue gs',
    speedLoop fuel gs visited queue = Some gs' ->
    Forall2 (fun g g' => sameButSpeed g g' /\ (In (id g) visited -> g' = g))
            gs gs'.
Proof.
  induction fuel as [| fuel IH]; cbn; intros gs visited queue gs' H;
    [discriminate |].
  destruct queue as [| current queue].
  - inversion H; subst. apply Forall2_refl_on. intros.
    split; [apply sameButSpeed_refl | trivial].
  - destruct (speedScan current (neighbours gs current) gs visited queue)
      as [[gs1 visited1] queue1] eqn:S.
    pose proof (speedScan_frame _ _ _ _ _ _ _ _ S) as F1.
    pose proof (speedScan_sets _ _ _ _ _ _ _ _ S) as (Hv & _).
    apply IH in H.
    eapply Forall2_trans; [| exact F1 | exact H].
    cbn. intros a b c [S1 G1] [S2 G2]. split.
    + eapply sameButSpeed_trans; eauto.
    + intro V. assert (b = a) by auto. subst b. apply G2.
      apply Hv. auto.
Qed.

(** The loop ends within its fuel. *)
Lemma speedLoop_total_gen (U : list nat) (fuel : nat) :
  forall gs visited queue,
    NoDup visited -> incl visited U ->
    incl (flat_map connectedTo gs) U ->
    (length queue + (length U - length visited) < fuel)%nat ->
    exists gs', speedLoop fuel gs visited queue = Some gs'.
Proof.
  induction fuel as [| fuel IH]; intros gs visited queue ND Inc T M; [lia |].
  cbn. destruct queue as [| current queue]; [eauto |].
  destruct (speedScan current (neighbours gs current) gs visited queue)
    as [[gs1 visited1] queue1] eqn:S.
  pose proof (speedScan_frame _ _ _ _ _ _ _ _ S) as F.
  pose proof (speedScan_sets _ _ _ _ _ _ _ _ S) as (Hv & _ & Hn & Hl).
  assert (L : Forall2 sameLink gs gs1).
  { eapply Forall2_impl; [| exact F]. cbn. intros a b [Sab _].
    now apply sameButSpeed_link. }
  assert (Inc1 : incl visited1 U).
  { intros x Hx. apply Hv in Hx. destruct Hx as [Hx | Hx]; auto.
    apply T. now apply (neighbours_in_targets gs current). }
  pose proof (NoDup_incl_length ND Inc) as B0.
  pose proof (NoDup_incl_length (Hn ND) Inc1) as B1.
  apply IH; auto.
  - rewrite (targets_sameLink _ _ L). exact T.
  - cbn in M. lia.
Qed.

Lemma propagateFrom_runs (driver : nat) (q : Q) (gs : list Gear) :
  let gs0 := updateGear driver (setSpeed q 1%Z) gs in
  exists gs',
    speedLoop (searchFuel gs0) gs0 [driver] [driver] = Some gs' /\
    propagateFrom driver q gs = gs'.
Proof.
  intro gs0.
  destruct (speedLoop_total_gen (driver :: flat_map connectedTo gs0)
              (searchFuel gs0) gs0 [driver] [driver]) as [gs' E].
  - constructor; [intros [] | constructor].
  - intros x [-> | []]. now left.
  - intros x Hx. now right.
  - unfold searchFuel. cbn. lia.
  - exists gs'. split; trivial. unfold propagateFrom. fold gs0. now rewrite E.
Qed.

Lemma updateGear_setSpeed_frame (driver : nat) (q : Q) (gs : list Gear) :
  Forall2 (fun g g' =>
             sameButSpeed g g' /\
             g' = if Nat.eqb (id g) driver then setSpeed q 1%Z g else g)
          gs (updateGear driver (setSpeed q 1%Z) gs).
Proof.
  unfold updateGear. apply Forall2_map_r. intros g _. split; trivial.
  destruct (Nat.eqb (id g) driver);
    [apply sameButSpeed_setSpeed | apply sameButSpeed_refl].
Qed.

(** Propagation writes speeds only, and leaves the driver as it set it. *)
Lemma propagateFrom_frame (driver : nat) (q : Q) (gs : list Gear) :
  Forall2 (fun g g' =>
             sameButSpeed g g' /\
             (id g = driver -> g' = setSpeed q 1%Z g))
          gs (propagateFrom driver q gs).
Proof.
  destruct (propagateFrom_runs driver q gs) as (gs' & L & ->).
  apply speedLoop_frame in L.
  eapply Forall2_trans; [| apply updateGear_setSpeed_frame | exact L].
  cbn. intros a b c [S1 E1] [S2 F2]. split.
  - eapply sameButSpeed_trans; eauto.
  - intro E. assert (Hb : id b = driver) by (destruct S1; congruence).
    rewrite F2 by (left; congruence).
    subst b. apply Nat.eqb_eq in E. now rewrite E.
Qed.

(* ================================================================== *)
(** * play *)





(* ================================================================== *)
(** * The driver of the propagation *)




(* ================================================================== *)
(** * What the traversal computes *)

Lemma findGear_Forall2 (R : Gear -> Gear -> Prop) (gs gs' : list Gear)
      (i : nat) :
  Forall2 (fun g g' => id g' = id g /\ R g g') gs gs' ->
  match findGear i gs, findGear i gs' with
  | Some g, Some g' => R g g'
  | None, None => True
  | _, _ => False
  end.
Proof.
  induction 1 as [| a b gs gs' [Hid Hr] H IH]; cbn; trivial.
  rewrite Hid. destruct (Nat.eqb (id a) i); trivial.
Qed.

Lemma propagateTo_find_other (gs : list Gear) (current connected i : nat) :
  i <> connected ->
  findGear i (propagateTo gs current connected) = findGear i gs.
Proof.
  intro N. unfold propagateTo.
  destruct (findGear current gs); trivial.
  destruct (findGear connected gs); trivial.
  now apply findGear_updateGear_other.
Qed.

Lemma propagateTo_find_same (gs : list Gear) (current connected : nat)
      (cur gc : Gear) :
  findGear current gs = Some cur ->
  findGear connected (propagateTo gs current connected) = Some gc ->
  rpm gc = rpm cur * (teeth (params cur) / teeth (params gc)) /\
  rotationDirection gc = (- rotationDirection cur)%Z.
Proof.
  intros C H. unfold propagateTo in H. rewrite C in H.
  destruct (findGear connected gs) as [con |] eqn:E; [| congruence].
  rewrite findGear_updateGear_same in H by reflexivity.
  rewrite E in H. cbn in H. inversion H; subst. now cbn.
Qed.

Section Traversal.

Variable driver : nat.

Lemma speedScan_parents (current : nat) (conn : list nat) :
  forall gs visited queue gs' visited' queue',
    speedScan current conn gs visited queue = (gs', visited', queue') ->
    In current visited ->
    incl conn (neighbours gs current) ->
    parentLaw driver gs visited ->
    parentLaw driver gs' visited'.
Proof.
  induction conn as [| connected rest IH]; cbn;
    intros gs visited queue gs' visited' queue' H Cur Sub P.
  - now inversion H; subst.
  - assert (Sub' : incl rest (neighbours gs current))
      by (intros x Hx; apply Sub; now right).
    destruct (includes visited connected) eqn:V; [eapply IH; eauto |].
    apply includes_not_In in V.
    assert (N : current <> connected) by congruence.
    assert (L : Forall2 sameLink gs (propagateTo gs current connected)).
    { eapply Forall2_impl; [| apply propagateTo_frame]. cbn.
      intros a b [S _]. now apply sameButSpeed_link. }
    eapply IH; [exact H | now right | |].
    + now rewrite (neighbours_sameLink _ _ current L).
    + intros c gc Hc Nd Fc. destruct Hc as [<- | Hc].
      * assert (A : In connected (neighbours gs current))
          by (apply Sub; now left).
        unfold neighbours in A.
        destruct (findGear current gs) as [cur |] eqn:Ec; [| destruct A].
        destruct (propagateTo_find_same _ _ _ _ _ Ec Fc) as [Hr Hd].
        exists current, cur. repeat split; trivial; [now right |].
        now rewrite propagateTo_find_other.
      * assert (Nc : c <> connected) by congruence.
        rewrite propagateTo_find_other in Fc by trivial.
        destruct (P c gc Hc Nd Fc) as (p & gp & Hp & Fp & R).
        exists p, gp. repeat split; try tauto; [now right |].
        rewrite propagateTo_find_other; [trivial | congruence].
Qed.

Lemma speedLoop_invariant (adj : nat -> list nat) (fuel : nat) :
  forall gs visited queue gs',
    speedLoop fuel gs visited queue = Some gs' ->
    traversalInv driver adj gs visited queue ->
    exists visited', traversalInv driver adj gs' visited' [].
Proof.
  induction fuel as [| fuel IH]; cbn; intros gs visited queue gs' H I;
    [discriminate |].
  destruct queue as [| current queue].
  - inversion H; subst. now exists visited.
  - destruct (speedScan current (neighbours gs current) gs visited queue)
      as [[gs1 visited1] queue1] eqn:S.
    destruct I as [Id Iq Ic Is Ip Ia].
    pose proof (speedScan_frame _ _ _ _ _ _ _ _ S) as F.
    pose proof (speedScan_sets _ _ _ _ _ _ _ _ S) as (Hv & Hq & _).
    assert (Cur : In current visited) by (apply Iq; now left).
    assert (L : Forall2 sameLink gs gs1).
    { eapply Forall2_impl; [| exact F]. cbn. intros a b [Sab _].
      now apply sameButSpeed_link. }
    apply (IH _ _ _ _ H). constructor.
    + apply Hv. now left.
    + intros x Hx. apply Hv. apply Hq in Hx.
      destruct Hx as [Hx | [Hx _]]; [left; apply Iq; now right | now right].
    + intros v Hv1.
      destruct (in_dec Nat.eq_dec v visited) as [Vin | Vout].
      * destruct (Ic v Vin) as [[<- | Q] | C].
        -- right. intros x Hx. apply Hv. right. now rewrite Ia.
        -- left. apply Hq. now left.
        -- right. intros x Hx. apply Hv. left. now apply C.
      * left. apply Hq. right. split; trivial.
        apply Hv in Hv1. tauto.
    + intros v Hv1. apply Hv in Hv1. destruct Hv1 as [V | V]; auto.
      apply reach_snoc with current; auto. now rewrite <- Ia.
    + eapply speedScan_parents; eauto. apply incl_refl.
    + intro i. now rewrite (neighbours_sameLink _ _ i L).
Qed.

(** A gear that nothing in the queue reaches is left as it is. *)
Lemma speedLoop_unreached (adj : nat -> list nat) (fuel : nat) :
  forall gs visited queue gs',
    speedLoop fuel gs visited queue = Some gs' ->
    (forall i, neighbours gs i = adj i) ->
    Forall2 (fun g g' =>
               (forall q, In q queue -> ~ reach adj q (id g)) -> g' = g)
            gs gs'.
Proof.
  induction fuel as [| fuel IH]; cbn; intros gs visited queue gs' H A;
    [discriminate |].
  destruct queue as [| current queue].
  - inversion H; subst. now apply Forall2_refl_on.
  - destruct (speedScan current (neighbours gs current) gs visited queue)
      as [[gs1 visited1] queue1] eqn:S.
    pose proof (speedScan_frame _ _ _ _ _ _ _ _ S) as F.
    pose proof (speedScan_sets _ _ _ _ _ _ _ _ S) as (_ & Hq & _).
    assert (L : Forall2 sameLink gs gs1).
    { eapply Forall2_impl; [| exact F]. cbn. intros a b [Sab _].
      now apply sameButSpeed_link. }
    assert (A1 : forall i, neighbours gs1 i = adj i).
    { intro i. now rewrite (neighbours_sameLink _ _ i L). }
    specialize (IH _ _ _ _ H A1).
    eapply Forall2_trans; [| exact F | exact IH].
    cbn. intros a b c [Sab Fab] Fbc U.
    assert (E : b = a).
    { apply Fab. right. intro Hin. apply (U current); [now left |].
      apply reach_edge with (id a); [| apply reach_refl].
      now rewrite <- A. }
    subst b. apply Fbc. intros q Hq1 R. apply Hq in Hq1.
    destruct Hq1 as [Q | [Q _]].
    + apply (U q); [now right | trivial].
    + apply (U current); [now left |].
      apply reach_edge with q; trivial. now rewrite <- A.
Qed.

End Traversal.

Lemma findDriver_in (gs : list Gear) (driver : Gear) :
  findDriver gs = Some driver -> In driver gs.
Proof.
  unfold findDriver. destruct (find isDriver gs) as [g |] eqn:E.
  - intro H. inversion H; subst. now apply find_some in E.
  - destruct gs; cbn; [discriminate |]. intro H. inversion H. now left.
Qed.

(** The registry after a propagation from [driver]. *)
Lemma propagateFrom_spec (driver : nat) (q : Q) (gs : list Gear) :
  let adj := neighbours gs in
  let gs' := propagateFrom driver q gs in
  Forall2 (fun g g' =>
             sameButSpeed g g' /\
             (id g = driver -> g' = setSpeed q 1%Z g) /\
             (~ reach adj driver (id g) -> g' = g)) gs gs' /\
  (forall c gc,
      reach adj driver c -> c <> driver -> findGear c gs' = Some gc ->
      exists p gp,
        reach adj driver p /\ findGear p gs' = Some gp /\
        In c (connectedTo gp) /\
        rpm gc = rpm gp * (teeth (params gp) / teeth (params gc)) /\
        rotationDirection gc = (- rotationDirection gp)%Z).
Proof.
  intros adj gs'.
  pose proof (propagateFrom_frame driver q gs) as F. fold gs' in F.
  destruct (propagateFrom_runs driver q gs) as (gs1 & Run & E).
  fold gs' in E. rewrite <- E in Run. clear E gs1.
  set (gs0 := updateGear driver (setSpeed q 1%Z) gs) in *.
  assert (L0 : Forall2 sameLink gs gs0).
  { eapply Forall2_impl; [| apply updateGear_setSpeed_frame]. cbn.
    intros a b [S _]. now apply sameButSpeed_link. }
  assert (A0 : forall i, neighbours gs0 i = adj i).
  { intro i. apply (neighbours_sameLink _ _ i L0). }
  split.
  - pose proof (speedLoop_unreached adj _ _ _ _ _ Run A0) as U.
    pose proof (updateGear_setSpeed_frame driver q gs) as F0. fold gs0 in F0.
    assert (U' : Forall2 (fun g g' => ~ reach adj driver (id g) -> g' = g)
                         gs gs').
    { eapply Forall2_trans; [| exact F0 | exact U].
      cbn. intros a b c [Sab Eb] Hc N.
      assert (D : Nat.eqb (id a) driver = false).
      { apply Nat.eqb_neq. intro D. apply N. rewrite D. apply reach_refl. }
      rewrite D in Eb. subst b. apply Hc. intros x [<- | []]. exact N. }
    eapply Forall2_impl; [| exact (Forall2_and _ _ _ _ F U')].
    cbn. tauto.
  - destruct (speedLoop_invariant driver adj _ _ _ _ _ Run)
      as (visited & I).
    + constructor.
      * now left.
      * apply incl_refl.
      * intros v [<- | []]. left. now left.
      * intros v [<- | []]. apply reach_refl.
      * intros c gc [<- | []] N. congruence.
      * exact A0.
    + destruct I as [Id _ Ic Is Ip _].
      assert (All : forall c, reach adj driver c -> In c visited).
      { intros c R. apply (reach_closed adj (fun x => In x visited) driver c);
          trivial.
        intros x y Hx Hy. destruct (Ic x Hx) as [[] | C]. now apply C. }
      intros c gc R N Fc.
      destruct (Ip c gc (All c R) N Fc) as (p & gp & Hp & Rest).
      exists p, gp. split; [now apply Is | exact Rest].
Qed.

Lemma findGear_present (gs : list Gear) (g : Gear) :
  In g gs -> exists x, findGear (id g) gs = Some x.
Proof.
  intro H. destruct (findGear (id g) gs) as [x |] eqn:E; [eauto |].
  apply findGear_None in E. exfalso. apply E. now apply in_map.
Qed.


(** C2: the propagation gives the driver the input RPM and direction +1,
    and every other gear that the driver reaches has a reached neighbour
    [p] listing it in [connectedTo] with
    [rpm = p.rpm * (p.teeth / teeth)] and the opposite direction.  For the
    chain 20/30/15 driven at 30 RPM: 30, 20 and 40 RPM, directions +1, -1,
    +1. *)
Theorem speeds_follow_the_traversal (s : Simulator) (driver : Gear) :
  findDriver (gears s) = Some driver ->
  let adj := neighbours (gears s) in
  let s' := calculateGearSpeeds s in
  (exists d',
      findGear (id driver) (gears s') = Some d' /\
      rpm d' = inputRPM s /\ rotationDirection d' = 1%Z) /\
  (forall c gc,
      reach adj (id driver) c -> c <> id driver ->
      findGear c (gears s') = Some gc ->
      exists p gp,
        reach adj (id driver) p /\ findGear p (gears s') = Some gp /\
        In c (connectedTo gp) /\
        rpm gc = rpm gp * (teeth (params gp) / teeth (params gc)) /\
        rotationDirection gc = (- rotationDirection gp)%Z) /\
  (graph (after chainScene)
   = [(1, [2]); (2, [3; 1]); (3, [2])]%nat /\
   inputRPM (after chainScene) = 30 /\
   speeds (fst (play (after chainScene)))
   = [(1%nat, 30, 1%Z); (2%nat, 20, (-1)%Z); (3%nat, 40, 1%Z)]).
Proof.
  intros D adj s'.
  assert (G : gears s' = propagateFrom (id driver) (inputRPM s) (gears s)).
  { unfold s', calculateGearSpeeds. now rewrite D. }
  destruct (propagateFrom_spec (id driver) (inputRPM s) (gears s))
    as [F P].
  rewrite <- G in F, P.
  split; [| split].
  - destruct (findGear_present _ _ (findDriver_in _ _ D)) as [x Ex].
    assert (F' : Forall2 (fun g g' =>
                   id g' = id g /\
                   (id g = id driver -> g' = setSpeed (inputRPM s) 1%Z g))
                   (gears s) (gears s')).
    { eapply Forall2_impl; [| exact F]. cbn. intros a b (S & E & _).
      split; [apply S | exact E]. }
    pose proof (findGear_Forall2 _ _ _ (id driver) F') as R.
    rewrite Ex in R. destruct (findGear (id driver) (gears s')) as [d' |];
      [| contradiction].
    exists d'. split; trivial.
    apply findGear_Some in Ex. rewrite (R (proj2 Ex)). now cbn.
  - exact P.
  - repeat split; vm_compute; reflexivity.
Qed.

Lemma speeds_follow_the_traversal_witness :
  exists d',
    findGear 1 (gears (calculateGearSpeeds (after chainScene))) = Some d' /\
    rpm d' = 30 /\ rotationDirection d' = 1%Z.
Proof.
  refine (proj1 (speeds_follow_the_traversal (after chainScene)
                   (mkGear 1 (at2 0 0) (mkGearParams 20 2 20 5 5 (20 * 2))
                           0 1 [2%nat] true None false false) _)).
  vm_compute. reflexivity.
Defined.




(* ================================================================== *)
(** * The search of wouldCauseJamming *)

Lemma jamScan_found (gear2 depth : nat) (conn : list nat) :
  forall visited queue n,
    jamScan gear2 depth conn visited queue = inl n ->
    n = (depth + 2)%nat /\ In gear2 conn.
Proof.
  induction conn as [| connected rest IH]; cbn; intros visited queue n H;
    [discriminate |].
  destruct (Nat.eqb connected gear2) eqn:E.
  - apply Nat.eqb_eq in E. inversion H. auto.
  - destruct (includes visited connected); apply IH in H; tauto.
Qed.

Lemma jamScan_continue (gear2 depth : nat) (conn : list nat) :
  forall visited queue visited' queue',
    jamScan gear2 depth conn visited queue = inr (visited', queue') ->
    ~ In gear2 conn /\
    exists news,
      queue' = queue ++ map (fun c => (c, S depth)) news /\
      (forall x, In x visited' <-> In x visited \/ In x news) /\
      (forall c, In c news <-> In c conn /\ ~ In c visited) /\
      (NoDup visited -> NoDup visited') /\
      length visited' = (length news + length visited)%nat.
Proof.
  induction conn as [| connected rest IH]; cbn;
    intros visited queue visited' queue' H.
  - inversion H; subst. split; [tauto |]. exists [].
    cbn. rewrite app_nil_r. repeat split; tauto.
  - destruct (Nat.eqb connected gear2) eqn:E; [discriminate |].
    apply Nat.eqb_neq in E.
    destruct (includes visited connected) eqn:V.
    + apply includes_In in V.
      destruct (IH _ _ _ _ H) as (N & news & Hq & Hv & Hn & Hd & Hl).
      split; [intros [? | ?]; [congruence | tauto] |]. exists news.
      split; [exact Hq |]. split; [exact Hv |]. split; [| now split].
      intro c. rewrite Hn. split; [tauto |].
      intros [[<- | R] NV]; tauto.
    + apply includes_not_In in V.
      destruct (IH _ _ _ _ H) as (N & news & Hq & Hv & Hn & Hd & Hl).
      split; [intros [? | ?]; [congruence | tauto] |].
      exists (connected :: news).
      split; [rewrite Hq, <- app_assoc; reflexivity |].
      split; [intro x; rewrite Hv; cbn; tauto |].
      split; [| split].
      * intro c. cbn. rewrite Hn. cbn. split.
        -- intros [<- | [R NV]]; tauto.
        -- intros [[<- | R] NV]; [tauto |].
           destruct (Nat.eq_dec connected c); tauto.
      * intro ND. apply Hd. now constructor.
      * rewrite Hl. cbn. lia.
Qed.

(** The search ends within its fuel. *)
Lemma jamLoop_total_gen (gs : list Gear) (gear2 : nat) (U : list nat)
      (fuel : nat) :
  forall visited queue,
    NoDup visited -> incl visited U ->
    incl (flat_map connectedTo gs) U ->
    (length queue + (length U - length visited) < fuel)%nat ->
    exists r, jamLoop fuel gs gear2 visited queue = Some r.
Proof.
  induction fuel as [| fuel IH]; intros visited queue ND Inc T M; [lia |].
  cbn. destruct queue as [| [gear depth] queue]; [eauto |].
  destruct (jamScan gear2 depth (neighbours gs gear) visited queue)
    as [n | [visited1 queue1]] eqn:S; [eauto |].
  destruct (jamScan_continue _ _ _ _ _ _ _ S)
    as (_ & news & Hq & Hv & Hn & Hd & Hl).
  assert (Inc1 : incl visited1 U).
  { intros x Hx. apply Hv in Hx. destruct Hx as [Hx | Hx]; auto.
    apply T. apply (neighbours_in_targets gs gear). now apply Hn. }
  pose proof (NoDup_incl_length ND Inc) as B0.
  pose proof (NoDup_incl_length (Hd ND) Inc1) as B1.
  apply IH; auto.
  subst queue1. rewrite length_app, length_map. cbn in M. lia.
Qed.

Lemma jamLoop_total (gs : list Gear) (gear1 gear2 : nat) :
  exists r,
    jamLoop (searchFuel gs) gs gear2 [gear1] [(gear1, O)] = Some r /\
    closingCycle gs gear1 gear2 = r.
Proof.
  destruct (jamLoop_total_gen gs gear2 (gear1 :: flat_map connectedTo gs)
              (searchFuel gs) [gear1] [(gear1, O)]) as [r E].
  - constructor; [intros [] | constructor].
  - intros x [-> | []]. now left.
  - intros x Hx. now right.
  - unfold searchFuel. cbn. lia.
  - exists r. split; trivial. unfold closingCycle. now rewrite E.
Qed.

(** Entries of one depth, pushed behind a queue that holds nothing
    deeper, keep it sorted. *)
Lemma sorted_push (k : nat) (news : list nat) (queue : list (nat * nat)) :
  StronglySorted byDepth queue ->
  (forall v dv, In (v, dv) queue -> (dv <= k)%nat) ->
  StronglySorted byDepth (queue ++ map (fun c => (c, k)) news).
Proof.
  induction queue as [| [v dv] queue IH]; cbn; intros S B.
  - induction news as [| c news IHn]; cbn; constructor; trivial.
    apply Forall_forall. intros [w dw] Hin. apply in_map_iff in Hin.
    destruct Hin as (x & E & _). inversion E; subst.
    unfold byDepth. cbn. lia.
  - apply StronglySorted_inv in S. destruct S as [S F]. constructor.
    + apply IH; trivial. intros w dw Hin. apply (B w dw). now right.
    + apply Forall_forall. intros [w dw] Hin. apply in_app_iff in Hin.
      destruct Hin as [Hin | Hin].
      * rewrite Forall_forall in F. apply (F _ Hin).
      * apply in_map_iff in Hin. destruct Hin as (x & E & _).
        inversion E; subst. unfold byDepth. cbn. apply (B v dv). now left.
Qed.

Section Search.

Variable adj : nat -> list nat.
Variables gear1 gear2 : nat.

(** Whatever is at most as far from [gear1] as everything in the queue
    has been visited. *)
Lemma search_coverage (visited : list nat) (queue : list (nat * nat)) :
  searchInv adj gear1 gear2 visited queue ->
  forall m b,
    walk adj m gear1 b ->
    (forall v dv, In (v, dv) queue -> (m <= dv)%nat) ->
    In b visited.
Proof.
  intros I. induction m as [| m IH]; intros b W Low.
  - inversion W; subst. apply (si_start _ _ _ _ _ I).
  - destruct (walk_last _ _ _ _ W) as (a & Wa & Hb).
    assert (Va : In a visited).
    { apply IH; trivial. intros v dv Hv. apply Low in Hv. lia. }
    assert (Na : ~ In a (map fst queue)).
    { intro Hin. apply in_map_iff in Hin.
      destruct Hin as ([a' da] & Ea & Hin). cbn in Ea. subst a'.
      pose proof (si_least _ _ _ _ _ I _ _ Hin _ Wa).
      pose proof (Low _ _ Hin). lia. }
    destruct (si_done _ _ _ _ _ I a Va Na) as [_ C]. now apply C.
Qed.

Lemma search_head_least (visited : list nat) (u d : nat)
      (queue : list (nat * nat)) :
  searchInv adj gear1 gear2 visited ((u, d) :: queue) ->
  forall v dv, In (v, dv) ((u, d) :: queue) -> (d <= dv)%nat.
Proof.
  intros I v dv [E | Hin].
  - inversion E. lia.
  - pose proof (si_sorted _ _ _ _ _ I) as S.
    apply StronglySorted_inv in S. destruct S as [_ F].
    rewrite Forall_forall in F. apply (F _ Hin).
Qed.

(** What is nearer to [gear1] than the head of the queue has been taken
    off the queue, and does not have [gear2] as a neighbour. *)
Lemma search_nearer_done (visited : list nat) (u d : nat)
      (queue : list (nat * nat)) :
  searchInv adj gear1 gear2 visited ((u, d) :: queue) ->
  forall m, (m < d)%nat -> ~ walk adj (S m) gear1 gear2.
Proof.
  intros I m Lt W.
  destruct (walk_last _ _ _ _ W) as (a & Wa & Hb).
  pose proof (search_head_least _ _ _ _ I) as Least.
  assert (Va : In a visited).
  { apply (search_coverage _ _ I m a Wa).
    intros v dv Hv. apply Least in Hv. lia. }
  assert (Na : ~ In a (map fst ((u, d) :: queue))).
  { intro Hin. apply in_map_iff in Hin.
    destruct Hin as ([a' da] & Ea & Hin). cbn in Ea. subst a'.
    pose proof (si_least _ _ _ _ _ I _ _ Hin _ Wa).
    pose proof (Least _ _ Hin). lia. }
  destruct (si_done _ _ _ _ _ I a Va Na) as [C _]. now apply C.
Qed.

Lemma search_step (visited visited' : list nat) (u d : nat)
      (queue : list (nat * nat)) (news : list nat) :
  searchInv adj gear1 gear2 visited ((u, d) :: queue) ->
  ~ In gear2 (adj u) ->
  (forall x, In x visited' <-> In x visited \/ In x news) ->
  (forall c, In c news <-> In c (adj u) /\ ~ In c visited) ->
  searchInv adj gear1 gear2 visited' (queue ++ map (fun c => (c, S d)) news).
Proof.
  intros I NF Hv Hn.
  pose proof (search_head_least _ _ _ _ I) as Least.
  assert (Band : forall v dv, In (v, dv) queue -> (d <= dv <= S d)%nat).
  { intros v dv Hin. split.
    - apply (Least v dv). now right.
    - apply (si_band _ _ _ _ _ I u d queue eq_refl v dv). now right. }
  assert (New : forall v dv,
             In (v, dv) (map (fun c => (c, S d)) news) ->
             dv = S d /\ In v news).
  { intros v dv Hin. apply in_map_iff in Hin.
    destruct Hin as (c & E & Hc). inversion E; subst. auto. }
  constructor.
  - apply Hv. left. apply (si_start _ _ _ _ _ I).
  - pose proof (si_sorted _ _ _ _ _ I) as Srt.
    apply StronglySorted_inv in Srt. destruct Srt as [Srt _].
    apply sorted_push; trivial.
    intros v dv Hin. apply (proj2 (Band v dv Hin)).
  - intros u' d' rest E v dv Hin.
    assert (Hd' : (d <= d')%nat).
    { assert (Hh : In (u', d') (queue ++ map (fun c => (c, S d)) news))
        by (rewrite E; now left).
      apply in_app_iff in Hh. destruct Hh as [Hh | Hh].
      - apply (Band _ _ Hh).
      - destruct (New _ _ Hh) as [-> _]. lia. }
    apply in_app_iff in Hin. destruct Hin as [Hin | Hin].
    + pose proof (Band _ _ Hin). lia.
    + destruct (New _ _ Hin) as [-> _]. lia.
  - intros v dv Hin. apply in_app_iff in Hin. destruct Hin as [Hin | Hin].
    + destruct (si_walk _ _ _ _ _ I v dv) as [W V]; [now right |].
      split; trivial. apply Hv. now left.
    + destruct (New _ _ Hin) as [-> Hc]. split.
      * apply walk_snoc with u; [| now apply Hn].
        apply (si_walk _ _ _ _ _ I u d). now left.
      * apply Hv. now right.
  - intros v dv Hin m W. apply in_app_iff in Hin.
    destruct Hin as [Hin | Hin].
    + apply (si_least _ _ _ _ _ I v dv); [now right | trivial].
    + destruct (New _ _ Hin) as [-> Hc].
      destruct (le_lt_dec (S d) m) as [L | L]; trivial.
      exfalso. apply Hn in Hc. destruct Hc as [_ NV]. apply NV.
      apply (search_coverage _ _ I m v W).
      intros w dw Hw. apply Least in Hw. lia.
  - intros b Vb Nb.
    assert (Nq : ~ In b (map fst queue)).
    { intro Hin. apply Nb. rewrite map_app. apply in_app_iff. now left. }
    assert (Nn : ~ In b news).
    { intro Hin. apply Nb. rewrite map_app, map_map. cbn.
      apply in_app_iff. right. now rewrite map_id. }
    assert (Vb0 : In b visited) by (apply Hv in Vb; tauto).
    destruct (Nat.eq_dec b u) as [-> | D].
    + split; trivial. intros c Hc. apply Hv.
      destruct (in_dec Nat.eq_dec c visited) as [Y | N]; [now left |].
      right. now apply Hn.
    + destruct (si_done _ _ _ _ _ I b Vb0) as [C1 C2].
      * cbn. intros [E | Hin]; [congruence | contradiction].
      * split; trivial. intros c Hc. apply Hv. left. now apply C2.
Qed.

End Search.

Lemma pathLength_unique adj a b k k' :
  pathLength adj a b k -> pathLength adj a b k' -> k = k'.
Proof.
  intros (P1 & W1 & L1) (P2 & W2 & L2).
  pose proof (L1 _ P2 W2). pose proof (L2 _ P1 W1). lia.
Qed.

Lemma jamLoop_spec (gs : list Gear) (gear1 gear2 : nat) (fuel : nat) :
  forall visited queue r,
    jamLoop fuel gs gear2 visited queue = Some r ->
    searchInv (neighbours gs) gear1 gear2 visited queue ->
    match r with
    | Some n =>
        exists k, n = S k /\ pathLength (neighbours gs) gear1 gear2 k
    | None => forall m, ~ walk (neighbours gs) (S m) gear1 gear2
    end.
Proof.
  induction fuel as [| fuel IH]; cbn; intros visited queue r H I;
    [discriminate |].
  destruct queue as [| [u d] queue].
  - inversion H; subst. intros m W.
    destruct (walk_last _ _ _ _ W) as (a & Wa & Hb).
    assert (Va : In a visited).
    { apply (search_coverage _ _ _ _ _ I m a Wa). intros v dv []. }
    destruct (si_done _ _ _ _ _ I a Va) as [C _]; [intros [] |].
    now apply C.
  - destruct (jamScan gear2 d (neighbours gs u) visited queue)
      as [n | [visited1 queue1]] eqn:S.
    + inversion H; subst. apply jamScan_found in S. destruct S as [-> F].
      exists (S d). split; [lia |]. split; [lia |]. split.
      * apply walk_snoc with u; trivial.
        apply (si_walk _ _ _ _ _ I u d). now left.
      * intros m Pm W. destruct m as [| m]; [lia |].
        destruct (le_lt_dec d m) as [L | L]; [lia |].
        exfalso. apply (search_nearer_done _ _ _ _ _ _ _ I m L W).
    + destruct (jamScan_continue _ _ _ _ _ _ _ S)
        as (NF & news & -> & Hv & Hn & _).
      apply (IH _ _ _ H).
      eapply search_step; eauto.
Qed.

Lemma search_starts (adj : nat -> list nat) (gear1 gear2 : nat) :
  searchInv adj gear1 gear2 [gear1] [(gear1, O)].
Proof.
  constructor.
  - now left.
  - repeat constructor.
  - intros u d rest E v dv [H | []]. inversion E; inversion H; subst. lia.
  - intros v dv [H | []]. inversion H; subst.
    split; [constructor | now left].
  - intros v dv [H | []] m _. inversion H. lia.
  - intros b [<- | []] N. exfalso. apply N. now left.
Qed.

(** The search returns the length of the shortest cycle that the new edge
    would close, and nothing when no path joins the two gears. *)
Lemma closingCycle_spec (gs : list Gear) (gear1 gear2 : nat) :
  match closingCycle gs gear1 gear2 with
  | Some n => exists k, n = S k /\ pathLength (neighbours gs) gear1 gear2 k
  | None => forall m, ~ walk (neighbours gs) (S m) gear1 gear2
  end.
Proof.
  destruct (jamLoop_total gs gear1 gear2) as (r & Run & ->).
  apply (jamLoop_spec gs gear1 gear2 _ _ _ _ Run).
  apply search_starts.
Qed.

Lemma wouldCauseJamming_spec (gs : list Gear) (gear1 gear2 : nat) :
  wouldCauseJamming gs gear1 gear2 = true <->
  exists k, pathLength (neighbours gs) gear1 gear2 k /\
            Nat.odd (S k) = true.
Proof.
  pose proof (closingCycle_spec gs gear1 gear2) as C.
  assert (Core :
            match closingCycle gs gear1 gear2 with
            | Some cycleLength => Nat.odd cycleLength
            | None => false
            end = true <->
            exists k, pathLength (neighbours gs) gear1 gear2 k /\
                      Nat.odd (S k) = true).
  { destruct (closingCycle gs gear1 gear2) as [n |].
    - destruct C as (k & -> & P). split.
      + intro O. now exists k.
      + intros (k' & P' & O). now rewrite (pathLength_unique _ _ _ _ _ P P').
    - split; [discriminate |]. intros (k & (Pos & W & _) & _).
      destruct k as [| k]; [lia |]. now apply C in W. }
  unfold wouldCauseJamming.
  destruct (neighbours gs gear1) as [| x l] eqn:N1; [| exact Core].
  destruct (neighbours gs gear2) as [| y l'] eqn:N2; [| exact Core].
  split; [discriminate |]. intros (k & (Pos & W & _) & _).
  inversion W; subst; [lia |]. rewrite N1 in *. contradiction.
Qed.

(** ** connectGears *)

Lemma pushIfAbsent_id (j : nat) (g : Gear) : id (pushIfAbsent j g) = id g.
Proof. unfold pushIfAbsent. now destruct (includes (connectedTo g) j). Qed.

Lemma pushIfAbsent_adds (j : nat) (g : Gear) :
  In j (connectedTo (pushIfAbsent j g)).
Proof.
  unfold pushIfAbsent. destruct (includes (connectedTo g) j) eqn:E.
  - now apply includes_In.
  - cbn. apply in_app_iff. right. now left.
Qed.

Lemma pushIfAbsent_keeps (i j : nat) (g : Gear) :
  In j (connectedTo g) -> In j (connectedTo (pushIfAbsent i g)).
Proof.
  intro H. unfold pushIfAbsent. destruct (includes (connectedTo g) i); trivial.
  cbn. apply in_app_iff. now left.
Qed.

Lemma pushIfAbsent_only (i j : nat) (g : Gear) :
  In j (connectedTo (pushIfAbsent i g)) -> j = i \/ In j (connectedTo g).
Proof.
  unfold pushIfAbsent. destruct (includes (connectedTo g) i); [tauto |].
  cbn. rewrite in_app_iff. cbn. intuition.
Qed.

Lemma connectGears_links (gs : list Gear) (i j : nat) :
  In i (map id gs) -> In j (map id gs) ->
  In j (neighbours (connectGears gs i j) i) /\
  In i (neighbours (connectGears gs i j) j).
Proof.
  intros Hi Hj. unfold connectGears, neighbours.
  destruct (findGear i gs) as [a |] eqn:Ea;
    [| apply findGear_None in Ea; contradiction].
  destruct (findGear j gs) as [b |] eqn:Eb;
    [| apply findGear_None in Eb; contradiction].
  split.
  - destruct (Nat.eq_dec i j) as [<- | N].
    + rewrite !findGear_updateGear_same, Ea by apply pushIfAbsent_id. cbn.
      apply pushIfAbsent_adds.
    + rewrite findGear_updateGear_other by (trivial || apply pushIfAbsent_id).
      rewrite findGear_updateGear_same, Ea by apply pushIfAbsent_id. cbn.
      apply pushIfAbsent_adds.
  - rewrite findGear_updateGear_same by apply pushIfAbsent_id.
    destruct (Nat.eq_dec j i) as [-> | N].
    + rewrite findGear_updateGear_same, Ea by apply pushIfAbsent_id. cbn.
      apply pushIfAbsent_adds.
    + rewrite findGear_updateGear_other, Eb
        by (trivial || apply pushIfAbsent_id).
      cbn. apply pushIfAbsent_adds.
Qed.

(* ================================================================== *)
(** * Jamming *)

Section JammingRule.

Variable distanceTo : Vec3 -> Vec3 -> Q.

Lemma compatibleRef_present (gs : list Gear) (i j : nat) :
  compatibleRef gs i j = true -> In i (map id gs) /\ In j (map id gs).
Proof.
  unfold compatibleRef. intro H.
  destruct (findGear i gs) as [a |] eqn:Ea; [| discriminate].
  destruct (findGear j gs) as [b |] eqn:Eb; [| discriminate].
  apply findGear_Some in Ea, Eb. destruct Ea as [Ha <-], Eb as [Hb <-].
  split; now apply in_map.
Qed.

(** C1, as amended: for two module-compatible gears that the rebuild
    takes as a candidate pair and that do not overlap, the connection is
    refused as jamming exactly when a path joins them in the graph built
    so far and the cycle the new edge would close (the edges of the
    shortest path, which the search finds, plus one) has odd length; when
    that length is even, and when no path joins them, the edge is added
    on both gears.  Three equal gears in a triangle: the third edge is
    refused and flagged; four in a square: the fourth edge is made. *)
Theorem jamming_iff_odd_cycle (gs : list Gear)
        (jamming : option (nat * nat)) (c : Candidate) :
  overlapRef distanceTo gs (gear1 c) (gear2 c) = false ->
  compatibleRef gs (gear1 c) (gear2 c) = true ->
  let adj := neighbours gs in
  let oddCycle :=
    exists k, pathLength adj (gear1 c) (gear2 c) k /\
              Nat.odd (S k) = true in
  let connected (st : list Gear * option (nat * nat)) :=
    st = (connectGears gs (gear1 c) (gear2 c), jamming) /\
    In (gear2 c) (neighbours (fst st) (gear1 c)) /\
    In (gear1 c) (neighbours (fst st) (gear2 c)) in
  let st := connectStep distanceTo (gs, jamming) c in
  (wouldCauseJamming gs (gear1 c) (gear2 c) = true <-> oddCycle) /\
  (oddCycle ->
   st = (gs, match jamming with
             | None => Some (gear1 c, gear2 c)
             | Some _ => jamming
             end)) /\
  (forall k, pathLength adj (gear1 c) (gear2 c) k ->
             Nat.even (S k) = true -> connected st) /\
  (~ oddCycle -> connected st) /\
  (graph (after triangleScene)
   = [(1, [2]); (2, [1; 3]); (3, [2])]%nat /\
   errors (after triangleScene)
   = [(1%nat, NoError); (2%nat, NoError); (3%nat, Jamming 1)] /\
   wouldCauseJamming (gears (after triangleScene)) 1 3 = true) /\
  (graph (after squareScene)
   = [(1, [2; 4]); (2, [1; 3]); (3, [2; 4]); (4, [1; 3])]%nat /\
   errors (after squareScene)
   = [(1%nat, NoError); (2%nat, NoError); (3%nat, NoError);
      (4%nat, NoError)]).
Proof.
  intros Ov Co adj oddCycle connected st.
  pose proof (wouldCauseJamming_spec gs (gear1 c) (gear2 c)) as J.
  fold adj in J. fold oddCycle in J.
  assert (Yes : oddCycle ->
                st = (gs, match jamming with
                          | None => Some (gear1 c, gear2 c)
                          | Some _ => jamming
                          end)).
  { intro O. apply J in O. unfold st, connectStep.
    now rewrite Ov, Co, O. }
  assert (No : ~ oddCycle -> connected st).
  { intro O.
    assert (F : wouldCauseJamming gs (gear1 c) (gear2 c) = false).
    { destruct (wouldCauseJamming gs (gear1 c) (gear2 c)); trivial.
      exfalso. apply O. now apply J. }
    assert (E : st = (connectGears gs (gear1 c) (gear2 c), jamming)).
    { unfold st, connectStep. now rewrite Ov, Co, F. }
    destruct (compatibleRef_present _ _ _ Co) as [P1 P2].
    unfold connected. rewrite E. cbn. split; trivial.
    now apply connectGears_links. }
  split; [exact J |]. split; [exact Yes |]. split; [| split; [exact No |]].
  - intros k P Ev. apply No. intros (k' & P' & Od).
    rewrite (pathLength_unique _ _ _ _ _ P P') in Ev.
    rewrite <- Nat.negb_odd, Od in Ev. discriminate.
  - split; repeat split; vm_compute; reflexivity.
Qed.

End JammingRule.

(** The third side of the triangle, when the other two are connected. *)
Lemma jamming_iff_odd_cycle_witness :
  let gs := gears (after triangleScene) in
  wouldCauseJamming gs 1 3 = true <->
  exists k, pathLength (neighbours gs) 1 3 k /\ Nat.odd (S k) = true.
Proof.
  refine (proj1 (jamming_iff_odd_cycle euclid (gears (after triangleScene))
                   None (mkCandidate 1 3 66) _ _));
    vm_compute; reflexivity.
Defined.

(** A compatible pair within the mesh threshold, joined by a path of two
    edges, is not refused as jamming when it overlaps: the step that takes
    the pair neither records a jamming pair nor connects it, and the rebuild
    shows an overlap. *)
Lemma overlapping_pair_is_not_refused_as_jamming :
  let gs := gears (after overlapScene) in
  graph (after overlapScene) = [(1, [2]); (2, [1; 3]); (3, [2])]%nat /\
  compatibleRef gs 1 3 = true /\
  In (mkCandidate 1 3 24) (potentialConnections euclid gs) /\
  (exists k, pathLength (neighbours gs) 1 3 k /\ Nat.odd (S k) = true) /\
  overlapRef euclid gs 1 3 = true /\
  connectStep euclid (gs, None) (mkCandidate 1 3 24) = (gs, None) /\
  errors (after overlapScene)
  = [(1%nat, NoError); (2%nat, NoError); (3%nat, Overlapping 1)] /\
  forall g, In g gs -> jammingError g = false.
Proof.
  cbv zeta.
  split; [vm_compute; reflexivity |].
  split; [vm_compute; reflexivity |].
  split; [vm_compute; right; left; reflexivity |].
  split; [apply wouldCauseJamming_spec; vm_compute; reflexivity |].
  split; [vm_compute; reflexivity |].
  split; [vm_compute; reflexivity |].
  split; [vm_compute; reflexivity |].
  intros g H. vm_compute in H.
  destruct H as [<- | [<- | [<- | []]]]; reflexivity.
Qed.

(* ================================================================== *)
(** * What the rebuild reads and what it writes *)

Lemma gear_ext (g g' : Gear) :
  sameRest g g' -> connectedTo g' = connectedTo g -> sameErrors g g' ->
  g' = g.
Proof.
  destruct g, g'. unfold sameRest, sameGeo, sameErrors. cbn.
  intros ((-> & -> & ->) & -> & -> & ->) -> (-> & -> & ->). reflexivity.
Qed.

Lemma sameRest_refl g : sameRest g g.
Proof. unfold sameRest, sameGeo. tauto. Qed.

Lemma sameRest_trans a b c : sameRest a b -> sameRest b c -> sameRest a c.
Proof. unfold sameRest, sameGeo. intuition congruence. Qed.

Lemma sameErrors_refl g : sameErrors g g.
Proof. unfold sameErrors. tauto. Qed.

Lemma sameErrors_trans a b c :
  sameErrors a b -> sameErrors b c -> sameErrors a c.
Proof. unfold sameErrors. intuition congruence. Qed.

Lemma sameGeo_refl g : sameGeo g g.
Proof. unfold sameGeo. tauto. Qed.

Lemma sameGeo_trans a b c : sameGeo a b -> sameGeo b c -> sameGeo a c.
Proof. unfold sameGeo. intuition congruence. Qed.

Lemma sameGeo_sym a b : sameGeo a b -> sameGeo b a.
Proof. unfold sameGeo. intuition congruence. Qed.

Lemma Forall2_sym {A} (R : A -> A -> Prop) (l l' : list A) :
  (forall a b, R a b -> R b a) -> Forall2 R l l' -> Forall2 R l' l.
Proof. intros S H. induction H; constructor; auto. Qed.

Lemma Forall2_app_both {A} (R : A -> A -> Prop) (l1 l1' l2 l2' : list A) :
  Forall2 R l1 l1' -> Forall2 R l2 l2' -> Forall2 R (l1 ++ l2) (l1' ++ l2').
Proof. intros H1 H2. induction H1; cbn; trivial. now constructor. Qed.

Lemma Forall2_map_both {A B} (R : A -> A -> Prop) (T : B -> B -> Prop)
      (h h' : A -> B) (l l' : list A) :
  (forall a b, R a b -> T (h a) (h' b)) ->
  Forall2 R l l' -> Forall2 T (map h l) (map h' l').
Proof. intros C H. induction H; cbn; constructor; auto. Qed.

Lemma Forall2_ids (R : Gear -> Gear -> Prop) (gs gs' : list Gear) :
  (forall a b, R a b -> id b = id a) ->
  Forall2 R gs gs' -> map id gs' = map id gs.
Proof. intros C H. induction H; cbn; f_equal; auto. Qed.

Lemma updateGear_Forall2 (R : Gear -> Gear -> Prop) (f : Gear -> Gear)
      (i : nat) (gs gs' : list Gear) :
  (forall a b, R a b -> id b = id a) ->
  (forall a b, R a b -> R (f a) (f b)) ->
  Forall2 R gs gs' -> Forall2 R (updateGear i f gs) (updateGear i f gs').
Proof.
  intros Cid Cf H. unfold updateGear.
  eapply Forall2_map_both; [| exact H]. cbn. intros a b Rab.
  rewrite (Cid _ _ Rab). destruct (Nat.eqb (id a) i); auto.
Qed.

(** ** Pairs *)

Lemma pairs_Forall2 (R : Gear -> Gear -> Prop) (gs gs' : list Gear) :
  Forall2 R gs gs' -> Forall2 (pairRel R) (pairs gs) (pairs gs').
Proof.
  induction 1 as [| a b gs gs' Rab H IH]; cbn; [constructor |].
  apply Forall2_app_both; trivial.
  eapply Forall2_map_both; [| exact H]. intros x y Rxy. now split.
Qed.

Lemma pairs_In {A} (l : list A) (x y : A) :
  In (x, y) (pairs l) -> In x l /\ In y l.
Proof.
  induction l as [| a l IH]; cbn; [contradiction |].
  rewrite in_app_iff, in_map_iff. intros [(z & E & Hz) | H].
  - inversion E; subst. auto.
  - apply IH in H. tauto.
Qed.

(** Two gears of a registry make a pair, one way round or the other. *)
Lemma pairs_cover {A} (l : list A) (x y : A) :
  In x l -> In y l -> x = y \/ In (x, y) (pairs l) \/ In (y, x) (pairs l).
Proof.
  induction l as [| a l IH]; cbn; [contradiction |].
  intros [-> | Hx] [-> | Hy].
  - now left.
  - right. left. apply in_app_iff. left. now apply in_map.
  - right. right. apply in_app_iff. left. now apply in_map.
  - destruct (IH Hx Hy) as [E | [P | P]]; [now left | |];
      right; [left | right]; apply in_app_iff; now right.
Qed.

(** ** The graph construction reads the graph only through [neighbours] *)

Lemma jamLoop_ext (gs gs' : list Gear) (gear2 : nat) (fuel : nat) :
  (forall i, neighbours gs' i = neighbours gs i) ->
  forall visited queue,
    jamLoop fuel gs' gear2 visited queue = jamLoop fuel gs gear2 visited queue.
Proof.
  intro E. induction fuel as [| fuel IH]; cbn; intros visited queue; trivial.
  destruct queue as [| [gear depth] queue]; trivial.
  rewrite E.
  destruct (jamScan gear2 depth (neighbours gs gear) visited queue)
    as [n | [v q]]; trivial.
Qed.

Lemma wouldCauseJamming_sameLink (gs gs' : list Gear) (i j : nat) :
  Forall2 sameLink gs gs' ->
  wouldCauseJamming gs' i j = wouldCauseJamming gs i j.
Proof.
  intro L. unfold wouldCauseJamming, closingCycle, searchFuel.
  rewrite !(neighbours_sameLink _ _ _ L), (targets_sameLink _ _ L).
  rewrite (jamLoop_ext gs gs'); trivial.
  intro k. now apply neighbours_sameLink.
Qed.

Lemma sameCore_link g g' : sameCore g g' -> sameLink g g'.
Proof. unfold sameCore, sameGeo, sameLink. tauto. Qed.

Lemma sameCore_geo g g' : sameCore g g' -> sameGeo g g'.
Proof. unfold sameCore. tauto. Qed.

Lemma sameCore_refl g : sameCore g g.
Proof. unfold sameCore, sameGeo. tauto. Qed.

Lemma sameCore_pushIfAbsent (j : nat) (a b : Gear) :
  sameCore a b -> sameCore (pushIfAbsent j a) (pushIfAbsent j b).
Proof.
  intros [G C]. unfold pushIfAbsent. rewrite C.
  destruct (includes (connectedTo a) j); [now split |].
  split; [exact G | reflexivity].
Qed.

Lemma connectGears_sameCore (gs gs' : list Gear) (i j : nat) :
  Forall2 sameCore gs gs' ->
  Forall2 sameCore (connectGears gs i j) (connectGears gs' i j).
Proof.
  intro H. unfold connectGears.
  apply updateGear_Forall2;
    [intros a b S; apply S | apply sameCore_pushIfAbsent |].
  apply updateGear_Forall2;
    [intros a b S; apply S | apply sameCore_pushIfAbsent | exact H].
Qed.

(** [connectGears] writes [connectedTo] only. *)
Lemma connectGears_frame (gs : list Gear) (i j : nat) :
  Forall2 (fun g g' => sameRest g g' /\ sameErrors g g')
          gs (connectGears gs i j).
Proof.
  assert (P : forall k g, sameRest g (pushIfAbsent k g) /\
                          sameErrors g (pushIfAbsent k g)).
  { intros k g. unfold pushIfAbsent.
    destruct (includes (connectedTo g) k);
      unfold sameRest, sameGeo, sameErrors; cbn; tauto. }
  assert (U : forall k m l,
             Forall2 (fun g g' => sameRest g g' /\ sameErrors g g')
                     l (updateGear k (pushIfAbsent m) l)).
  { intros k m l. unfold updateGear. apply Forall2_map_r. intros g _.
    destruct (Nat.eqb (id g) k); [apply P |].
    split; [apply sameRest_refl | apply sameErrors_refl]. }
  unfold connectGears.
  eapply Forall2_trans; [| apply (U i j gs) | apply U].
  cbn. intros a b c [R1 E1] [R2 E2].
  split; [eapply sameRest_trans | eapply sameErrors_trans]; eauto.
Qed.

(** ** The error fields *)

Lemma noFlags_ok g : noFlags g -> okFlags g.
Proof. intros H _. exact H. Qed.

Lemma clearIncompatibleState_ok g :
  okFlags g -> okFlags (clearIncompatibleState g).
Proof.
  intro O. unfold clearIncompatibleState.
  destruct (incompatibleWith g) eqn:E; trivial.
  intros _. now split.
Qed.

Lemma clearIncompatibleState_frame g :
  sameRest g (clearIncompatibleState g) /\
  connectedTo (clearIncompatibleState g) = connectedTo g.
Proof.
  unfold clearIncompatibleState.
  destruct (incompatibleWith g); split; trivial;
    unfold sameRest, sameGeo; cbn; tauto.
Qed.

Lemma clearPositional_frame g :
  sameRest g (clearPositional g) /\
  connectedTo (clearPositional g) = connectedTo g.
Proof.
  unfold clearPositional.
  destruct (isSome (incompatibleWith g) && (jammingError g || overlapError g));
    [apply clearIncompatibleState_frame |].
  split; trivial. apply sameRest_refl.
Qed.

Lemma clearPositional_noFlags g : okFlags g -> noFlags (clearPositional g).
Proof.
  intro O. unfold clearPositional, clearIncompatibleState, okFlags, noFlags in *.
  destruct (incompatibleWith g) as [w |] eqn:E; cbn.
  - destruct (jammingError g) eqn:J; cbn; [now split |].
    destruct (overlapError g) eqn:V; cbn; [now split |].
    now rewrite J, V.
  - destruct (O eq_refl) as [-> ->]. cbn. now split.
Qed.

Lemma clearPositional_fixed g : noFlags g -> clearPositional g = g.
Proof.
  intros [J V]. unfold clearPositional. rewrite J, V.
  now rewrite andb_false_r.
Qed.

Lemma clearPositional_cleared g w :
  incompatibleWith g = Some w ->
  jammingError g = true \/ overlapError g = true ->
  sameErrors (setError None false false g) (clearPositional g).
Proof.
  intros E F. unfold clearPositional, clearIncompatibleState. rewrite E. cbn.
  assert (T : jammingError g || overlapError g = true)
    by (destruct F as [-> | ->]; [trivial | apply orb_true_r]).
  rewrite T. apply sameErrors_refl.
Qed.

Section RebuildFacts.

Variable distanceTo : Vec3 -> Vec3 -> Q.


Lemma checkGearsOverlap_geo (a a' b b' : Gear) :
  sameGeo a a' -> sameGeo b b' ->
  checkGearsOverlap distanceTo a' b' = checkGearsOverlap distanceTo a b.
Proof.
  intros (_ & Pa & Ma) (_ & Pb & Mb).
  unfold checkGearsOverlap, currentDistance, idealDistance.
  now rewrite Pa, Ma, Pb, Mb.
Qed.

Lemma areGearsCompatible_geo (a a' b b' : Gear) :
  sameGeo a a' -> sameGeo b b' ->
  areGearsCompatible a' b' = areGearsCompatible a b.
Proof.
  intros (_ & _ & Ma) (_ & _ & Mb). unfold areGearsCompatible.
  now rewrite Ma, Mb.
Qed.

Lemma candidateOf_geo (p p' : Gear * Gear) :
  pairRel sameGeo p p' -> candidateOf distanceTo p' = candidateOf distanceTo p.
Proof.
  destruct p as [a b], p' as [a' b']. intros [(Ia & Pa & Ma) (Ib & Pb & Mb)].
  cbn in *. unfold candidateOf, currentDistance, idealDistance.
  now rewrite Ia, Pa, Ma, Ib, Pb, Mb.
Qed.

Lemma potentialConnections_geo (gs gs' : list Gear) :
  Forall2 sameGeo gs gs' ->
  potentialConnections distanceTo gs' = potentialConnections distanceTo gs.
Proof.
  intro H. apply (pairs_Forall2 sameGeo) in H.
  unfold potentialConnections.
  induction H as [| p p' l l' Hp H IH]; cbn; trivial.
  now rewrite (candidateOf_geo _ _ Hp), IH.
Qed.

Lemma firstOverlap_geo (gs gs' : list Gear) :
  Forall2 sameGeo gs gs' -> firstOverlap distanceTo gs' = firstOverlap distanceTo gs.
Proof.
  intro H. apply (pairs_Forall2 sameGeo) in H.
  unfold firstOverlap.
  induction H as [| [a b] [a' b'] l l' [Ha Hb] H IH]; cbn in *; trivial.
  rewrite (checkGearsOverlap_geo _ _ _ _ Ha Hb).
  destruct (checkGearsOverlap distanceTo a b); trivial.
  destruct Ha as [-> _], Hb as [-> _]. reflexivity.
Qed.

Lemma findGear_geo (gs gs' : list Gear) (i : nat) :
  Forall2 sameGeo gs gs' ->
  match findGear i gs, findGear i gs' with
  | Some g, Some g' => sameGeo g g'
  | None, None => True
  | _, _ => False
  end.
Proof.
  induction 1 as [| a b gs gs' G H IH]; cbn; trivial.
  destruct G as (Hid & Hp & Hm).
  rewrite Hid. destruct (Nat.eqb (id a) i); trivial. now repeat split.
Qed.

Lemma overlapRef_geo (gs gs' : list Gear) (i j : nat) :
  Forall2 sameGeo gs gs' -> overlapRef distanceTo gs' i j = overlapRef distanceTo gs i j.
Proof.
  intro H. unfold overlapRef.
  pose proof (findGear_geo gs gs' i H) as Fi.
  pose proof (findGear_geo gs gs' j H) as Fj.
  destruct (findGear i gs), (findGear i gs'); try contradiction; trivial.
  destruct (findGear j gs), (findGear j gs'); try contradiction; trivial.
  now apply checkGearsOverlap_geo.
Qed.

Lemma compatibleRef_geo (gs gs' : list Gear) (i j : nat) :
  Forall2 sameGeo gs gs' -> compatibleRef gs' i j = compatibleRef gs i j.
Proof.
  intro H. unfold compatibleRef.
  pose proof (findGear_geo gs gs' i H) as Fi.
  pose proof (findGear_geo gs gs' j H) as Fj.
  destruct (findGear i gs), (findGear i gs'); try contradiction; trivial.
  destruct (findGear j gs), (findGear j gs'); try contradiction; trivial.
  now apply areGearsCompatible_geo.
Qed.

Lemma connectStep_sameCore (gs gs' : list Gear) (jam : option (nat * nat))
      (c : Candidate) :
  Forall2 sameCore gs gs' ->
  snd (connectStep distanceTo (gs', jam) c) = snd (connectStep distanceTo (gs, jam) c) /\
  Forall2 sameCore (fst (connectStep distanceTo (gs, jam) c))
                   (fst (connectStep distanceTo (gs', jam) c)).
Proof.
  intro H.
  assert (G : Forall2 sameGeo gs gs')
    by (eapply Forall2_impl; [| exact H]; apply sameCore_geo).
  assert (L : Forall2 sameLink gs gs')
    by (eapply Forall2_impl; [| exact H]; apply sameCore_link).
  unfold connectStep.
  rewrite (overlapRef_geo _ _ _ _ G), (compatibleRef_geo _ _ _ _ G),
    (wouldCauseJamming_sameLink _ _ _ _ L).
  destruct (overlapRef distanceTo gs (gear1 c) (gear2 c)); cbn; [now split |].
  destruct (compatibleRef gs (gear1 c) (gear2 c)); cbn; [| now split].
  destruct (wouldCauseJamming gs (gear1 c) (gear2 c)); cbn; [now split |].
  split; trivial. now apply connectGears_sameCore.
Qed.

Lemma connectAll_sameCore_gen (cs : list Candidate) :
  forall gs gs' jam,
    Forall2 sameCore gs gs' ->
    snd (fold_left (connectStep distanceTo) cs (gs', jam))
    = snd (fold_left (connectStep distanceTo) cs (gs, jam)) /\
    Forall2 sameCore (fst (fold_left (connectStep distanceTo) cs (gs, jam)))
                     (fst (fold_left (connectStep distanceTo) cs (gs', jam))).
Proof.
  induction cs as [| c cs IH]; cbn [fold_left]; intros gs gs' jam H;
    [now split |].
  destruct (connectStep_sameCore gs gs' jam c H) as [E F].
  destruct (connectStep distanceTo (gs, jam) c) as [g1 j1],
           (connectStep distanceTo (gs', jam) c) as [g1' j1']. cbn in *. subst j1'.
  now apply IH.
Qed.

Lemma connectStep_frame (gs : list Gear) (jam : option (nat * nat))
      (c : Candidate) :
  Forall2 (fun g g' => sameRest g g' /\ sameErrors g g')
          gs (fst (connectStep distanceTo (gs, jam) c)).
Proof.
  assert (Same : Forall2 (fun g g' => sameRest g g' /\ sameErrors g g') gs gs).
  { apply Forall2_refl_on. intros.
    split; [apply sameRest_refl | apply sameErrors_refl]. }
  unfold connectStep.
  destruct (overlapRef distanceTo gs (gear1 c) (gear2 c)); cbn; trivial.
  destruct (compatibleRef gs (gear1 c) (gear2 c)); cbn; trivial.
  destruct (wouldCauseJamming gs (gear1 c) (gear2 c)); cbn; trivial.
  apply connectGears_frame.
Qed.

Lemma connectAll_frame_gen (cs : list Candidate) :
  forall gs jam,
    Forall2 (fun g g' => sameRest g g' /\ sameErrors g g')
            gs (fst (fold_left (connectStep distanceTo) cs (gs, jam))).
Proof.
  induction cs as [| c cs IH]; cbn [fold_left]; intros gs jam.
  - apply Forall2_refl_on. intros.
    split; [apply sameRest_refl | apply sameErrors_refl].
  - pose proof (connectStep_frame gs jam c) as F.
    destruct (connectStep distanceTo (gs, jam) c) as [g1 j1]. cbn in F.
    eapply Forall2_trans; [| exact F | apply IH].
    cbn. intros a b d [R1 E1] [R2 E2].
    split; [eapply sameRest_trans | eapply sameErrors_trans]; eauto.
Qed.

End RebuildFacts.

(** ** The shape of a rebuild *)

Lemma surfaceError_map selected overlap jamming (gs : list Gear) :
  surfaceError selected overlap jamming gs
  = map (surfaceGear selected overlap jamming) gs.
Proof.
  unfold surfaceError, surfaceGear, updateGear.
  destruct overlap as [p |]; [destruct (errorGearOf selected p); trivial |].
  destruct jamming as [p |]; [destruct (errorGearOf selected p); trivial |].
  now rewrite map_id.
Qed.

Lemma surfaceGear_frame selected overlap jamming g :
  sameRest g (surfaceGear selected overlap jamming g) /\
  connectedTo (surfaceGear selected overlap jamming g) = connectedTo g.
Proof.
  unfold surfaceGear.
  destruct overlap as [p |]; [destruct (errorGearOf selected p) |].
  - destruct (Nat.eqb (id g) n); unfold sameRest, sameGeo; cbn; tauto.
  - destruct jamming as [p |]; [destruct (errorGearOf selected p) |].
    + destruct (Nat.eqb (id g) n); unfold sameRest, sameGeo; cbn; tauto.
    + unfold sameRest, sameGeo; tauto.
Qed.

Lemma surfaceGear_ok selected overlap jamming g :
  okFlags g -> okFlags (surfaceGear selected overlap jamming g).
Proof.
  intro O. unfold surfaceGear.
  destruct overlap as [p |]; [destruct (errorGearOf selected p) |].
  - destruct (Nat.eqb (id g) n); trivial. intro E. discriminate.
  - destruct jamming as [p |]; [destruct (errorGearOf selected p) |]; trivial.
    destruct (Nat.eqb (id g) n); trivial. intro E. discriminate.
Qed.

(** The error fields after [surfaceError] depend on the gear's [id] and on
    its flags before. *)
Lemma surfaceGear_errors selected overlap jamming g g' :
  id g' = id g -> noFlags g -> noFlags g' ->
  (surfaceGear selected overlap jamming g = g ->
   incompatibleWith g' = incompatibleWith g) ->
  sameErrors (surfaceGear selected overlap jamming g)
             (surfaceGear selected overlap jamming g').
Proof.
  intros I [J V] [J' V'] E. unfold surfaceGear in *. rewrite I.
  destruct overlap as [p |]; [destruct (errorGearOf selected p) |].
  - destruct (Nat.eqb (id g) n).
    + unfold sameErrors. cbn. now rewrite J, J'.
    + unfold sameErrors. rewrite J, J', V, V'. auto.
  - destruct jamming as [p |]; [destruct (errorGearOf selected p) |].
    + destruct (Nat.eqb (id g) n).
      * unfold sameErrors. cbn. now rewrite V, V'.
      * unfold sameErrors. rewrite J, J', V, V'. auto.
    + unfold sameErrors. rewrite J, J', V, V'. auto.
Qed.

Section RebuildShape.

Variable distanceTo : Vec3 -> Vec3 -> Q.

Lemma clearMovedAway_frame (gs : list Gear) (g : Gear) :
  sameRest g (clearMovedAway distanceTo gs g) /\
  connectedTo (clearMovedAway distanceTo gs g) = connectedTo g.
Proof.
  assert (Same : sameRest g g /\ connectedTo g = connectedTo g)
    by (split; [apply sameRest_refl | trivial]).
  unfold clearMovedAway.
  destruct (incompatibleWith g) as [t |]; trivial.
  destruct (negb (jammingError g) && negb (overlapError g)); trivial.
  destruct (findGear t gs) as [tg |]; [| apply clearIncompatibleState_frame].
  match goal with |- context [Qltb ?a ?b] => destruct (Qltb a b) end;
    [apply clearIncompatibleState_frame | trivial].
Qed.

Lemma clearMovedAway_noFlags (gs : list Gear) (g : Gear) :
  noFlags g -> noFlags (clearMovedAway distanceTo gs g).
Proof.
  intro N.
  assert (C : noFlags (clearIncompatibleState g)).
  { unfold clearIncompatibleState. destruct (incompatibleWith g); trivial.
    now split. }
  unfold clearMovedAway.
  destruct (incompatibleWith g) as [t |]; trivial.
  destruct (negb (jammingError g) && negb (overlapError g)); trivial.
  destruct (findGear t gs) as [tg |]; trivial.
  match goal with |- context [Qltb ?a ?b] => destruct (Qltb a b) end; trivial.
Qed.

Lemma clearMovedAway_ok (gs : list Gear) (g : Gear) :
  okFlags g -> okFlags (clearMovedAway distanceTo gs g).
Proof.
  intro O. unfold clearMovedAway.
  destruct (incompatibleWith g) as [t |] eqn:E; trivial.
  destruct (negb (jammingError g) && negb (overlapError g)); trivial.
  destruct (findGear t gs) as [tg |];
    [| now apply clearIncompatibleState_ok].
  match goal with |- context [Qltb ?a ?b] => destruct (Qltb a b) end;
    [now apply clearIncompatibleState_ok | trivial].
Qed.

(** The second loop decides on positions and dimensions only. *)
Lemma clearMovedAway_geo (gs gs' : list Gear) (g g' : Gear) :
  Forall2 sameGeo gs gs' -> sameGeo g g' -> sameErrors g g' ->
  sameErrors (clearMovedAway distanceTo gs g)
             (clearMovedAway distanceTo gs' g').
Proof.
  intros G (I & P & M) E0. pose proof E0 as (Ew & Ej & Ev).
  assert (C : sameErrors (clearIncompatibleState g)
                         (clearIncompatibleState g')).
  { unfold clearIncompatibleState. rewrite Ew.
    destruct (incompatibleWith g) eqn:Eg; unfold sameErrors; cbn;
      [tauto | now rewrite Ew, Eg]. }
  unfold clearMovedAway. rewrite Ew, Ej, Ev.
  destruct (incompatibleWith g) as [t |]; trivial.
  destruct (negb (jammingError g) && negb (overlapError g)); trivial.
  pose proof (findGear_geo gs gs' t G) as F.
  destruct (findGear t gs) as [tg |], (findGear t gs') as [tg' |];
    try contradiction; trivial.
  destruct F as (_ & Pt & Mt).
  unfold currentDistance, idealDistance. rewrite P, M, Pt, Mt.
  match goal with |- context [Qltb ?a ?b] => destruct (Qltb a b) end; trivial.
Qed.

Lemma clearMovedAway_twice (gs : list Gear) (g : Gear) :
  clearMovedAway distanceTo gs (clearMovedAway distanceTo gs g)
  = clearMovedAway distanceTo gs g.
Proof.
  assert (C : clearMovedAway distanceTo gs (clearIncompatibleState g)
              = clearIncompatibleState g).
  { unfold clearIncompatibleState.
    destruct (incompatibleWith g) eqn:E; unfold clearMovedAway.
    - reflexivity.
    - now rewrite E. }
  assert (H : clearMovedAway distanceTo gs g = g \/
              clearMovedAway distanceTo gs g = clearIncompatibleState g).
  { unfold clearMovedAway.
    destruct (incompatibleWith g) as [t |]; [| now left].
    destruct (negb (jammingError g) && negb (overlapError g)); [| now left].
    destruct (findGear t gs) as [tg |]; [| now right].
    match goal with |- context [Qltb ?a ?b] => destruct (Qltb a b) end;
      [now right | now left]. }
  destruct H as [H | H]; rewrite H; trivial.
Qed.

Lemma bare_frame (gs : list Gear) :
  Forall2 (fun g b =>
             sameRest g b /\ connectedTo b = [] /\
             sameErrors (cleaned distanceTo gs g) b)
          gs (bare distanceTo gs).
Proof.
  unfold bare. rewrite !map_map. apply Forall2_map_r. intros g _.
  destruct (clearPositional_frame g) as [R1 _].
  destruct (clearMovedAway_frame (map clearPositional gs) (clearPositional g))
    as [R2 _].
  split; [| split; [reflexivity | unfold cleaned, sameErrors; cbn; tauto]].
  eapply sameRest_trans; [exact R1 |].
  eapply sameRest_trans; [exact R2 |].
  unfold sameRest, sameGeo. cbn. tauto.
Qed.

Lemma rebuild_unfold (selected : option nat) (gs : list Gear) :
  rebuild distanceTo selected gs
  = map (surfaceGear selected (firstOverlap distanceTo (bare distanceTo gs))
                     (snd (connectAll distanceTo (bare distanceTo gs) (candidates distanceTo gs))))
        (fst (connectAll distanceTo (bare distanceTo gs) (candidates distanceTo gs))).
Proof.
  unfold rebuild. fold (bare distanceTo gs). fold (candidates distanceTo gs).
  destruct (connectAll distanceTo (bare distanceTo gs) (candidates distanceTo gs)) as [gs4 jam].
  apply surfaceError_map.
Qed.

(** The gears after the graph is built, before the error is shown. *)
Lemma connected_frame (gs : list Gear) :
  Forall2 (fun g g4 => sameRest g g4 /\ sameErrors (cleaned distanceTo gs g) g4)
          gs (fst (connectAll distanceTo (bare distanceTo gs) (candidates distanceTo gs))).
Proof.
  eapply Forall2_trans;
    [| apply bare_frame | apply (connectAll_frame_gen distanceTo)].
  cbn. intros a b c (R1 & _ & E1) (R2 & E2). split.
  - eapply sameRest_trans; eauto.
  - eapply sameErrors_trans; eauto.
Qed.

(** A rebuild writes [connectedTo] and the error fields only. *)
Lemma rebuild_frame (selected : option nat) (gs : list Gear) :
  Forall2 sameRest gs (rebuild distanceTo selected gs).
Proof.
  rewrite rebuild_unfold.
  eapply Forall2_trans; [| apply connected_frame | apply Forall2_map_r].
  - cbn. intros a b c [R1 _] R2. eapply sameRest_trans; [exact R1 |].
    exact R2.
  - intros g _. apply surfaceGear_frame.
Qed.

End RebuildShape.

(* ================================================================== *)
(** * A second rebuild changes nothing *)

Section Idempotence.

Variable distanceTo : Vec3 -> Vec3 -> Q.
Variable selected : option nat.
Variable gs : list Gear.
Hypothesis flags : Forall okFlags gs.

Let T := rebuild distanceTo selected gs.

Lemma rebuild_geo : Forall2 sameGeo gs T.
Proof.
  eapply Forall2_impl; [| apply rebuild_frame]. intros a b R. apply R.
Qed.

Lemma bare_geo (l : list Gear) :
  Forall2 (fun g b => sameGeo g b /\ connectedTo b = []) l (bare distanceTo l).
Proof.
  eapply Forall2_impl; [| apply bare_frame]. cbn.
  intros a b (R & C & _). split; [apply R | exact C].
Qed.

Lemma bare_sameCore : Forall2 sameCore (bare distanceTo gs) (bare distanceTo T).
Proof.
  pose proof (Forall2_flip _ _ _ (bare_geo gs)) as B1.
  assert (M : Forall2 (fun g c => sameGeo g c /\ connectedTo c = [])
                      gs (bare distanceTo T)).
  { eapply (Forall2_trans sameGeo
              (fun g b => sameGeo g b /\ connectedTo b = [])
              (fun g c => sameGeo g c /\ connectedTo c = []));
      [| apply rebuild_geo | apply bare_geo].
    cbn. intros a b c G1 [G2 C2]. split; trivial.
    eapply sameGeo_trans; eauto. }
  eapply (Forall2_trans _ _ sameCore); [| exact B1 | exact M].
  cbn. intros b a c [G1 C1] [G2 C2]. split.
  - eapply sameGeo_trans; [apply sameGeo_sym; exact G1 | exact G2].
  - congruence.
Qed.

Lemma candidates_again : candidates distanceTo T = candidates distanceTo gs.
Proof.
  unfold candidates. f_equal. apply potentialConnections_geo.
  eapply Forall2_impl; [| apply bare_sameCore]. apply sameCore_geo.
Qed.

Lemma firstOverlap_again :
  firstOverlap distanceTo (bare distanceTo T)
  = firstOverlap distanceTo (bare distanceTo gs).
Proof.
  apply firstOverlap_geo.
  eapply Forall2_impl; [| apply bare_sameCore]. apply sameCore_geo.
Qed.

Lemma connectAll_again :
  snd (connectAll distanceTo (bare distanceTo T) (candidates distanceTo gs))
  = snd (connectAll distanceTo (bare distanceTo gs) (candidates distanceTo gs))
  /\
  Forall2 sameCore
    (fst (connectAll distanceTo (bare distanceTo gs) (candidates distanceTo gs)))
    (fst (connectAll distanceTo (bare distanceTo T) (candidates distanceTo gs))).
Proof.
  apply connectAll_sameCore_gen. apply bare_sameCore.
Qed.

Lemma cleaned_noFlags (l : list Gear) (g : Gear) :
  okFlags g -> noFlags (cleaned distanceTo l g).
Proof.
  intro O. apply clearMovedAway_noFlags. now apply clearPositional_noFlags.
Qed.

Lemma noFlags_sameErrors (a b : Gear) :
  sameErrors a b -> noFlags a -> noFlags b.
Proof. intros (_ & J & V) [Ja Va]. split; congruence. Qed.

Lemma cleaned_geo (l : list Gear) (g : Gear) :
  sameGeo g (cleaned distanceTo l g).
Proof.
  destruct (clearPositional_frame g) as [[G1 _] _].
  destruct (clearMovedAway_frame distanceTo (map clearPositional l)
                                 (clearPositional g)) as [[G2 _] _].
  eapply sameGeo_trans; eauto.
Qed.

Lemma rebuild_twice : rebuild distanceTo selected T = T.
Proof.
  unfold T at 2. rewrite !rebuild_unfold. fold T.
  rewrite candidates_again, firstOverlap_again.
  destruct connectAll_again as [Ejam Core]. rewrite Ejam.
  set (S := surfaceGear selected
              (firstOverlap distanceTo (bare distanceTo gs))
              (snd (connectAll distanceTo (bare distanceTo gs)
                               (candidates distanceTo gs)))) in *.
  set (gs4 := fst (connectAll distanceTo (bare distanceTo gs)
                              (candidates distanceTo gs))) in *.
  set (gs4' := fst (connectAll distanceTo (bare distanceTo T)
                               (candidates distanceTo gs))) in *.
  assert (ET : T = map S gs4) by (unfold T; now rewrite rebuild_unfold).
  apply Forall2_map_eq.
  (* what is known of a gear before the error is shown *)
  assert (B : Forall (fun g4 => exists g,
                          okFlags g /\ sameRest g g4 /\
                          sameErrors (cleaned distanceTo gs g) g4) gs4).
  { apply Forall_forall. intros g4 H4.
    destruct (Forall2_In_r _ _ _ _ (connected_frame distanceTo gs) H4)
      as (g & Hg & R & E).
    exists g. split; [| now split].
    rewrite Forall_forall in flags. now apply flags. }
  assert (C : Forall2 (fun g4 g4' =>
                         sameRest (S g4) g4' /\
                         sameErrors (cleaned distanceTo T (S g4)) g4')
                      gs4 gs4').
  { apply (Forall2_map_l_inv
             (fun t g4' => sameRest t g4' /\
                           sameErrors (cleaned distanceTo T t) g4') S).
    rewrite <- ET. unfold gs4'. rewrite <- candidates_again.
    apply connected_frame. }
  assert (G1 : Forall2 sameGeo (map clearPositional gs)
                       (map clearPositional T)).
  { eapply Forall2_map_both; [| apply rebuild_geo].
    intros a b G.
    destruct (clearPositional_frame a) as [[Ga _] _].
    destruct (clearPositional_frame b) as [[Gb _] _].
    eapply sameGeo_trans; [apply sameGeo_sym; exact Ga |].
    eapply sameGeo_trans; [exact G | exact Gb]. }
  pose proof (Forall2_and _ _ _ _ Core C) as CC.
  pose proof (Forall2_with_left _ _ _ _ B CC) as All.
  eapply Forall2_impl; [| exact All]. cbn.
  intros g4 g4' ((g & Og & Rg & Eg) & [Cg Cc] & R' & E').
  destruct (surfaceGear_frame selected
              (firstOverlap distanceTo (bare distanceTo gs))
              (snd (connectAll distanceTo (bare distanceTo gs)
                               (candidates distanceTo gs))) g4) as [F4 L4].
  destruct (surfaceGear_frame selected
              (firstOverlap distanceTo (bare distanceTo gs))
              (snd (connectAll distanceTo (bare distanceTo gs)
                               (candidates distanceTo gs))) g4') as [F4' L4'].
  fold S in F4, L4, F4', L4'.
  assert (N4 : noFlags g4).
  { eapply noFlags_sameErrors; [exact Eg |]. now apply cleaned_noFlags. }
  assert (N4' : noFlags g4').
  { eapply noFlags_sameErrors; [exact E' |]. apply cleaned_noFlags.
    apply surfaceGear_ok. now apply noFlags_ok. }
  apply gear_ext.
  - eapply sameRest_trans; [exact R' | exact F4'].
  - congruence.
  - apply surfaceGear_errors; trivial; [apply Cg |].
    intro Fix. fold S in Fix. rewrite Fix in E'.
    unfold cleaned in E'. rewrite (clearPositional_fixed _ N4) in E'.
    (* the second loop keeps what it kept the first time *)
    assert (K : sameErrors
                  (clearMovedAway distanceTo (map clearPositional gs)
                                  (cleaned distanceTo gs g))
                  (clearMovedAway distanceTo (map clearPositional T) g4)).
    { apply clearMovedAway_geo; trivial.
      eapply sameGeo_trans; [apply sameGeo_sym, cleaned_geo | apply Rg]. }
    unfold cleaned in K at 1. rewrite clearMovedAway_twice in K.
    fold (cleaned distanceTo gs g) in K.
    destruct K as (K & _), E' as (E' & _), Eg as (Eg & _). congruence.
Qed.

End Idempotence.

(* ================================================================== *)
(** * What holds in every state *)

Lemma tame_refl g : tame g g.
Proof. now split. Qed.

Lemma tame_trans a b c : tame a b -> tame b c -> tame a c.
Proof. intros [I1 O1] [I2 O2]. split; [congruence | auto]. Qed.

Lemma wellFormedGears_tame (next : nat) (gs gs' : list Gear) :
  Forall2 tame gs gs' -> wellFormedGears next gs -> wellFormedGears next gs'.
Proof.
  intros H (ND & OK & LT).
  assert (I : map id gs' = map id gs)
    by (eapply Forall2_ids; [| exact H]; intros a b T; apply T).
  split; [now rewrite I |]. split.
  - apply Forall_forall. intros g' Hg'.
    destruct (Forall2_In_r _ _ _ _ H Hg') as (g & Hg & _ & O).
    rewrite Forall_forall in OK. auto.
  - apply Forall_forall. intros g' Hg'.
    destruct (Forall2_In_r _ _ _ _ H Hg') as (g & Hg & E & _).
    rewrite Forall_forall in LT. rewrite E. auto.
Qed.

Lemma updateGear_tame (i : nat) (f : Gear -> Gear) (gs : list Gear) :
  (forall g, tame g (f g)) -> Forall2 tame gs (updateGear i f gs).
Proof.
  intro H. unfold updateGear. apply Forall2_map_r. intros g _.
  destruct (Nat.eqb (id g) i); [apply H | apply tame_refl].
Qed.

Lemma map_tame (f : Gear -> Gear) (gs : list Gear) :
  (forall g, tame g (f g)) -> Forall2 tame gs (map f gs).
Proof. intro H. apply Forall2_map_r. intros g _. apply H. Qed.

Lemma Forall2_tame_trans (l1 l2 l3 : list Gear) :
  Forall2 tame l1 l2 -> Forall2 tame l2 l3 -> Forall2 tame l1 l3.
Proof. apply Forall2_trans. apply tame_trans. Qed.

Lemma tame_sameErrors g g' : id g' = id g -> sameErrors g g' -> tame g g'.
Proof.
  intros I (W & J & V). split; trivial.
  unfold okFlags, noFlags. rewrite W, J, V. trivial.
Qed.

Lemma tame_setPosition p g : tame g (setPosition p g).
Proof. now apply tame_sameErrors. Qed.

Lemma tame_setParams p g : tame g (setParams p g).
Proof. now apply tame_sameErrors. Qed.

Lemma tame_setConnectedTo l g : tame g (setConnectedTo l g).
Proof. now apply tame_sameErrors. Qed.

Lemma tame_pushIfAbsent j g : tame g (pushIfAbsent j g).
Proof.
  unfold pushIfAbsent. destruct (includes (connectedTo g) j);
    [apply tame_refl | apply tame_setConnectedTo].
Qed.

Lemma tame_clearIncompatibleState g : tame g (clearIncompatibleState g).
Proof.
  split; [| apply clearIncompatibleState_ok].
  unfold clearIncompatibleState. now destruct (incompatibleWith g).
Qed.

Lemma tame_setOverlapState t g : tame g (setOverlapState t g).
Proof. split; trivial. intros _ E. discriminate. Qed.

Lemma tame_setJammingState t g : tame g (setJammingState t g).
Proof. split; trivial. intros _ E. discriminate. Qed.

Lemma tame_setIncompatibleState t g : tame g (setIncompatibleState t g).
Proof. split; trivial. intros _ E. discriminate. Qed.

Lemma tame_sameButSpeed g g' : sameButSpeed g g' -> tame g g'.
Proof.
  intros (I & _ & _ & _ & _ & W & J & V). apply tame_sameErrors; trivial.
  now repeat split.
Qed.

Lemma connectGears_tame (gs : list Gear) (i j : nat) :
  Forall2 tame gs (connectGears gs i j).
Proof.
  unfold connectGears. eapply Forall2_tame_trans;
    apply updateGear_tame; intro g; apply tame_pushIfAbsent.
Qed.

Lemma NoDup_map_filter {A B} (h : A -> B) (p : A -> bool) (l : list A) :
  NoDup (map h l) -> NoDup (map h (filter p l)).
Proof.
  induction l as [| a l IH]; cbn; intro ND; trivial.
  inversion ND as [| ? ? N ND']; subst.
  destruct (p a); cbn; auto. constructor; auto.
  intro Hin. apply N. apply in_map_iff in Hin.
  destruct Hin as (x & E & Hx). apply filter_In in Hx.
  apply in_map_iff. exists x. tauto.
Qed.

Lemma wellFormedGears_filter (next : nat) (p : Gear -> bool)
      (gs : list Gear) :
  wellFormedGears next gs -> wellFormedGears next (filter p gs).
Proof.
  intros (ND & OK & LT). split; [now apply NoDup_map_filter |].
  rewrite Forall_forall in OK, LT.
  split; apply Forall_forall; intros g Hg; apply filter_In in Hg;
    destruct Hg; auto.
Qed.

Section Invariant.

Variable distanceTo : Vec3 -> Vec3 -> Q.
Variable normalize : Vec3 -> Vec3.

Lemma tame_surfaceGear selected overlap jamming g :
  tame g (surfaceGear selected overlap jamming g).
Proof.
  split; [| apply surfaceGear_ok].
  destruct (surfaceGear_frame selected overlap jamming g) as [[[I _] _] _].
  exact I.
Qed.

Lemma rebuild_tame (selected : option nat) (gs : list Gear) :
  Forall2 tame gs (rebuild distanceTo selected gs).
Proof.
  rewrite rebuild_unfold.
  eapply Forall2_tame_trans;
    [| apply map_tame; intro; apply tame_surfaceGear].
  eapply Forall2_impl; [| apply (connected_frame distanceTo gs)].
  cbn. intros g g4 [[[I _] _] E]. split; trivial.
  intro Og. apply noFlags_ok.
  eapply noFlags_sameErrors; [exact E |].
  apply clearMovedAway_noFlags. now apply clearPositional_noFlags.
Qed.

Lemma snapLoop_tame (gs : list Gear) (moving : Gear) (rest : list Gear) :
  Forall2 tame gs (fst (snapLoop distanceTo normalize gs moving rest)).
Proof.
  assert (Same : Forall2 tame gs gs)
    by (apply Forall2_refl_on; intros; apply tame_refl).
  induction rest as [| gear rest IH]; cbn; trivial.
  destruct (Nat.eqb (id gear) (id moving)); trivial.
  destruct (checkGearsOverlap distanceTo moving gear); cbn;
    [apply updateGear_tame; intro; apply tame_setOverlapState |].
  match goal with |- context [if ?c then _ else _] => destruct c end; trivial.
  destruct (negb (areGearsCompatible moving gear)); cbn;
    [apply updateGear_tame; intro; apply tame_setIncompatibleState |].
  destruct (wouldCauseJamming gs (id moving) (id gear)); cbn;
    [apply updateGear_tame; intro; apply tame_setJammingState |].
  unfold snapTo.
  assert (S1 : Forall2 tame gs
                 (if isSome (incompatibleWith moving)
                  then updateGear (id moving) clearIncompatibleState gs
                  else gs)).
  { destruct (isSome (incompatibleWith moving)); trivial.
    apply updateGear_tame. apply tame_clearIncompatibleState. }
  eapply Forall2_tame_trans; [exact S1 |].
  match goal with |- context [includes ?l ?x] => destruct (includes l x) end.
  - apply updateGear_tame. intro. apply tame_setPosition.
  - eapply Forall2_tame_trans; [| apply connectGears_tame].
    apply updateGear_tame. intro. apply tame_setPosition.
Qed.

Lemma propagateFrom_tame (driver : nat) (q : Q) (gs : list Gear) :
  Forall2 tame gs (propagateFrom driver q gs).
Proof.
  eapply Forall2_impl; [| apply propagateFrom_frame]. cbn.
  intros a b [S _]. now apply tame_sameButSpeed.
Qed.

Lemma calculateGearSpeeds_wellFormed (s : Simulator) :
  wellFormed s -> wellFormed (calculateGearSpeeds s).
Proof.
  unfold calculateGearSpeeds. destruct (findDriver (gears s)); trivial.
  apply wellFormedGears_tame, propagateFrom_tame.
Qed.

Lemma updateConnections_wellFormed (s : Simulator) :
  wellFormed s -> wellFormed (updateConnections distanceTo s).
Proof. apply wellFormedGears_tame, rebuild_tame. Qed.

Lemma addGear_wellFormed (s : Simulator) (inp : ParamInputs) :
  wellFormed s -> wellFormed (addGear s inp).
Proof.
  intros (ND & OK & LT). unfold wellFormed, wellFormedGears, addGear. cbn.
  rewrite map_app. cbn. repeat split.
  - rewrite Forall_forall in LT.
    assert (N : ~ In (nextGearId s) (map id (gears s))).
    { intro H. apply in_map_iff in H. destruct H as (g & E & Hg).
      apply LT in Hg. lia. }
    clear - ND N. induction (map id (gears s)) as [| a l IH]; cbn.
    + constructor; [intros [] | constructor].
    + inversion ND; subst. constructor.
      * rewrite in_app_iff. cbn. intros [H | [H | []]]; [tauto |].
        apply N. now left.
      * apply IH; trivial. intro H. apply N. now right.
  - apply Forall_app. split; trivial. constructor; [| constructor].
    intros _. now split.
  - apply Forall_app. split.
    + eapply Forall_impl; [| exact LT]. cbn. intros. lia.
    + constructor; [cbn; lia | constructor].
Qed.

Lemma deleteSelectedGear_wellFormed (s : Simulator) :
  wellFormed s -> wellFormed (deleteSelectedGear s).
Proof.
  intro W. unfold deleteSelectedGear.
  destruct (selectedGear s) as [d |]; trivial.
  destruct (negb (inRegistry (gears s) d)); trivial.
  unfold wellFormed. cbn. apply wellFormedGears_filter.
  eapply wellFormedGears_tame; [| exact W].
  eapply Forall2_tame_trans;
    [| apply map_tame; intro; apply tame_setConnectedTo].
  eapply Forall2_tame_trans;
    [| apply updateGear_tame; apply tame_clearIncompatibleState].
  apply map_tame. intro g.
  destruct (refIs (incompatibleWith g) d);
    [apply tame_clearIncompatibleState | apply tame_refl].
Qed.

Lemma step_wellFormed (s s' : Simulator) (e : Event) :
  wellFormed s -> step distanceTo normalize s e = Some s' -> wellFormed s'.
Proof.
  intros W H. destruct e; cbn in H.
  - inversion H; subst. now apply addGear_wellFormed.
  - inversion H; subst. exact W.
  - unfold updateSelectedGearParams in H.
    destruct (selectedGear s) as [sel |]; [| inversion H; now subst].
    destruct (negb (inRegistry (gears s) sel)); [inversion H; now subst |].
    destruct (in_teeth inp), (in_module inp), (in_pressureAngle inp),
      (in_thickness inp), (in_boreDiameter inp); try discriminate.
    inversion H; subst. apply updateConnections_wellFormed.
    eapply wellFormedGears_tame; [| exact W].
    apply updateGear_tame. intro. apply tame_setParams.
  - inversion H; subst. unfold updateSelectedGearPosition.
    destruct (selectedGear s) as [sel |]; trivial.
    apply updateConnections_wellFormed.
    eapply wellFormedGears_tame; [| exact W].
    apply updateGear_tame. intro. apply tame_setPosition.
  - inversion H; subst.
    eapply wellFormedGears_tame; [| exact W].
    apply updateGear_tame. intro. apply tame_setPosition.
  - inversion H; subst. unfold checkSnapToMesh.
    destruct (findGear gear (gears s)) as [moving |]; trivial.
    pose proof (snapLoop_tame (gears s) moving (gears s)) as T.
    destruct (snapLoop distanceTo normalize (gears s) moving (gears s))
      as [gs' b]. cbn in *.
    eapply wellFormedGears_tame; [exact T | exact W].
  - inversion H; subst. now apply updateConnections_wellFormed.
  - inversion H; subst. now apply deleteSelectedGear_wellFormed.
  - inversion H; subst. repeat split; constructor.
  - inversion H; subst. unfold play.
    destruct (find jammingError (gears s)); cbn; trivial.
    now apply calculateGearSpeeds_wellFormed.
  - inversion H; subst. exact W.
  - inversion H; subst. exact W.
  - inversion H; subst. now apply calculateGearSpeeds_wellFormed.
Qed.

Lemma run_wellFormed (es : list Event) :
  forall s s',
    wellFormed s -> run distanceTo normalize s es = Some s' -> wellFormed s'.
Proof.
  induction es as [| e es IH]; cbn; intros s s' W H.
  - inversion H; now subst.
  - destruct (step distanceTo normalize s e) as [s1 |] eqn:E;
      [| discriminate].
    eapply IH; [| exact H]. eapply step_wellFormed; eauto.
Qed.

Lemma reachable_wellFormed (s : Simulator) :
  Reachable distanceTo normalize s -> wellFormed s.
Proof.
  intros [es H]. eapply run_wellFormed; [| exact H].
  repeat split; constructor.
Qed.

End Invariant.

(* ================================================================== *)
(** * The edges a rebuild makes *)

Lemma In_updateGear (i : nat) (f : Gear -> Gear) (gs : list Gear) (g' : Gear) :
  In g' (updateGear i f gs) ->
  exists g, In g gs /\ (g' = g \/ (id g = i /\ g' = f g)).
Proof.
  unfold updateGear. intro H. apply in_map_iff in H.
  destruct H as (g & E & Hg). exists g. split; trivial.
  destruct (Nat.eqb (id g) i) eqn:D; [| now left].
  apply Nat.eqb_eq in D. right. now split.
Qed.

Lemma In_insertByDistance (c x : Candidate) (l : list Candidate) :
  In x (insertByDistance c l) <-> x = c \/ In x l.
Proof.
  induction l as [| d l IH]; cbn; [intuition |].
  destruct (Qle_bool (distance c) (distance d)); cbn; [intuition |].
  rewrite IH. intuition.
Qed.

Lemma In_sortByDistance (x : Candidate) (l : list Candidate) :
  In x (sortByDistance l) <-> In x l.
Proof.
  induction l as [| c l IH]; cbn; [tauto |].
  rewrite In_insertByDistance, IH. intuition.
Qed.

(** Two lists that run in step agree at equal identifiers when these are
    distinct. *)
Lemma Forall2_at_id (R : Gear -> Gear -> Prop) (l l' : list Gear)
      (x a : Gear) :
  (forall g g', R g g' -> id g' = id g) ->
  Forall2 R l l' -> NoDup (map id l) ->
  In x l -> In a l' -> id x = id a -> R x a.
Proof.
  intros Rid H. induction H as [| g g' l l' Rg H IH]; cbn;
    intros ND Hx Ha E; [contradiction |].
  inversion ND as [| ? ? N ND']; subst.
  destruct Hx as [-> | Hx], Ha as [-> | Ha]; trivial.
  - exfalso. apply N. destruct (Forall2_In_r _ _ _ _ H Ha) as (y & Hy & Ry).
    rewrite E, (Rid _ _ Ry). now apply in_map.
  - exfalso. apply N. rewrite <- (Rid _ _ Rg), <- E. now apply in_map.
  - now apply IH.
Qed.

Section Edges.

Variable distanceTo : Vec3 -> Vec3 -> Q.
Hypothesis distanceTo_sym : forall p q, distanceTo p q == distanceTo q p.

Lemma idealDistance_sym a b : idealDistance a b == idealDistance b a.
Proof. unfold idealDistance. now rewrite Qplus_comm. Qed.

Lemma checkGearsOverlap_sym a b :
  checkGearsOverlap distanceTo a b = checkGearsOverlap distanceTo b a.
Proof.
  unfold checkGearsOverlap, currentDistance. apply Qltb_compat.
  - apply distanceTo_sym.
  - now rewrite idealDistance_sym.
Qed.

Lemma areGearsCompatible_sym a b :
  areGearsCompatible a b = areGearsCompatible b a.
Proof.
  unfold areGearsCompatible. now rewrite Qabs_Qminus.
Qed.

Lemma inRange_sym a b : inRange distanceTo a b = inRange distanceTo b a.
Proof.
  unfold inRange, currentDistance. apply Qltb_compat; [| reflexivity].
  now rewrite distanceTo_sym, idealDistance_sym.
Qed.

Lemma mayMesh_sym a b : mayMesh distanceTo a b -> mayMesh distanceTo b a.
Proof.
  unfold mayMesh.
  now rewrite (inRange_sym b a), (checkGearsOverlap_sym b a),
    (areGearsCompatible_sym b a).
Qed.

Lemma mayMesh_geo a a' b b' :
  sameGeo a a' -> sameGeo b b' -> mayMesh distanceTo a b -> mayMesh distanceTo a' b'.
Proof.
  intros Ga Gb. unfold mayMesh.
  rewrite (checkGearsOverlap_geo distanceTo _ _ _ _ Ga Gb),
    (areGearsCompatible_geo _ _ _ _ Ga Gb).
  destruct Ga as (_ & Pa & Ma), Gb as (_ & Pb & Mb).
  unfold inRange, currentDistance, idealDistance.
  now rewrite Pa, Ma, Pb, Mb.
Qed.

Lemma potentialConnections_pairs (gs : list Gear) (c : Candidate) :
  In c (potentialConnections distanceTo gs) ->
  exists a b, In (a, b) (pairs gs) /\ gear1 c = id a /\ gear2 c = id b /\
              inRange distanceTo a b = true.
Proof.
  unfold potentialConnections. intro H. apply in_flat_map in H.
  destruct H as ([a b] & Hp & Hc). exists a, b. unfold candidateOf in Hc.
  fold (inRange distanceTo a b) in Hc. destruct (inRange distanceTo a b); [| destruct Hc].
  destruct Hc as [<- | []]. auto.
Qed.

Lemma connectStep_edges (B : list Gear) (cs : list Candidate)
      (gs : list Gear) (jam : option (nat * nat)) (c : Candidate) :
  Forall2 sameGeo B gs -> In c cs -> edgesFrom distanceTo B cs gs ->
  edgesFrom distanceTo B cs (fst (connectStep distanceTo (gs, jam) c)) /\
  Forall2 sameGeo B (fst (connectStep distanceTo (gs, jam) c)).
Proof.
  intros G Hc Ed. unfold connectStep.
  destruct (overlapRef distanceTo gs (gear1 c) (gear2 c)) eqn:Ov;
    cbn; [now split |].
  destruct (compatibleRef gs (gear1 c) (gear2 c)) eqn:Co;
    cbn; [| now split].
  destruct (wouldCauseJamming gs (gear1 c) (gear2 c)); cbn; [now split |].
  rewrite (overlapRef_geo distanceTo _ _ _ _ G) in Ov.
  rewrite (compatibleRef_geo _ _ _ _ G) in Co.
  split.
  - intros g' j Hg' Hj. unfold connectGears in Hg'.
    apply In_updateGear in Hg'. destruct Hg' as (g1 & Hg1 & C1).
    apply In_updateGear in Hg1. destruct Hg1 as (g & Hg & C0).
    assert (I1 : id g1 = id g).
    { destruct C0 as [-> | [_ ->]]; trivial. apply pushIfAbsent_id. }
    assert (I' : id g' = id g).
    { destruct C1 as [-> | [_ ->]]; trivial.
      now rewrite pushIfAbsent_id. }
    assert (Old : In j (connectedTo g) ->
                  exists c0, In c0 cs /\
                    ((gear1 c0 = id g' /\ gear2 c0 = j) \/
                     (gear1 c0 = j /\ gear2 c0 = id g')) /\
                    overlapRef distanceTo B (gear1 c0) (gear2 c0) = false /\
                    compatibleRef B (gear1 c0) (gear2 c0) = true).
    { intro H. rewrite I'. now apply Ed. }
    assert (New1 : id g = gear1 c -> j = gear2 c ->
                   exists c0, In c0 cs /\
                    ((gear1 c0 = id g' /\ gear2 c0 = j) \/
                     (gear1 c0 = j /\ gear2 c0 = id g')) /\
                    overlapRef distanceTo B (gear1 c0) (gear2 c0) = false /\
                    compatibleRef B (gear1 c0) (gear2 c0) = true).
    { intros E1 E2. exists c. rewrite I'. repeat split; trivial.
      left. now split. }
    assert (New2 : id g = gear2 c -> j = gear1 c ->
                   exists c0, In c0 cs /\
                    ((gear1 c0 = id g' /\ gear2 c0 = j) \/
                     (gear1 c0 = j /\ gear2 c0 = id g')) /\
                    overlapRef distanceTo B (gear1 c0) (gear2 c0) = false /\
                    compatibleRef B (gear1 c0) (gear2 c0) = true).
    { intros E1 E2. exists c. rewrite I'. repeat split; trivial.
      right. now split. }
    destruct C1 as [-> | [D1 ->]], C0 as [-> | [D0 ->]]; auto.
    + apply pushIfAbsent_only in Hj. destruct Hj as [-> | Hj]; auto.
    + apply pushIfAbsent_only in Hj. destruct Hj as [-> | Hj]; auto.
    + rewrite pushIfAbsent_id in D1.
      apply pushIfAbsent_only in Hj. destruct Hj as [-> | Hj]; auto.
      apply pushIfAbsent_only in Hj. destruct Hj as [-> | Hj]; auto.
  - eapply Forall2_trans; [| exact G | apply connectGears_frame].
    cbn. intros a b d Gab [[Gbd _] _]. eapply sameGeo_trans; eauto.
Qed.

Lemma connectAll_edges (B : list Gear) (cs : list Candidate)
      (rest : list Candidate) :
  forall gs jam,
    Forall2 sameGeo B gs -> incl rest cs -> edgesFrom distanceTo B cs gs ->
    edgesFrom distanceTo B cs (fst (fold_left (connectStep distanceTo) rest (gs, jam))).
Proof.
  induction rest as [| c rest IH]; cbn [fold_left]; intros gs jam G Inc Ed;
    trivial.
  destruct (connectStep_edges B cs gs jam c G) as [Ed1 G1]; trivial.
  { apply Inc. now left. }
  destruct (connectStep distanceTo (gs, jam) c) as [gs1 jam1]. cbn in *.
  apply IH; trivial. intros x Hx. apply Inc. now right.
Qed.

(** After a rebuild, a gear lists another in [connectedTo] only if the two
    are within the mesh threshold, do not overlap and have the same
    module. *)
Lemma rebuild_edges (selected : option nat) (gs : list Gear) (a b : Gear) :
  NoDup (map id gs) ->
  In a (rebuild distanceTo selected gs) ->
  In b (rebuild distanceTo selected gs) ->
  In (id b) (connectedTo a) -> mayMesh distanceTo a b.
Proof.
  intros ND Ha Hb Edge.
  set (B := bare distanceTo gs).
  assert (GB : Forall2 sameGeo gs B).
  { eapply Forall2_impl; [| apply bare_frame]. cbn. intros x y (R & _).
    apply R. }
  assert (NB : NoDup (map id B)).
  { rewrite (Forall2_ids sameGeo gs B); trivial. intros x y G. apply G. }
  assert (GT : Forall2 sameGeo B (rebuild distanceTo selected gs)).
  { eapply Forall2_trans;
      [| apply (Forall2_flip _ _ _ GB) | apply (rebuild_geo distanceTo)].
    cbn. intros x y z G1 G2.
    eapply sameGeo_trans; [apply sameGeo_sym; exact G1 | exact G2]. }
  assert (Ed : edgesFrom distanceTo B (candidates distanceTo gs)
                 (fst (connectAll distanceTo B (candidates distanceTo gs)))).
  { apply connectAll_edges.
    - apply Forall2_refl_on. intros. apply sameGeo_refl.
    - apply incl_refl.
    - intros g j Hg Hj. exfalso.
      destruct (Forall2_In_r _ _ _ _ (bare_frame distanceTo gs) Hg)
        as (g0 & _ & _ & C & _).
      rewrite C in Hj. destruct Hj. }
  pose proof Ha as HaT.
  rewrite rebuild_unfold in Ha. fold B in Ha. apply in_map_iff in Ha.
  destruct Ha as (a4 & Ea & Ha4).
  assert (Ia : id a = id a4 /\ connectedTo a = connectedTo a4).
  { rewrite <- Ea.
    destruct (surfaceGear_frame selected
                (firstOverlap distanceTo B)
                (snd (connectAll distanceTo B (candidates distanceTo gs)))
                a4) as [[[I _] _] C]. now split. }
  destruct Ia as [Ia Ca]. rewrite Ca in Edge.
  destruct (Ed a4 (id b) Ha4 Edge) as (c & Hc & Or & Ov & Co).
  unfold candidates in Hc. apply (proj1 (In_sortByDistance _ _)) in Hc.
  fold B in Hc.
  destruct (potentialConnections_pairs B c Hc) as (x & y & Hp & E1 & E2 & Rg).
  destruct (pairs_In _ _ _ Hp) as [Hx Hy].
  unfold overlapRef in Ov. unfold compatibleRef in Co.
  rewrite E1, E2 in Ov, Co.
  rewrite (findGear_In B x NB Hx), (findGear_In B y NB Hy) in Ov, Co.
  assert (M : mayMesh distanceTo x y) by (now repeat split).
  assert (At : forall u v, In u B -> In v (rebuild distanceTo selected gs) ->
                           id u = id v -> sameGeo u v).
  { intros u v Hu Hv E.
    apply (Forall2_at_id sameGeo B (rebuild distanceTo selected gs) u v);
      trivial.
    intros g g' G. apply G. }
  destruct Or as [[O1 O2] | [O1 O2]].
  - apply (mayMesh_geo x a y b); trivial; apply At; trivial; congruence.
  - apply mayMesh_sym.
    apply (mayMesh_geo x b y a); trivial; apply At; trivial; congruence.
Qed.

End Edges.

(* ================================================================== *)
(** * The errors a rebuild shows *)

Lemma errorState_sameErrors g g' :
  sameErrors g g' -> errorState g' = errorState g.
Proof. intros (W & J & V). unfold errorState. now rewrite W, J, V. Qed.

Lemma errorState_cleared g : errorState (clearIncompatibleState g) = NoError.
Proof.
  unfold clearIncompatibleState, errorState.
  destruct (incompatibleWith g) eqn:E; cbn; trivial. now rewrite E.
Qed.

Lemma surfaceGear_not_incompatible selected overlap jamming g w :
  errorState (surfaceGear selected overlap jamming g) = Incompatible w ->
  surfaceGear selected overlap jamming g = g.
Proof.
  unfold surfaceGear.
  destruct overlap as [p |]; [destruct (errorGearOf selected p) |].
  - destruct (Nat.eqb (id g) n); trivial. unfold errorState. cbn.
    discriminate.
  - destruct jamming as [p |]; [destruct (errorGearOf selected p) |]; trivial.
    destruct (Nat.eqb (id g) n); trivial. unfold errorState. cbn.
    destruct (overlapError g); discriminate.
Qed.

(** The flags of a gear after [surfaceError], when it had none before. *)
Lemma surfaceGear_flags selected overlap jamming g :
  noFlags g ->
  overlapError (surfaceGear selected overlap jamming g)
  = match overlap with
    | Some p => Nat.eqb (id g) (fst (errorGearOf selected p))
    | None => false
    end /\
  jammingError (surfaceGear selected overlap jamming g)
  = match overlap, jamming with
    | None, Some p => Nat.eqb (id g) (fst (errorGearOf selected p))
    | _, _ => false
    end.
Proof.
  intros [J V]. unfold surfaceGear.
  destruct overlap as [p |]; [destruct (errorGearOf selected p) |].
  - cbn. destruct (Nat.eqb (id g) n); cbn; now rewrite ?J, ?V.
  - destruct jamming as [p |]; [destruct (errorGearOf selected p) |].
    + cbn. destruct (Nat.eqb (id g) n); cbn; now rewrite ?J, ?V.
    + now rewrite J, V.
Qed.

Lemma filter_map_length {A} (p : A -> bool) (h : A -> A) (l : list A) :
  length (filter p (map h l)) = length (filter (fun x => p (h x)) l).
Proof.
  induction l as [| a l IH]; cbn; trivial.
  destruct (p (h a)); cbn; now rewrite IH.
Qed.

Lemma filter_none {A} (p : A -> bool) (l : list A) :
  (forall x, In x l -> p x = false) -> filter p l = [].
Proof.
  induction l as [| a l IH]; cbn; intro H; trivial.
  rewrite (H a) by now left. apply IH. intros x Hx. apply H. now right.
Qed.

Lemma count_by_id (e : nat) (l : list Gear) :
  NoDup (map id l) ->
  (length (filter (fun g => Nat.eqb (id g) e) l) <= 1)%nat /\
  (In e (map id l) ->
   length (filter (fun g => Nat.eqb (id g) e) l) = 1%nat).
Proof.
  induction l as [| a l IH]; cbn; intro ND; [split; [lia | tauto] |].
  inversion ND as [| ? ? N ND']; subst. destruct (IH ND') as [Le Eq].
  destruct (Nat.eqb (id a) e) eqn:E; cbn.
  - apply Nat.eqb_eq in E. subst e.
    rewrite filter_none; [cbn; split; trivial |].
    intros x Hx. apply Nat.eqb_neq. intro D. apply N. rewrite <- D.
    now apply in_map.
  - apply Nat.eqb_neq in E. split; trivial. intros [D | H]; [congruence |].
    now apply Eq.
Qed.

Section Shown.

Variable distanceTo : Vec3 -> Vec3 -> Q.

Lemma firstOverlap_None (l : list Gear) :
  firstOverlap distanceTo l = None <->
  forall a b, In (a, b) (pairs l) -> checkGearsOverlap distanceTo a b = false.
Proof.
  unfold firstOverlap. split.
  - intros H a b Hin.
    destruct (find _ (pairs l)) as [[x y] |] eqn:F; [discriminate |].
    apply (find_none _ _ F (a, b) Hin).
  - intro H. destruct (find _ (pairs l)) as [[x y] |] eqn:F; trivial.
    apply find_some in F. destruct F as [Hin O]. cbn in O.
    rewrite (H _ _ Hin) in O. discriminate.
Qed.

Lemma firstOverlap_Some (l : list Gear) (p : nat * nat) :
  firstOverlap distanceTo l = Some p ->
  exists a b, In (a, b) (pairs l) /\ p = (id a, id b) /\
              checkGearsOverlap distanceTo a b = true.
Proof.
  unfold firstOverlap.
  destruct (find _ (pairs l)) as [[x y] |] eqn:F; [| discriminate].
  intro E. inversion E; subst. apply find_some in F. destruct F as [Hin O].
  exists x, y. auto.
Qed.

Lemma firstOverlap_bare (gs : list Gear) :
  firstOverlap distanceTo (bare distanceTo gs) = firstOverlap distanceTo gs.
Proof.
  apply firstOverlap_geo. eapply Forall2_impl; [| apply bare_frame]. cbn.
  intros x y (R & _). apply R.
Qed.

Lemma errorGearOf_fst (selected : option nat) (i j : nat) :
  fst (errorGearOf selected (i, j)) = i \/
  fst (errorGearOf selected (i, j)) = j.
Proof.
  unfold errorGearOf. destruct (refIs selected i); [now left |].
  destruct (refIs selected j); [now right | now left].
Qed.

(** The flags after a rebuild. *)
Lemma rebuild_flags (selected : option nat) (gs : list Gear) :
  NoDup (map id gs) -> Forall okFlags gs ->
  let T := rebuild distanceTo selected gs in
  (length (filter overlapError T) <= 1)%nat /\
  (length (filter jammingError T) <= 1)%nat /\
  ((exists a b, In (a, b) (pairs gs) /\
                checkGearsOverlap distanceTo a b = true) ->
   length (filter overlapError T) = 1%nat /\ filter jammingError T = []) /\
  ((forall a b, In (a, b) (pairs gs) ->
                checkGearsOverlap distanceTo a b = false) ->
   filter overlapError T = []).
Proof.
  intros ND OK T. unfold T. rewrite rebuild_unfold.
  set (ov := firstOverlap distanceTo (bare distanceTo gs)).
  set (r := connectAll distanceTo (bare distanceTo gs)
                       (candidates distanceTo gs)).
  assert (N4 : forall g4, In g4 (fst r) -> noFlags g4).
  { intros g4 H4.
    destruct (Forall2_In_r _ _ _ _ (connected_frame distanceTo gs) H4)
      as (g & Hg & _ & E).
    eapply noFlags_sameErrors; [exact E |].
    apply clearMovedAway_noFlags, clearPositional_noFlags.
    rewrite Forall_forall in OK. now apply OK. }
  assert (I4 : map id (fst r) = map id gs).
  { eapply Forall2_ids; [| apply (connected_frame distanceTo gs)].
    cbn. intros a b [[[I _] _] _]. exact I. }
  assert (ND4 : NoDup (map id (fst r))) by now rewrite I4.
  assert (FO : forall g4, In g4 (fst r) ->
                 overlapError (surfaceGear selected ov (snd r) g4)
                 = match ov with
                   | Some p => Nat.eqb (id g4) (fst (errorGearOf selected p))
                   | None => false
                   end).
  { intros g4 H4. apply surfaceGear_flags. now apply N4. }
  assert (FJ : forall g4, In g4 (fst r) ->
                 jammingError (surfaceGear selected ov (snd r) g4)
                 = match ov, snd r with
                   | None, Some p =>
                       Nat.eqb (id g4) (fst (errorGearOf selected p))
                   | _, _ => false
                   end).
  { intros g4 H4. apply surfaceGear_flags. now apply N4. }
  assert (LO : length (filter overlapError
                         (map (surfaceGear selected ov (snd r)) (fst r)))
               = length (filter
                           (fun g4 => match ov with
                                      | Some p =>
                                          Nat.eqb (id g4)
                                            (fst (errorGearOf selected p))
                                      | None => false
                                      end) (fst r))).
  { rewrite filter_map_length. f_equal. now apply filter_ext_in. }
  assert (LJ : length (filter jammingError
                         (map (surfaceGear selected ov (snd r)) (fst r)))
               = length (filter
                           (fun g4 => match ov, snd r with
                                      | None, Some p =>
                                          Nat.eqb (id g4)
                                            (fst (errorGearOf selected p))
                                      | _, _ => false
                                      end) (fst r))).
  { rewrite filter_map_length. f_equal. now apply filter_ext_in. }
  assert (Z : forall l : list Gear, filter (fun _ => false) l = [])
    by (intro l; now apply filter_none).
  split; [| split; [| split]].
  - rewrite LO. destruct ov as [p |]; [apply count_by_id; trivial |].
    rewrite Z. cbn. lia.
  - rewrite LJ. destruct ov as [p |]; [rewrite Z; cbn; lia |].
    destruct (snd r) as [p |]; [apply count_by_id; trivial |].
    rewrite Z. cbn. lia.
  - intros (a & b & Hp & O).
    destruct ov as [p |] eqn:Eov.
    + split.
      * rewrite LO. apply count_by_id; trivial. rewrite I4.
        unfold ov in Eov. rewrite firstOverlap_bare in Eov.
        destruct (firstOverlap_Some _ _ Eov) as (x & y & Hxy & -> & _).
        destruct (pairs_In _ _ _ Hxy) as [Hx Hy].
        destruct (errorGearOf_fst selected (id x) (id y)) as [-> | ->];
          now apply in_map.
      * apply length_zero_iff_nil. rewrite LJ, Z. reflexivity.
    + exfalso. unfold ov in Eov. rewrite firstOverlap_bare in Eov.
      rewrite firstOverlap_None in Eov. rewrite (Eov _ _ Hp) in O.
      discriminate.
  - intro No. apply length_zero_iff_nil. rewrite LO.
    assert (Eov : ov = None).
    { unfold ov. rewrite firstOverlap_bare. now apply firstOverlap_None. }
    rewrite Eov, Z. reflexivity.
Qed.

(** A rebuild gives no gear a module incompatibility it did not have. *)
Lemma rebuild_adds_no_incompatibility (selected : option nat)
      (gs : list Gear) :
  Forall2 (fun g g' =>
             forall w, errorState g' = Incompatible w ->
                       errorState g = Incompatible w)
          gs (rebuild distanceTo selected gs).
Proof.
  rewrite rebuild_unfold.
  eapply (Forall2_trans _
            (fun g4 t =>
               t = surfaceGear selected
                     (firstOverlap distanceTo (bare distanceTo gs))
                     (snd (connectAll distanceTo (bare distanceTo gs)
                                      (candidates distanceTo gs))) g4));
    [| apply (connected_frame distanceTo gs) |
     apply Forall2_map_r; intros; reflexivity].
  cbn. intros g g4 t [_ E] -> w H.
  rewrite (surfaceGear_not_incompatible _ _ _ _ _ H) in H.
  rewrite (errorState_sameErrors _ _ E) in H. unfold cleaned in H.
  assert (P : errorState (clearPositional g) = errorState g \/
              errorState (clearPositional g) = NoError).
  { unfold clearPositional.
    destruct (isSome (incompatibleWith g)
              && (jammingError g || overlapError g));
      [right; apply errorState_cleared | now left]. }
  assert (M : forall x l,
             errorState (clearMovedAway distanceTo l x) = errorState x \/
             errorState (clearMovedAway distanceTo l x) = NoError).
  { intros x l. unfold clearMovedAway.
    destruct (incompatibleWith x) as [t0 |]; [| now left].
    destruct (negb (jammingError x) && negb (overlapError x)); [| now left].
    destruct (findGear t0 l); [| right; apply errorState_cleared].
    match goal with |- context [Qltb ?a ?b] => destruct (Qltb a b) end;
      [right; apply errorState_cleared | now left]. }
  destruct (M (clearPositional g) (map clearPositional gs)) as [M1 | M1];
    rewrite M1 in H; [| discriminate].
  destruct P as [P | P]; rewrite P in H; [trivial | discriminate].
Qed.

End Shown.

(* ================================================================== *)
(** * The Euclidean distance is symmetric *)

Lemma floor_scaled_compat (q q' : Q) (K : Z) :
  q == q' ->
  (Qnum q * K / Zpos (Qden q) = Qnum q' * K / Zpos (Qden q'))%Z.
Proof.
  unfold Qeq. intro E.
  rewrite <- (Z.div_mul_cancel_r (Qnum q * K) (Zpos (Qden q))
                                 (Zpos (Qden q'))) by lia.
  rewrite <- (Z.div_mul_cancel_r (Qnum q' * K) (Zpos (Qden q'))
                                 (Zpos (Qden q))) by lia.
  f_equal; [| ring].
  replace (Qnum q * K * Zpos (Qden q'))%Z
    with (Qnum q * Zpos (Qden q') * K)%Z by ring.
  rewrite E. ring.
Qed.

Lemma sqrt6_compat (q q' : Q) : q == q' -> sqrt6 q = sqrt6 q'.
Proof.
  intro E. unfold sqrt6. now rewrite (floor_scaled_compat q q' _ E).
Qed.

Lemma euclid_sym (p q : Vec3) : euclid p q == euclid q p.
Proof.
  unfold euclid. rewrite (sqrt6_compat _ (vx (vsub q p) * vx (vsub q p)
                                          + vy (vsub q p) * vy (vsub q p)
                                          + vz (vsub q p) * vz (vsub q p)));
    [reflexivity |].
  cbn. ring.
Qed.

(* ================================================================== *)
(** * The rebuild: idempotence, overlap, incompatibility *)

Section RebuildTwice.

Variable distanceTo : Vec3 -> Vec3 -> Q.

(** C8: a second rebuild right after a first one changes nothing: every
    gear has the same [connectedTo] and the same error as after the first.
    This holds for every well-formed registry, hence in every state the
    simulator can be in (lemma [reachable_wellFormed]). *)
Theorem rebuild_is_idempotent (s : Simulator) :
  wellFormed s ->
  let once := updateConnections distanceTo s in
  let twice := updateConnections distanceTo once in
  twice = once /\ graph twice = graph once /\ errors twice = errors once.
Proof.
  intros (_ & OK & _) once twice.
  assert (E : twice = once).
  { unfold twice, once, updateConnections, setGears. cbn.
    now rewrite rebuild_twice. }
  now rewrite E.
Qed.

End RebuildTwice.

Lemma triangle_reachable : Reachable euclid unit (after triangleScene).
Proof. exists triangleScene. vm_compute. reflexivity. Qed.

Lemma rebuild_is_idempotent_witness :
  updateConnections euclid (updateConnections euclid (after triangleScene))
  = updateConnections euclid (after triangleScene).
Proof.
  exact (proj1 (rebuild_is_idempotent euclid (after triangleScene)
                  (reachable_wellFormed euclid unit _ triangle_reachable))).
Defined.

Section OverlapAndModule.

Variable distanceTo : Vec3 -> Vec3 -> Q.
Hypothesis distanceTo_sym : forall p q, distanceTo p q == distanceTo q p.

(** C5: two gears overlap exactly when the distance between their centres
    is below 0.9 times the ideal distance, half the sum of their pitch
    diameters, whatever their modules; after a rebuild no gear lists in
    [connectedTo] a gear it overlaps; at most one gear carries an overlap
    error, and when some pair overlaps exactly one gear does and none
    carries a jamming error.  This holds for every well-formed registry,
    hence in every state the simulator can be in, and for every symmetric
    distance. *)
Theorem overlap_is_never_connected_and_shown_first (s : Simulator) :
  wellFormed s ->
  let s' := updateConnections distanceTo s in
  (forall a b,
      checkGearsOverlap distanceTo a b = true <->
      distanceTo (position a) (position b)
      < (9 # 10) * ((pitchDiameter (params a) + pitchDiameter (params b)) / 2))
  /\
  (forall a b,
      In a (gears s') -> In b (gears s') ->
      checkGearsOverlap distanceTo a b = true ->
      ~ In (id b) (connectedTo a)) /\
  (length (filter overlapError (gears s')) <= 1)%nat /\
  ((exists a b, In (a, b) (pairs (gears s)) /\
                checkGearsOverlap distanceTo a b = true) ->
   length (filter overlapError (gears s')) = 1%nat /\
   filter jammingError (gears s') = []).
Proof.
  intros (ND & OK & _) s'.
  destruct (rebuild_flags distanceTo (selectedGear s) (gears s) ND OK)
    as (L1 & _ & Some1 & _).
  split; [| split; [| split]]; trivial.
  - intros a b. unfold checkGearsOverlap, currentDistance, idealDistance.
    rewrite Qltb_lt. now rewrite (Qmult_comm (9 # 10)).
  - intros a b Ha Hb O Edge.
    destruct (rebuild_edges distanceTo distanceTo_sym _ _ a b ND Ha Hb Edge)
      as (_ & No & _).
    congruence.
Qed.

(** C6, as amended: after a rebuild no gear lists in [connectedTo] a gear
    whose module differs from its own by 0.001 or more, whether or not the
    two are within the mesh threshold; the rebuild itself flags no pair as
    incompatible: a gear shows a module incompatibility after it only if it
    showed the same one before.  This holds for every well-formed registry
    and every symmetric distance. *)
Theorem incompatible_pair_is_not_connected (s : Simulator) :
  wellFormed s ->
  let s' := updateConnections distanceTo s in
  (forall a b,
      In a (gears s') -> In b (gears s') ->
      (1 # 1000) <= Qabs (module (params a) - module (params b)) ->
      ~ In (id b) (connectedTo a)) /\
  Forall2 (fun g g' =>
             forall w, errorState g' = Incompatible w ->
                       errorState g = Incompatible w)
          (gears s) (gears s').
Proof.
  intros (ND & OK & _) s'.
  split; [| apply rebuild_adds_no_incompatibility].
  intros a b Ha Hb D Edge.
  destruct (rebuild_edges distanceTo distanceTo_sym _ _ a b ND Ha Hb Edge)
    as (_ & _ & Co).
  unfold areGearsCompatible in Co. apply Qltb_lt in Co.
  apply Qlt_not_le in Co. contradiction.
Qed.

End OverlapAndModule.

Lemma overlapScene_reachable : Reachable euclid unit (after overlapScene).
Proof. exists overlapScene. vm_compute. reflexivity. Qed.

Lemma overlap_is_never_connected_witness :
  (length (filter overlapError
             (gears (updateConnections euclid (after overlapScene)))) <= 1)%nat.
Proof.
  exact (proj1 (proj2 (proj2
           (overlap_is_never_connected_and_shown_first
              euclid euclid_sym (after overlapScene)
              (reachable_wellFormed euclid unit _ overlapScene_reachable))))).
Defined.

Lemma mismatchScene_reachable : Reachable euclid unit (after mismatchScene).
Proof. exists mismatchScene. vm_compute. reflexivity. Qed.

Lemma incompatible_pair_is_not_connected_witness :
  Forall2 (fun g g' =>
             forall w, errorState g' = Incompatible w ->
                       errorState g = Incompatible w)
          (gears (after mismatchScene))
          (gears (updateConnections euclid (after mismatchScene))).
Proof.
  exact (proj2 (incompatible_pair_is_not_connected
                  euclid euclid_sym (after mismatchScene)
                  (reachable_wellFormed euclid unit _
                                        mismatchScene_reachable))).
Defined.

(** Two gears of different modules at exactly their ideal distance: the
    rebuild connects neither and flags neither. *)
Lemma rebuild_does_not_flag_incompatibility :
  let before :=
    after [EvAddGear (fields 20 2); EvAddGear (fields 20 3);
           EvMove 2 (at2 50 0)] in
  let s := updateConnections euclid before in
  Reachable euclid unit before /\
  (exists a b,
      gears s = [a; b] /\
      currentDistance euclid a b == idealDistance a b /\
      Qabs (currentDistance euclid a b - idealDistance a b) < meshThreshold /\
      (1 # 1000) <= Qabs (module (params a) - module (params b))) /\
  graph s = [(1, []); (2, [])]%nat /\
  errors s = [(1%nat, NoError); (2%nat, NoError)] /\
  forall g, In g (gears s) -> incompatibleWith g = None.
Proof.
  cbv zeta. split.
  - exists [EvAddGear (fields 20 2); EvAddGear (fields 20 3);
            EvMove 2 (at2 50 0)].
    vm_compute. reflexivity.
  - split.
    + do 2 eexists. split; [vm_compute; reflexivity |].
      split; [reflexivity |]. split; [reflexivity | discriminate].
    + split; [vm_compute; reflexivity |].
      split; [vm_compute; reflexivity |].
      intros g H. vm_compute in H.
      destruct H as [<- | [<- | []]]; reflexivity.
Qed.

(* ================================================================== *)
(** * The ranges of the parameters *)

Section UpdateClamps.

Variable distanceTo : Vec3 -> Vec3 -> Q.

(** [updateSelectedGearParams] clamps: whatever numbers the five fields
    hold, the selected gear ends with parameters within the ranges. *)
Lemma updateSelectedGearParams_clamps (s s' : Simulator) (inp : ParamInputs)
      (sel : nat) (g' : Gear) :
  selectedGear s = Some sel ->
  inRegistry (gears s) sel = true ->
  updateSelectedGearParams distanceTo s inp = Some s' ->
  findGear sel (gears s') = Some g' ->
  inBounds (params g').
Proof.
  intros Sel Reg U F. unfold updateSelectedGearParams in U.
  rewrite Sel, Reg in U. cbn in U.
  destruct (in_teeth inp) as [t |]; [| discriminate].
  destruct (in_module inp) as [m |]; [| discriminate].
  destruct (in_pressureAngle inp) as [pa |]; [| discriminate].
  destruct (in_thickness inp) as [th |]; [| discriminate].
  destruct (in_boreDiameter inp) as [bd |]; [| discriminate].
  inversion U; subst s'; clear U.
  unfold updateConnections, setGears in F. cbn [gears selectedGear] in F.
  match type of F with
  | findGear _ (rebuild _ _ ?l) = _ => set (gs1 := l) in *
  end.
  assert (Fr : Forall2 (fun g t => id t = id g /\ params t = params g)
                       gs1 (rebuild distanceTo (selectedGear s) gs1)).
  { eapply Forall2_impl; [| apply rebuild_frame]. cbn.
    intros a b [(I & _ & P) _]. now split. }
  pose proof (findGear_Forall2 _ _ _ sel Fr) as K. rewrite F in K.
  unfold gs1 in K. rewrite findGear_updateGear_same in K by reflexivity.
  destruct (findGear sel (gears s)) as [g0 |]; cbn in K; [| contradiction].
  rewrite K. unfold inBounds. cbn.
  repeat split; apply clamp_bounds; discriminate.
Qed.

End UpdateClamps.

(** What [addGear] stores is what the fields hold, whatever it is. *)
Lemma addGear_stores_the_fields (s : Simulator) (t m pa th bd : Q) :
  ~ t == 0 -> ~ m == 0 -> ~ pa == 0 -> ~ th == 0 -> ~ bd == 0 ->
  exists g,
    gears (addGear s (mkParamInputs (Some t) (Some m) (Some pa) (Some th)
                                    (Some bd)))
    = gears s ++ [g] /\
    teeth (params g) = t /\ module (params g) = m /\
    pressureAngle (params g) = pa /\ thickness (params g) = th /\
    boreDiameter (params g) = bd.
Proof.
  intros Ht Hm Hpa Hth Hbd. eexists. split; [reflexivity |]. cbn.
  fold (orElse t 20) (orElse m 2) (orElse pa 20) (orElse th 5) (orElse bd 5).
  now rewrite !orElse_nonzero.
Qed.

(** C7, on the code: [addGear] does not clamp.  With 200 teeth, module 50,
    pressure angle 90, thickness 100 and bore 100 in the fields, the gear
    it adds has exactly these parameters, each above its range. *)
Theorem addGear_does_not_clamp :
  let s := addGear initial
             (mkParamInputs (Some 200) (Some 50) (Some 90) (Some 100)
                            (Some 100)) in
  exists g,
    gears s = [g] /\
    teeth (params g) = 200 /\ module (params g) = 50 /\
    pressureAngle (params g) = 90 /\ thickness (params g) = 100 /\
    boreDiameter (params g) = 100 /\
    ~ teeth (params g) <= 100 /\ ~ module (params g) <= 10 /\
    ~ pressureAngle (params g) <= 25 /\ ~ thickness (params g) <= 20 /\
    ~ boreDiameter (params g) <= 20 /\
    ~ inBounds (params g).
Proof.
  cbv zeta. eexists. split; [reflexivity |]. cbn.
  repeat split; intro H; now apply H.
Qed.

(* ================================================================== *)
(** * The shape of the graph *)

Lemma walk_app adj n m a b c :
  walk adj n a b -> walk adj m b c -> walk adj (n + m) a c.
Proof.
  induction 1 as [| n a x b Hx W IH]; cbn; intro W2; trivial.
  econstructor; eauto.
Qed.

(** In a graph whose edges go both ways a walk can be walked back. *)
Lemma walk_reverse adj n a b :
  (forall x y, In y (adj x) -> In x (adj y)) ->
  walk adj n a b -> walk adj n b a.
Proof.
  intros Sym W. induction W as [| n a x b Hx W IH]; [constructor |].
  eapply walk_snoc; [exact IH |]. now apply Sym.
Qed.

Lemma pathLength_reverse adj a b k :
  (forall x y, In y (adj x) -> In x (adj y)) ->
  pathLength adj a b k -> pathLength adj b a k.
Proof.
  intros Sym (K & W & Least). repeat split; trivial.
  - now apply walk_reverse.
  - intros m M Wm. apply Least; trivial. now apply walk_reverse.
Qed.

Lemma walk_mono (adj adj' : nat -> list nat) n a b :
  (forall x y, In y (adj x) -> In y (adj' x)) ->
  walk adj n a b -> walk adj' n a b.
Proof.
  intros Sub W. induction W; econstructor; eauto.
Qed.

(** Along a walk the colour changes with every edge. *)
Lemma walk_parity (gs : list Gear) (col : nat -> bool) n a b :
  twoColoured gs col -> walk (neighbours gs) n a b ->
  col b = xorb (col a) (Nat.odd n).
Proof.
  intros C W. induction W as [| n a x b Hx W IH].
  - cbn. now rewrite xorb_false_r.
  - rewrite IH. rewrite (C a x Hx). rewrite Nat.odd_succ, <- Nat.negb_odd.
    destruct (col a), (Nat.odd n); reflexivity.
Qed.

Lemma reachb_spec (gs : list Gear) (a b : nat) :
  reachb gs a b = true <-> reach (neighbours gs) a b.
Proof.
  unfold reachb. pose proof (closingCycle_spec gs a b) as S.
  rewrite orb_true_iff, Nat.eqb_eq. split.
  - intros [E | H]; [subst; apply reach_refl |].
    destruct (closingCycle gs a b); [| discriminate].
    destruct S as (k & _ & _ & W & _). now exists k.
  - intros [n W]. destruct n as [| n].
    + inversion W; subst. now left.
    + right. destruct (closingCycle gs a b); trivial.
      exfalso. exact (S n W).
Qed.

Lemma In_pushed (j : nat) (l : list nat) (b : nat) :
  In b (pushed j l) <-> In b l \/ b = j.
Proof.
  unfold pushed. destruct (includes l j) eqn:E.
  - apply includes_In in E. split; [tauto |]. intros [H | H]; subst; trivial.
  - rewrite in_app_iff. cbn. intuition.
Qed.

Lemma NoDup_pushed (j : nat) (l : list nat) : NoDup l -> NoDup (pushed j l).
Proof.
  unfold pushed. destruct (includes l j) eqn:E; trivial.
  apply includes_not_In in E. intro ND.
  induction l as [| a l IH]; cbn.
  - constructor; [intros [] | constructor].
  - inversion ND; subst. constructor.
    + rewrite in_app_iff. cbn. intros [H | [H | []]]; [tauto | subst].
      apply E. now left.
    + apply IH; trivial. intro H. apply E. now right.
Qed.

Lemma connectedTo_pushIfAbsent (j : nat) (g : Gear) :
  connectedTo (pushIfAbsent j g) = pushed j (connectedTo g).
Proof.
  unfold pushIfAbsent, pushed. now destruct (includes (connectedTo g) j).
Qed.

Lemma findGear_registered (gs : list Gear) (i : nat) :
  In i (map id gs) -> exists g, findGear i gs = Some g.
Proof.
  intro H. destruct (findGear i gs) eqn:E; [eauto |].
  apply findGear_None in E. contradiction.
Qed.

(** The adjacency lists after [connectGears]. *)
Lemma neighbours_connectGears (gs : list Gear) (i j a : nat) :
  i <> j -> In i (map id gs) -> In j (map id gs) ->
  neighbours (connectGears gs i j) a
  = if Nat.eqb a i then pushed j (neighbours gs i)
    else if Nat.eqb a j then pushed i (neighbours gs j)
    else neighbours gs a.
Proof.
  intros D Hi Hj. unfold neighbours, connectGears.
  destruct (findGear_registered gs i Hi) as [gi Ei].
  destruct (findGear_registered gs j Hj) as [gj Ej].
  destruct (Nat.eqb_spec a i) as [-> | Ni].
  - rewrite findGear_updateGear_other by (trivial || apply pushIfAbsent_id).
    rewrite findGear_updateGear_same by apply pushIfAbsent_id.
    rewrite Ei. cbn. apply connectedTo_pushIfAbsent.
  - destruct (Nat.eqb_spec a j) as [-> | Nj].
    + rewrite findGear_updateGear_same by apply pushIfAbsent_id.
      rewrite findGear_updateGear_other
        by (try apply pushIfAbsent_id; now apply not_eq_sym).
      rewrite Ej. cbn. apply connectedTo_pushIfAbsent.
    + rewrite !findGear_updateGear_other
        by (trivial || apply pushIfAbsent_id).
      reflexivity.
Qed.

Lemma linked_connectGears (gs : list Gear) (i j a b : nat) :
  i <> j -> In i (map id gs) -> In j (map id gs) ->
  linked (connectGears gs i j) a b <->
  linked gs a b \/ (a = i /\ b = j) \/ (a = j /\ b = i).
Proof.
  intros D Hi Hj. unfold linked.
  rewrite neighbours_connectGears by trivial.
  destruct (Nat.eqb_spec a i) as [-> | Ni].
  - rewrite In_pushed. intuition congruence.
  - destruct (Nat.eqb_spec a j) as [-> | Nj].
    + rewrite In_pushed. intuition congruence.
    + intuition congruence.
Qed.

Lemma connectGears_ids (gs : list Gear) (i j : nat) :
  map id (connectGears gs i j) = map id gs.
Proof.
  unfold connectGears. now rewrite !updateGear_ids by apply pushIfAbsent_id.
Qed.

(** [connectGears] on two different gears of the registry keeps the shape
    of the graph. *)
Lemma graphShape_connectGears (gs : list Gear) (i j : nat) :
  i <> j -> In i (map id gs) -> In j (map id gs) ->
  graphShape gs -> graphShape (connectGears gs i j).
Proof.
  intros D Hi Hj [Sym Irr Once Closed]. split.
  - intros a b. rewrite !linked_connectGears by trivial.
    intros [H | [[-> ->] | [-> ->]]]; auto.
  - intros a. rewrite linked_connectGears by trivial.
    intros [H | [[-> E] | [-> E]]]; [now apply (Irr a) | |]; congruence.
  - intro a. rewrite neighbours_connectGears by trivial.
    destruct (Nat.eqb a i); [now apply NoDup_pushed |].
    destruct (Nat.eqb a j); [now apply NoDup_pushed | apply Once].
  - intros a b. rewrite linked_connectGears by trivial.
    rewrite connectGears_ids.
    intros [H | [[-> ->] | [-> ->]]]; trivial. eapply Closed; eauto.
Qed.

(** An edge that [wouldCauseJamming] lets through keeps the graph
    two-colourable: its ends are either an odd number of edges apart, or
    not joined at all, and then one side can swap its colours. *)
Lemma bipartite_connectGears (gs : list Gear) (i j : nat) :
  i <> j -> In i (map id gs) -> In j (map id gs) ->
  graphShape gs -> bipartite gs ->
  wouldCauseJamming gs i j = false ->
  bipartite (connectGears gs i j).
Proof.
  intros D Hi Hj Sh [col C] NJ.
  assert (Sym : forall x y, In y (neighbours gs x) -> In x (neighbours gs y))
    by apply (shape_sym gs Sh).
  pose proof (closingCycle_spec gs i j) as S.
  destruct (closingCycle gs i j) as [n |] eqn:E.
  - (* joined: the shortest way is odd *)
    destruct S as (k & -> & P).
    assert (O : Nat.odd (S k) = false).
    { destruct (Nat.odd (S k)) eqn:O; trivial.
      assert (T : wouldCauseJamming gs i j = true)
        by (apply wouldCauseJamming_spec; eauto).
      congruence. }
    exists col. intros a b. rewrite linked_connectGears by trivial.
    destruct P as (_ & W & _).
    pose proof (walk_parity gs col k i j C W) as Par.
    rewrite Nat.odd_succ, <- Nat.negb_odd in O.
    apply negb_false_iff in O. rewrite O in Par.
    intros [H | [[-> ->] | [-> ->]]]; [now apply C | |].
    + rewrite Par. now destruct (col i).
    + rewrite Par. now destruct (col i).
  - (* apart: swap the colours on the side of [j] when they agree *)
    set (col' := fun x =>
           if reachb gs j x && eqb (col i) (col j)
           then negb (col x) else col x).
    assert (Rj : reachb gs j j = true) by (apply reachb_spec, reach_refl).
    assert (Ri : reachb gs j i = false).
    { destruct (reachb gs j i) eqn:R; trivial.
      apply reachb_spec in R. destruct R as [n W].
      apply walk_reverse in W; trivial.
      destruct n as [| n]; [inversion W; congruence |].
      exfalso. exact (S n W). }
    exists col'. intros a b. rewrite linked_connectGears by trivial.
    intros [H | [[-> ->] | [-> ->]]].
    + unfold col'.
      assert (R : reachb gs j b = reachb gs j a).
      { apply eq_true_iff_eq. rewrite !reachb_spec. split; intro R.
        - eapply reach_snoc; [exact R |]. now apply Sym.
        - eapply reach_snoc; eauto. }
      rewrite R, (C a b H).
      now destruct (reachb gs j a && eqb (col i) (col j)).
    + unfold col'. rewrite Rj, Ri. cbn.
      destruct (col i), (col j); reflexivity.
    + unfold col'. rewrite Rj, Ri. cbn.
      destruct (col i), (col j); reflexivity.
Qed.

(** ** The operations keep the graph in shape *)

Lemma evenGraph_ext (gs gs' : list Gear) :
  (forall a, neighbours gs' a = neighbours gs a) ->
  incl (map id gs) (map id gs') ->
  evenGraph gs -> evenGraph gs'.
Proof.
  intros N I [[Sym Irr Once Closed] [col C]]. split; [split |].
  - intros a b. unfold linked. rewrite !N. apply Sym.
  - intros a. unfold linked. rewrite N. apply Irr.
  - intro a. rewrite N. apply Once.
  - intros a b. unfold linked. rewrite N. intro H. apply I. eauto.
  - exists col. intros a b. unfold linked. rewrite N. apply C.
Qed.

Lemma evenGraph_sameLink (gs gs' : list Gear) :
  Forall2 sameLink gs gs' -> evenGraph gs -> evenGraph gs'.
Proof.
  intro F. apply evenGraph_ext.
  - intro a. now apply neighbours_sameLink.
  - rewrite (Forall2_ids sameLink gs gs'); [apply incl_refl | | exact F].
    now intros a b [I _].
Qed.

Lemma evenGraph_updateGear (i : nat) (f : Gear -> Gear) (gs : list Gear) :
  (forall g, sameLink g (f g)) ->
  evenGraph gs -> evenGraph (updateGear i f gs).
Proof.
  intro Hf. apply evenGraph_sameLink. unfold updateGear.
  apply Forall2_map_r. intros g _.
  destruct (Nat.eqb (id g) i); [apply Hf | now split].
Qed.

(** A registry without edges. *)
Lemma evenGraph_no_edges (gs : list Gear) :
  (forall g, In g gs -> connectedTo g = []) -> evenGraph gs.
Proof.
  intro E.
  assert (N : forall a, neighbours gs a = []).
  { intro a. unfold neighbours. destruct (findGear a gs) as [g |] eqn:F;
      trivial. apply findGear_Some in F. now apply E. }
  split; [split |]; unfold linked.
  - intros a b. rewrite N. intros [].
  - intros a. rewrite N. intros [].
  - intro a. rewrite N. constructor.
  - intros a b. rewrite N. intros [].
  - exists (fun _ => true). intros a b. unfold linked. rewrite N. intros [].
Qed.

Lemma evenGraph_connectGears (gs : list Gear) (i j : nat) :
  i <> j -> In i (map id gs) -> In j (map id gs) ->
  wouldCauseJamming gs i j = false ->
  evenGraph gs -> evenGraph (connectGears gs i j).
Proof.
  intros D Hi Hj NJ [Sh B]. split.
  - now apply graphShape_connectGears.
  - now apply bipartite_connectGears.
Qed.

Lemma pairs_distinct (l : list Gear) (a b : Gear) :
  NoDup (map id l) -> In (a, b) (pairs l) -> id a <> id b.
Proof.
  induction l as [| x l IH]; cbn; [intros _ [] |].
  intros ND H. inversion ND as [| ? ? N ND']; subst.
  apply in_app_iff in H. destruct H as [H | H]; [| now apply IH].
  apply in_map_iff in H. destruct H as (y & E & Hy). inversion E; subst.
  intro Eq. apply N. rewrite Eq. now apply in_map.
Qed.

Section GraphOfRebuild.

Variable distanceTo : Vec3 -> Vec3 -> Q.
Variable normalize : Vec3 -> Vec3.

Lemma connectStep_evenGraph (gs : list Gear) (jam : option (nat * nat))
      (c : Candidate) :
  gear1 c <> gear2 c -> evenGraph gs ->
  evenGraph (fst (connectStep distanceTo (gs, jam) c)).
Proof.
  intros D G. unfold connectStep.
  destruct (overlapRef distanceTo gs (gear1 c) (gear2 c)); trivial.
  destruct (compatibleRef gs (gear1 c) (gear2 c)) eqn:C; cbn; trivial.
  apply compatibleRef_present in C. destruct C as [H1 H2].
  destruct (wouldCauseJamming gs (gear1 c) (gear2 c)) eqn:J; cbn; trivial.
  now apply evenGraph_connectGears.
Qed.

Lemma connectAll_evenGraph (cs : list Candidate) :
  forall gs jam,
    (forall c, In c cs -> gear1 c <> gear2 c) -> evenGraph gs ->
    evenGraph (fst (fold_left (connectStep distanceTo) cs (gs, jam))).
Proof.
  induction cs as [| c cs IH]; intros gs jam D G; cbn [fold_left]; trivial.
  pose proof (connectStep_evenGraph gs jam c (D c (or_introl eq_refl)) G)
    as G1.
  destruct (connectStep distanceTo (gs, jam) c) as [gs1 jam1].
  apply IH; trivial. intros x Hx. apply D. now right.
Qed.

Lemma candidates_distinct (gs : list Gear) (c : Candidate) :
  NoDup (map id gs) -> In c (candidates distanceTo gs) ->
  gear1 c <> gear2 c.
Proof.
  intros ND H. unfold candidates in H.
  apply (proj1 (In_sortByDistance _ _)) in H.
  apply potentialConnections_pairs in H.
  destruct H as (a & b & P & -> & -> & _).
  apply (pairs_distinct (bare distanceTo gs)); trivial.
  rewrite (Forall2_ids _ gs (bare distanceTo gs)
             (fun a b R => proj1 (proj1 (proj1 R))) (bare_frame distanceTo gs)).
  exact ND.
Qed.

(** Whatever the graph was, a rebuild leaves one in shape. *)
Lemma rebuild_evenGraph (selected : option nat) (gs : list Gear) :
  NoDup (map id gs) -> evenGraph (rebuild distanceTo selected gs).
Proof.
  intro ND. rewrite rebuild_unfold.
  eapply evenGraph_sameLink;
    [apply Forall2_map_r; intros g _; split;
     [apply surfaceGear_frame | apply surfaceGear_frame] |].
  unfold connectAll. apply connectAll_evenGraph.
  - intros c. now apply candidates_distinct.
  - apply evenGraph_no_edges. intros g Hg.
    destruct (Forall2_In_r _ _ _ g (bare_frame distanceTo gs) Hg)
      as (x & _ & _ & E & _).
    exact E.
Qed.

Lemma snapLoop_evenGraph (gs : list Gear) (moving : Gear)
      (rest : list Gear) :
  In moving gs -> incl rest gs -> evenGraph gs ->
  evenGraph (fst (snapLoop distanceTo normalize gs moving rest)).
Proof.
  intros Hm Sub G.
  assert (Err : forall w j o g, sameLink g (setError w j o g))
    by (intros; now split).
  induction rest as [| gear rest IH]; cbn; trivial.
  assert (Sub' : incl rest gs) by (intros x Hx; apply Sub; now right).
  destruct (Nat.eqb_spec (id gear) (id moving)) as [E | D]; [now apply IH |].
  destruct (checkGearsOverlap distanceTo moving gear); cbn;
    [apply evenGraph_updateGear; trivial; intro; apply Err |].
  match goal with |- context [if ?c then _ else _] => destruct c end;
    [| now apply IH].
  destruct (negb (areGearsCompatible moving gear)); cbn;
    [apply evenGraph_updateGear; trivial; intro; apply Err |].
  destruct (wouldCauseJamming gs (id moving) (id gear)) eqn:J; cbn;
    [apply evenGraph_updateGear; trivial; intro; apply Err |].
  unfold snapTo.
  set (gs1 := if isSome (incompatibleWith moving)
              then updateGear (id moving) clearIncompatibleState gs
              else gs).
  assert (L1 : Forall2 sameLink gs gs1).
  { unfold gs1. destruct (isSome (incompatibleWith moving)).
    - apply Forall2_map_r. intros g _.
      destruct (Nat.eqb (id g) (id moving)); [| now split].
      split; [apply clearIncompatibleState_frame |].
      apply clearIncompatibleState_frame.
    - apply Forall2_refl_on. now split. }
  match goal with |- context [updateGear ?i ?f gs1] =>
    set (gs2 := updateGear i f gs1) end.
  assert (L2 : Forall2 sameLink gs gs2).
  { apply (Forall2_trans sameLink sameLink sameLink gs gs1 gs2);
      [| exact L1 | apply Forall2_map_r].
    - intros a b c [I1 C1] [I2 C2]. split; congruence.
    - intros g _. destruct (Nat.eqb (id g) (id moving)); now split. }
  assert (G2 : evenGraph gs2) by (eapply evenGraph_sameLink; eauto).
  destruct (includes (connectedTo moving) (id gear)); trivial.
  assert (Ids : map id gs2 = map id gs).
  { apply (Forall2_ids sameLink); trivial. now intros a b [I _]. }
  apply evenGraph_connectGears; trivial.
  - now apply not_eq_sym.
  - rewrite Ids. now apply in_map.
  - rewrite Ids. apply in_map, Sub. now left.
  - now rewrite (wouldCauseJamming_sameLink gs gs2).
Qed.

End GraphOfRebuild.

Lemma findGear_filter (d a : nat) (l : list Gear) :
  findGear a (filter (fun g => negb (Nat.eqb (id g) d)) l)
  = if Nat.eqb a d then None else findGear a l.
Proof.
  unfold findGear. induction l as [| g l IH]; cbn.
  - now destruct (Nat.eqb a d).
  - destruct (Nat.eqb_spec (id g) d) as [E | N]; cbn.
    + rewrite IH. destruct (Nat.eqb_spec a d) as [| Na]; trivial.
      destruct (Nat.eqb_spec (id g) a); [congruence | trivial].
    + destruct (Nat.eqb_spec (id g) a) as [E | Na]; [| exact IH].
      destruct (Nat.eqb_spec a d); [congruence | trivial].
Qed.

Lemma findGear_map (h : Gear -> Gear) (a : nat) (l : list Gear) :
  (forall g, id (h g) = id g) ->
  findGear a (map h l) = option_map h (findGear a l).
Proof.
  intro Hh. unfold findGear. induction l as [| g l IH]; cbn; trivial.
  rewrite Hh. destruct (Nat.eqb (id g) a); trivial.
Qed.

Lemma findGear_app (a : nat) (l : list Gear) (g : Gear) :
  findGear a (l ++ [g])
  = match findGear a l with
    | Some x => Some x
    | None => if Nat.eqb (id g) a then Some g else None
    end.
Proof.
  unfold findGear. induction l as [| x l IH]; cbn; trivial.
  destruct (Nat.eqb (id x) a); trivial.
Qed.

Lemma neighbours_withoutGear (d a : nat) (gs : list Gear) :
  neighbours (filter (fun g => negb (Nat.eqb (id g) d)) (withoutGear d gs)) a
  = if Nat.eqb a d then []
    else filter (fun c => negb (Nat.eqb c d)) (neighbours gs a).
Proof.
  unfold neighbours, withoutGear.
  rewrite findGear_filter. destruct (Nat.eqb a d); trivial.
  rewrite findGear_map by reflexivity.
  unfold updateGear. rewrite map_map.
  rewrite findGear_map.
  - destruct (findGear a gs) as [g |]; cbn; trivial.
    destruct (Nat.eqb _ d), (refIs (incompatibleWith g) d);
      trivial; repeat rewrite (proj2 (clearIncompatibleState_frame _));
      trivial.
  - intro g.
    destruct (refIs (incompatibleWith g) d);
      match goal with |- context [if ?c then _ else _] => destruct c end;
      trivial;
      repeat (etransitivity;
              [apply (proj1 (proj1 (proj1 (clearIncompatibleState_frame _))))
              |]); trivial.
Qed.

Lemma withoutGear_evenGraph (d : nat) (gs : list Gear) :
  evenGraph gs ->
  evenGraph (filter (fun g => negb (Nat.eqb (id g) d)) (withoutGear d gs)).
Proof.
  intros [[Sym Irr Once Closed] [col C]].
  set (gs' := filter _ _).
  assert (L : forall a b,
             linked gs' a b <-> a <> d /\ b <> d /\ linked gs a b).
  { intros a b. unfold linked, gs'. rewrite neighbours_withoutGear.
    destruct (Nat.eqb_spec a d) as [E | N]; [cbn; tauto |].
    rewrite filter_In, negb_true_iff, Nat.eqb_neq. tauto. }
  split; [split |].
  - intros a b. rewrite !L. intuition.
  - intros a. rewrite L. intros (_ & _ & H). now apply (Irr a).
  - intro a. unfold gs'. rewrite neighbours_withoutGear.
    destruct (Nat.eqb a d); [constructor |]. apply NoDup_filter, Once.
  - intros a b. rewrite L. intros (_ & Nb & H).
    apply Closed in H. apply in_map_iff in H. destruct H as (g & E & Hg).
    destruct (findGear b gs') as [x |] eqn:F.
    + apply findGear_Some in F. destruct F as [Hx <-]. now apply in_map.
    + exfalso. unfold gs' in F. rewrite findGear_filter in F.
      destruct (Nat.eqb_spec b d); [contradiction |].
      apply findGear_None in F. apply F.
      unfold withoutGear, updateGear. rewrite !map_map.
      apply in_map_iff. exists g. split; trivial. rewrite <- E. cbn.
      destruct (refIs (incompatibleWith g) d);
        match goal with |- context [if ?c then _ else _] => destruct c end;
        trivial;
        repeat (etransitivity;
                [apply (proj1 (proj1 (proj1
                                 (clearIncompatibleState_frame _)))) |]);
        trivial.
  - exists col. intros a b. rewrite L. intros (_ & _ & H). now apply C.
Qed.

Lemma addGear_evenGraph (gs : list Gear) (g : Gear) :
  connectedTo g = [] -> evenGraph gs -> evenGraph (gs ++ [g]).
Proof.
  intro E. apply evenGraph_ext.
  - intro a. unfold neighbours. rewrite findGear_app.
    destruct (findGear a gs); trivial.
    destruct (Nat.eqb (id g) a); trivial.
  - rewrite map_app. apply incl_appl, incl_refl.
Qed.

(** ** Induction over the states the simulator can be in *)

Section Reachability.

Variable distanceTo : Vec3 -> Vec3 -> Q.
Variable normalize : Vec3 -> Vec3.

Lemma wellFormed_initial : wellFormed initial.
Proof. repeat split; constructor. Qed.

Lemma reachable_induction (P : Simulator -> Prop) :
  P initial ->
  (forall s e s',
      wellFormed s -> P s -> step distanceTo normalize s e = Some s' ->
      P s') ->
  forall s, Reachable distanceTo normalize s -> P s.
Proof.
  intros P0 Pstep s [es H].
  assert (G : forall es s0 s1,
             wellFormed s0 -> P s0 ->
             run distanceTo normalize s0 es = Some s1 -> P s1).
  { clear s es H. induction es as [| e es IH]; cbn; intros s0 s1 W0 H0 R.
    - inversion R; now subst.
    - destruct (step distanceTo normalize s0 e) as [s' |] eqn:E;
        [| discriminate].
      eapply IH; [| | exact R].
      + eapply step_wellFormed; eauto.
      + eapply Pstep; eauto. }
  eapply G; [apply wellFormed_initial | exact P0 | exact H].
Qed.



Lemma calculateGearSpeeds_sameButSpeed (s : Simulator) :
  Forall2 sameButSpeed (gears s) (gears (calculateGearSpeeds s)).
Proof.
  unfold calculateGearSpeeds. destruct (findDriver (gears s)); cbn.
  - eapply Forall2_impl; [| apply propagateFrom_frame]. cbn.
    now intros a b [S _].
  - apply Forall2_refl_on. intros. apply sameButSpeed_refl.
Qed.

Lemma step_evenGraph (s s' : Simulator) (e : Event) :
  wellFormed s -> evenGraph (gears s) ->
  step distanceTo normalize s e = Some s' -> evenGraph (gears s').
Proof.
  intros (ND & _ & _) G H.
  assert (Speeds : forall t, evenGraph (gears t) ->
                             evenGraph (gears (calculateGearSpeeds t))).
  { intros t Gt. eapply evenGraph_sameLink; [| exact Gt].
    eapply Forall2_impl; [| apply calculateGearSpeeds_sameButSpeed].
    intros a b. apply sameButSpeed_link. }
  destruct e; cbn in H.
  - inversion H; subst. cbn. now apply addGear_evenGraph.
  - inversion H; now subst.
  - unfold updateSelectedGearParams in H.
    destruct (selectedGear s) as [sel |]; [| inversion H; now subst].
    destruct (negb (inRegistry (gears s) sel)); [inversion H; now subst |].
    destruct (in_teeth inp), (in_module inp), (in_pressureAngle inp),
      (in_thickness inp), (in_boreDiameter inp); try discriminate.
    inversion H; subst. cbn. apply rebuild_evenGraph.
    now rewrite updateGear_ids.
  - inversion H; subst. unfold updateSelectedGearPosition.
    destruct (selectedGear s) as [sel |]; trivial.
    cbn. apply rebuild_evenGraph. now rewrite updateGear_ids.
  - inversion H; subst. cbn. apply evenGraph_updateGear; trivial.
    intro g. now split.
  - inversion H; subst. unfold checkSnapToMesh.
    destruct (findGear gear (gears s)) as [moving |] eqn:F; trivial.
    apply findGear_Some in F. destruct F as [Hm _].
    pose proof (snapLoop_evenGraph distanceTo normalize (gears s) moving
                  (gears s) Hm (incl_refl _) G) as G'.
    now destruct (snapLoop distanceTo normalize (gears s) moving (gears s)).
  - inversion H; subst. cbn. now apply rebuild_evenGraph.
  - inversion H; subst. unfold deleteSelectedGear.
    destruct (selectedGear s) as [d |]; trivial.
    destruct (negb (inRegistry (gears s) d)); trivial.
    cbn. now apply (withoutGear_evenGraph d).
  - inversion H; subst. cbn. apply evenGraph_no_edges. intros g [].
  - inversion H; subst. unfold play.
    destruct (find jammingError (gears s)); cbn; trivial.
    now apply Speeds.
  - inversion H; now subst.
  - inversion H; now subst.
  - inversion H; subst. now apply Speeds.
Qed.

Lemma reachable_evenGraph (s : Simulator) :
  Reachable distanceTo normalize s -> evenGraph (gears s).
Proof.
  apply (reachable_induction (fun s => evenGraph (gears s))).
  - apply evenGraph_no_edges. intros g [].
  - intros s0 e s1 W G H. eapply step_evenGraph; eauto.
Qed.

(** X1: in every state the simulator can be in, the connections are mutual:
    a gear lists another gear of the registry, never itself, lists it once,
    and is listed by it in turn. *)
Theorem connections_are_mutual (s : Simulator) (g : Gear) :
  Reachable distanceTo normalize s -> In g (gears s) ->
  NoDup (connectedTo g) /\
  forall j, In j (connectedTo g) ->
            j <> id g /\
            exists h, In h (gears s) /\ id h = j /\
                      In (id g) (connectedTo h).
Proof.
  intros R Hg.
  destruct (reachable_wellFormed distanceTo normalize s R) as (ND & _ & _).
  destruct (reachable_evenGraph s R) as [[Sym Irr Once Closed] _].
  assert (N : neighbours (gears s) (id g) = connectedTo g)
    by (unfold neighbours; now rewrite findGear_In).
  split; [rewrite <- N; apply Once |].
  intros j Hj. rewrite <- N in Hj. split.
  - intros ->. exact (Irr _ Hj).
  - apply Sym in Hj. unfold linked, neighbours in Hj.
    destruct (findGear j (gears s)) as [h |] eqn:F; [| destruct Hj].
    apply findGear_Some in F. destruct F as [Hh E]. eauto.
Qed.

(** X2: in every state the simulator can be in, the gears can be given two
    colours with every connection between a gear of one and a gear of the
    other: a way through the graph that comes back to where it started has
    an even number of edges, and any two ways between the same two gears
    are both even or both odd. *)
Theorem no_odd_cycle_is_ever_built (s : Simulator) :
  Reachable distanceTo normalize s ->
  (forall n a, walk (neighbours (gears s)) n a a -> Nat.even n = true) /\
  (forall n m a b,
      walk (neighbours (gears s)) n a b ->
      walk (neighbours (gears s)) m a b -> Nat.even n = Nat.even m).
Proof.
  intro R. destruct (reachable_evenGraph s R) as [_ [col C]].
  assert (Par : forall n m a b,
             walk (neighbours (gears s)) n a b ->
             walk (neighbours (gears s)) m a b -> Nat.odd n = Nat.odd m).
  { intros n m a b Wn Wm.
    pose proof (walk_parity _ col _ _ _ C Wn) as Pn.
    pose proof (walk_parity _ col _ _ _ C Wm) as Pm.
    rewrite Pn in Pm. destruct (col a), (Nat.odd n), (Nat.odd m);
      trivial; discriminate. }
  split.
  - intros n a W. rewrite <- Nat.negb_odd.
    rewrite (Par n 0%nat a a W (walk_here _ a)). reflexivity.
  - intros n m a b Wn Wm. rewrite <- !Nat.negb_odd. f_equal. eauto.
Qed.

End Reachability.

Lemma squareScene_reachable : Reachable euclid unit (after squareScene).
Proof. exists squareScene. vm_compute. reflexivity. Qed.

(* ================================================================== *)
(** * What the traversal establishes on every gear it reaches *)


Section SpeedLaw.

Variable adj : nat -> list nat.

(** [Fit] is what the law needs of a gear's make, [Good i g] what it says
    of the speed of the gear [g] that [i] refers to. *)
Variable Fit : Gear -> Prop.
Variable Good : nat -> Gear -> Prop.

Hypothesis Fit_speed : forall g r d, Fit g -> Fit (setSpeed r d g).

Hypothesis Good_step :
  forall current connected cur con,
    In connected (adj current) -> Fit cur -> Fit con -> Good current cur ->
    Good connected
         (setSpeed (rpm cur * (teeth (params cur) / teeth (params con)))
                   (- rotationDirection cur) con).




End SpeedLaw.




(* ================================================================== *)
(** * What each operation leaves alone *)

Lemma sameDrive_refl g : sameDrive g g.
Proof. repeat split. Qed.

Lemma sameRest_drive g g' : sameRest g g' -> sameDrive g g'.
Proof. intros ((I & _ & P) & R & D & Dr). repeat split; trivial. Qed.

Lemma sameButSpeed_make g g' : sameButSpeed g g' -> sameMake g g'.
Proof. intros (I & _ & P & _ & D & _). now repeat split. Qed.

Lemma sameMake_role g g' : sameMake g g' -> sameRole g g'.
Proof.
  intros (I & P & D). split; [exact I | split; [exact D |]].
  now rewrite P.
Qed.

Lemma sameRole_refl g : sameRole g g.
Proof. split; [| split]; trivial. Qed.

Lemma sameRole_trans a b c : sameRole a b -> sameRole b c -> sameRole a c.
Proof.
  intros (I1 & D1 & P1) (I2 & D2 & P2).
  split; [congruence | split; [congruence | auto]].
Qed.

Lemma Forall2_sameRole_trans (l1 l2 l3 : list Gear) :
  Forall2 sameRole l1 l2 -> Forall2 sameRole l2 l3 -> Forall2 sameRole l1 l3.
Proof. apply Forall2_trans. apply sameRole_trans. Qed.

Lemma movedOnly_refl m g : movedOnly m g g.
Proof. split; [apply sameDrive_refl |]. intros _. now repeat split. Qed.

Lemma movedOnly_trans m a b c :
  movedOnly m a b -> movedOnly m b c -> movedOnly m a c.
Proof.
  intros [((I1 & P1 & D1) & R1 & T1) K1] [((I2 & P2 & D2) & R2 & T2) K2].
  split; [repeat split; congruence |].
  intro N. destruct (K1 N) as [Q1 E1].
  destruct K2 as [Q2 E2]; [congruence |].
  split; [congruence |]. eapply sameErrors_trans; eauto.
Qed.

Lemma Forall2_movedOnly_trans m (l1 l2 l3 : list Gear) :
  Forall2 (movedOnly m) l1 l2 -> Forall2 (movedOnly m) l2 l3 ->
  Forall2 (movedOnly m) l1 l3.
Proof. apply Forall2_trans. apply movedOnly_trans. Qed.

Lemma updateGear_movedOnly (m : nat) (f : Gear -> Gear) (gs : list Gear) :
  (forall g, sameDrive g (f g)) ->
  Forall2 (movedOnly m) gs (updateGear m f gs).
Proof.
  intro Hf. apply Forall2_map_r. intros g _.
  destruct (Nat.eqb_spec (id g) m) as [E | N]; [| apply movedOnly_refl].
  split; [apply Hf | intro; contradiction].
Qed.

Lemma connectGears_movedOnly (m : nat) (gs : list Gear) (i j : nat) :
  Forall2 (movedOnly m) gs (connectGears gs i j).
Proof.
  eapply Forall2_impl; [| apply connectGears_frame]. cbn.
  intros a b [R E]. split; [now apply sameRest_drive |].
  intros _. split; [apply R | exact E].
Qed.

Section SnapFrame.

Variable distanceTo : Vec3 -> Vec3 -> Q.
Variable normalize : Vec3 -> Vec3.

Lemma snapTo_movedOnly (gs : list Gear) (moving gear : Gear) :
  Forall2 (movedOnly (id moving)) gs (snapTo normalize gs moving gear).
Proof.
  unfold snapTo.
  set (gs1 := if isSome (incompatibleWith moving)
              then updateGear (id moving) clearIncompatibleState gs
              else gs).
  assert (L1 : Forall2 (movedOnly (id moving)) gs gs1).
  { unfold gs1. destruct (isSome (incompatibleWith moving)).
    - apply updateGear_movedOnly. intro g. apply sameRest_drive.
      apply clearIncompatibleState_frame.
    - apply Forall2_refl_on. intros. apply movedOnly_refl. }
  match goal with |- context [updateGear ?i ?f gs1] =>
    set (gs2 := updateGear i f gs1) end.
  assert (L2 : Forall2 (movedOnly (id moving)) gs gs2).
  { eapply Forall2_movedOnly_trans; [exact L1 |].
    apply updateGear_movedOnly. intro g. repeat split. }
  destruct (includes (connectedTo moving) (id gear)); trivial.
  eapply Forall2_movedOnly_trans; [exact L2 |].
  apply connectGears_movedOnly.
Qed.

Lemma flagged_frame (m : nat) (f : Gear -> Gear) (gs : list Gear) :
  (forall g, sameDrive g (f g) /\ position (f g) = position g /\
             connectedTo (f g) = connectedTo g) ->
  Forall2 (fun g g' =>
             movedOnly m g g' /\
             (false = false ->
              position g' = position g /\ connectedTo g' = connectedTo g))
          gs (updateGear m f gs).
Proof.
  intro Hf. apply Forall2_map_r. intros g _.
  destruct (Nat.eqb_spec (id g) m) as [E | N].
  - destruct (Hf g) as (D & P & C). split; [| now split].
    split; [exact D | intro; contradiction].
  - split; [apply movedOnly_refl | now split].
Qed.

(** What checkSnapToMesh writes: on the gear that moves, its place, its
    error and its connections; on the others, their connections; and
    without a snap no place and no connection. *)
Lemma snapLoop_frame (gs : list Gear) (moving : Gear) (rest : list Gear) :
  Forall2 (fun g g' =>
             movedOnly (id moving) g g' /\
             (snd (snapLoop distanceTo normalize gs moving rest) = false ->
              position g' = position g /\ connectedTo g' = connectedTo g))
          gs (fst (snapLoop distanceTo normalize gs moving rest)).
Proof.
  assert (Err : forall w j o g,
             sameDrive g (setError w j o g) /\
             position (setError w j o g) = position g /\
             connectedTo (setError w j o g) = connectedTo g)
    by (intros; repeat split).
  induction rest as [| gear rest IH]; cbn.
  - apply Forall2_refl_on. intros g _. split; [apply movedOnly_refl |].
    now split.
  - destruct (Nat.eqb (id gear) (id moving)); trivial.
    destruct (checkGearsOverlap distanceTo moving gear); cbn [fst snd];
      [apply flagged_frame; intro; apply Err |].
    match goal with |- context [if ?c then _ else _] => destruct c end;
      trivial.
    destruct (negb (areGearsCompatible moving gear)); cbn [fst snd];
      [apply flagged_frame; intro; apply Err |].
    destruct (wouldCauseJamming gs (id moving) (id gear)); cbn [fst snd];
      [apply flagged_frame; intro; apply Err |].
    eapply Forall2_impl; [| apply snapTo_movedOnly].
    intros a b M. split; [exact M | discriminate].
Qed.

Lemma checkSnapToMesh_sameDrive (s : Simulator) (m : nat) :
  Forall2 sameDrive (gears s)
          (gears (fst (checkSnapToMesh distanceTo normalize s m))).
Proof.
  unfold checkSnapToMesh.
  destruct (findGear m (gears s)) as [moving |]; cbn.
  - pose proof (snapLoop_frame (gears s) moving (gears s)) as F.
    destruct (snapLoop distanceTo normalize (gears s) moving (gears s))
      as [gs' b]. cbn in *.
    eapply Forall2_impl; [| exact F]. cbn. now intros a b0 [[D _] _].
  - apply Forall2_refl_on. intros. apply sameDrive_refl.
Qed.

End SnapFrame.

Lemma orDefault_nonzero (x : option Q) (d : Q) :
  ~ d == 0 -> ~ orDefault x d == 0.
Proof.
  intro D. unfold orDefault. destruct x as [q |]; trivial.
  destruct (Qeq_bool q 0) eqn:E; trivial.
  intro Z. apply Qeq_bool_iff in Z. congruence.
Qed.

Lemma consistent_stored (t m pa th bd : Q) :
  ~ t == 0 -> ~ m == 0 ->
  consistentParams
    (mkGearParams t m pa th bd
       (GearGeometry.pitchDiameter
          (GearGeometry.constructor (GearGeometry.mkParams t m pa th bd)))).
Proof.
  intros T M. repeat split; trivial. cbn.
  now rewrite !orElse_nonzero.
Qed.

Lemma clamp_nonzero (lo hi x : Q) : 0 < lo -> lo <= hi -> ~ clamp lo hi x == 0.
Proof.
  intros P L Z. destruct (clamp_bounds lo hi x L) as [B _].
  rewrite Z in B. apply Qle_not_lt in B. contradiction.
Qed.

Lemma sameMake_clear g : sameMake g (clearIncompatibleState g).
Proof.
  destruct (clearIncompatibleState_frame g) as [((I & _ & P) & _ & _ & D) _].
  split; [exact I | split; [exact P | exact D]].
Qed.

Lemma sameMake_trans a b c : sameMake a b -> sameMake b c -> sameMake a c.
Proof.
  intros (I1 & P1 & D1) (I2 & P2 & D2).
  split; [congruence | split; congruence].
Qed.

Lemma withoutGear_sameMake (d : nat) (gs : list Gear) :
  Forall2 sameMake gs (withoutGear d gs).
Proof.
  unfold withoutGear, updateGear. rewrite !map_map.
  apply Forall2_map_r. intros g _.
  set (g1 := if refIs (incompatibleWith g) d
             then clearIncompatibleState g else g).
  assert (M1 : sameMake g g1).
  { unfold g1. destruct (refIs (incompatibleWith g) d);
      [apply sameMake_clear | split; [| split]; trivial]. }
  set (g2 := if Nat.eqb (id g1) d then clearIncompatibleState g1 else g1).
  assert (M2 : sameMake g1 g2).
  { unfold g2. destruct (Nat.eqb (id g1) d);
      [apply sameMake_clear | split; [| split]; trivial]. }
  eapply sameMake_trans; [exact M1 |].
  eapply sameMake_trans; [exact M2 |]. split; [| split]; trivial.
Qed.

(* ================================================================== *)
(** * The registry along the life of the simulator *)

Lemma filter_all {A} (l : list A) : filter (fun _ => true) l = l.
Proof. induction l as [| a l IH]; cbn; congruence. Qed.

Section Roles.

Variable distanceTo : Vec3 -> Vec3 -> Q.
Variable normalize : Vec3 -> Vec3.

(** An operation either appends one new gear, or rewrites gears in place
    and drops some. *)
Lemma step_roles (s s' : Simulator) (e : Event) :
  step distanceTo normalize s e = Some s' ->
  (exists g,
      gears s' = gears s ++ [g] /\ id g = nextGearId s /\
      nextGearId s' = S (nextGearId s) /\
      isDriver g = Nat.eqb (length (gears s)) 0 /\
      consistentParams (params g)) \/
  (nextGearId s' = nextGearId s /\
   exists gs3 p, Forall2 sameRole (gears s) gs3 /\ gears s' = filter p gs3).
Proof.
  intro H.
  assert (Same : forall t,
             nextGearId t = nextGearId s ->
             Forall2 sameRole (gears s) (gears t) ->
             nextGearId t = nextGearId s /\
             exists gs3 p, Forall2 sameRole (gears s) gs3 /\
                           gears t = filter p gs3).
  { intros t N F. split; trivial. exists (gears t), (fun _ => true).
    split; trivial. now rewrite filter_all. }
  assert (Refl : Forall2 sameRole (gears s) (gears s))
    by (apply Forall2_refl_on; intros; apply sameRole_refl).
  assert (Rebuilt : forall sel gs,
             Forall2 sameRole gs (rebuild distanceTo sel gs)).
  { intros sel gs. eapply Forall2_impl; [| apply rebuild_frame].
    intros a b R. apply sameMake_role. apply sameRest_drive in R. apply R. }
  assert (Speeds : forall t, Forall2 sameRole (gears t)
                                     (gears (calculateGearSpeeds t))).
  { intro t. eapply Forall2_impl; [| apply calculateGearSpeeds_sameButSpeed].
    intros a b R. now apply sameMake_role, sameButSpeed_make. }
  destruct e; cbn in H.
  - inversion H; subst. left. eexists. split; [reflexivity |].
    cbn. repeat split; trivial.
    + apply orDefault_nonzero. discriminate.
    + apply orDefault_nonzero. discriminate.
    + fold (orElse (orDefault (in_teeth inp) 20) 20).
      fold (orElse (orDefault (in_module inp) 2) 2).
      rewrite !orElse_nonzero; trivial; apply orDefault_nonzero;
        discriminate.
  - inversion H; subst. right. now apply Same.
  - right. unfold updateSelectedGearParams in H.
    destruct (selectedGear s) as [sel |];
      [| inversion H; subst; now apply Same].
    destruct (negb (inRegistry (gears s) sel));
      [inversion H; subst; now apply Same |].
    destruct (in_teeth inp) as [t |]; [| discriminate].
    destruct (in_module inp) as [m |]; [| discriminate].
    destruct (in_pressureAngle inp) as [pa |]; [| discriminate].
    destruct (in_thickness inp) as [th |]; [| discriminate].
    destruct (in_boreDiameter inp) as [bd |]; [| discriminate].
    inversion H; subst. apply Same; trivial. cbn.
    eapply Forall2_sameRole_trans; [| apply Rebuilt].
    apply Forall2_map_r. intros g _.
    destruct (Nat.eqb (id g) sel); [| apply sameRole_refl].
    split; [reflexivity | split; [reflexivity |]]. intros _.
    apply consistent_stored; apply clamp_nonzero; reflexivity || discriminate.
  - inversion H; subst. right. unfold updateSelectedGearPosition.
    destruct (selectedGear s) as [sel |]; [| now apply Same].
    apply Same; trivial. cbn.
    eapply Forall2_sameRole_trans; [| apply Rebuilt].
    apply Forall2_map_r. intros g _.
    destruct (Nat.eqb (id g) sel); split; [| split | | split]; trivial.
  - inversion H; subst. right. apply Same; trivial. cbn.
    apply Forall2_map_r. intros g _.
    destruct (Nat.eqb (id g) gear); split; [| split | | split]; trivial.
  - inversion H; subst. right. apply Same.
    + unfold checkSnapToMesh. destruct (findGear gear (gears s)); trivial.
      now destruct (snapLoop distanceTo normalize (gears s) g (gears s)).
    + eapply Forall2_impl; [| apply checkSnapToMesh_sameDrive].
      intros a b [M _]. now apply sameMake_role.
  - inversion H; subst. right. apply Same; trivial. apply Rebuilt.
  - inversion H; subst. right. unfold deleteSelectedGear.
    destruct (selectedGear s) as [d |]; [| now apply Same].
    destruct (negb (inRegistry (gears s) d)); [now apply Same |].
    split; trivial. cbn.
    exists (withoutGear d (gears s)),
           (fun g => negb (Nat.eqb (id g) d)).
    split; [| reflexivity].
    eapply Forall2_impl; [| apply withoutGear_sameMake].
    intros a b. apply sameMake_role.
  - inversion H; subst. right. split; trivial.
    exists (gears s), (fun _ => false). split; trivial. cbn.
    clear. induction (gears s); cbn; trivial.
  - inversion H; subst. right. unfold play.
    destruct (find jammingError (gears s)); cbn; [now apply Same |].
    apply Same; [| apply (Speeds (setPlaying true s))].
    unfold calculateGearSpeeds. cbn. now destruct (findDriver (gears s)).
  - inversion H; subst. right. now apply Same.
  - inversion H; subst. right. now apply Same.
  - inversion H; subst. right.
    apply Same; [unfold calculateGearSpeeds;
                 now destruct (findDriver (gears s)) |].
    apply Speeds.
Qed.

Lemma Forall2_sameRole_ids (gs gs' : list Gear) :
  Forall2 sameRole gs gs' -> map id gs' = map id gs.
Proof. apply Forall2_ids. now intros a b [I _]. Qed.


Lemma driverFirst_plain (l : list Gear) :
  Forall (fun g => isDriver g = false) l -> driverFirst l.
Proof. destruct 1; cbn; trivial. Qed.

Lemma driverFirst_filter (p : Gear -> bool) (l : list Gear) :
  driverFirst l -> driverFirst (filter p l).
Proof.
  destruct l as [| x rest]; cbn; trivial. intro F.
  assert (F' : Forall (fun g => isDriver g = false) (filter p rest)).
  { rewrite Forall_forall in F. apply Forall_forall. intros g Hg.
    apply filter_In in Hg. now apply F. }
  destruct (p x); [exact F' | now apply driverFirst_plain].
Qed.

Lemma reachable_driverFirst (s : Simulator) :
  Reachable distanceTo normalize s -> driverFirst (gears s).
Proof.
  apply (reachable_induction distanceTo normalize
           (fun s => driverFirst (gears s))).
  - exact I.
  - intros s0 e s1 _ P H. apply step_roles in H.
    destruct H as [(g & -> & _ & _ & D & _) | (_ & gs3 & p & F & ->)].
    + destruct (gears s0) as [| x rest]; cbn in *; [constructor |].
      apply Forall_app. split; trivial. now constructor.
    + apply driverFirst_filter.
      destruct F as [| a b l l' _ F]; cbn in *; trivial.
      clear - F P. induction F as [| x y l l' (_ & D & _) F IH];
        [constructor |].
      inversion P; subst. constructor; [congruence | auto].
Qed.

(** X3: if a gear is marked as the driver it is the first of the registry, so
    that [find(g => g.isDriver) || gears[0]] is [gears[0]] in every state
    the simulator can be in; no gear after the first is marked, and at
    most one gear is. *)
Theorem the_driver_is_the_first_gear (s : Simulator) :
  Reachable distanceTo normalize s ->
  findDriver (gears s) = hd_error (gears s) /\
  Forall (fun g => isDriver g = false) (tl (gears s)) /\
  (length (filter isDriver (gears s)) <= 1)%nat.
Proof.
  intro R. pose proof (reachable_driverFirst s R) as D.
  destruct (gears s) as [| x rest]; cbn in *; [repeat split; auto |].
  assert (N : filter isDriver rest = []).
  { clear - D. induction D as [| y l E D IH]; cbn; trivial. now rewrite E. }
  assert (F : find isDriver rest = None).
  { clear - D. induction D as [| y l E D IH]; cbn; trivial. now rewrite E. }
  unfold findDriver. cbn. rewrite F, N.
  repeat split; trivial; destruct (isDriver x); cbn; auto.
Qed.


Lemma run_ids (es : list Event) :
  forall s s',
    run distanceTo normalize s es = Some s' ->
    (nextGearId s <= nextGearId s')%nat /\
    forall i, In i (map id (gears s')) ->
              In i (map id (gears s)) \/ (nextGearId s <= i)%nat.
Proof.
  induction es as [| e es IH]; cbn; intros s s' H.
  - inversion H; subst. split; auto.
  - destruct (step distanceTo normalize s e) as [s1 |] eqn:E;
      [| discriminate].
    destruct (IH _ _ H) as [N1 I1].
    assert (St : (nextGearId s <= nextGearId s1)%nat /\
                 forall i, In i (map id (gears s1)) ->
                           In i (map id (gears s)) \/
                           (nextGearId s <= i)%nat).
    { apply step_roles in E.
      destruct E as [(g & -> & Ig & -> & _) | (-> & gs3 & p & F & ->)].
      - split; [lia |]. intros i Hi. rewrite map_app, in_app_iff in Hi.
        cbn in Hi. destruct Hi as [Hi | [<- | []]]; [now left | right; lia].
      - split; [lia |]. intros i Hi. left.
        rewrite <- (Forall2_sameRole_ids _ _ F).
        apply in_map_iff in Hi. destruct Hi as (x & <- & Hx).
        apply filter_In in Hx. now apply in_map. }
    destruct St as [N0 I0]. split; [lia |].
    intros i Hi. destruct (I1 i Hi) as [Hi1 | Hi1]; [auto | right; lia].
Qed.

(** X5: identifiers are never given twice: whatever is done next to a state
    the simulator can be in, a gear of the registry is one of now, under
    its identifier of now, or has an identifier that no gear has had so
    far; identifiers stay distinct and below the next to be given. *)
Theorem identifiers_are_never_reused (s s' : Simulator) (es : list Event) :
  Reachable distanceTo normalize s ->
  run distanceTo normalize s es = Some s' ->
  NoDup (map id (gears s')) /\
  forall g', In g' (gears s') ->
             (id g' < nextGearId s')%nat /\
             (In (id g') (map id (gears s)) \/
              (forall g, In g (gears s) -> id g < id g')%nat /\
              (nextGearId s <= id g')%nat).
Proof.
  intros R H.
  pose proof (reachable_wellFormed distanceTo normalize s R) as W.
  pose proof (run_wellFormed distanceTo normalize es s s' W H)
    as (ND & _ & LT).
  destruct W as (_ & _ & LT0).
  destruct (run_ids es s s' H) as [_ Ids].
  rewrite Forall_forall in LT, LT0.
  split; trivial. intros g' Hg'. split; [now apply LT |].
  destruct (Ids (id g') (in_map id _ _ Hg')) as [Old | New]; [now left |].
  right. split; trivial. intros g Hg. apply LT0 in Hg. lia.
Qed.

End Roles.

(* ================================================================== *)
(** * The speeds calculateGearSpeeds leaves *)

Section SpeedsOfReachableStates.

Variable distanceTo : Vec3 -> Vec3 -> Q.
Variable normalize : Vec3 -> Vec3.






End SpeedsOfReachableStates.

(* ================================================================== *)
(** * deleteSelectedGear *)

Lemma filter_map_swap {A} (h : A -> A) (p : A -> bool) (l : list A) :
  (forall a, p (h a) = p a) -> filter p (map h l) = map h (filter p l).
Proof.
  intro H. induction l as [| a l IH]; cbn; trivial.
  rewrite H. destruct (p a); cbn; congruence.
Qed.

Lemma map_filter_ids (d : nat) (l : list Gear) :
  map id (filter (fun g => negb (Nat.eqb (id g) d)) l)
  = filter (fun i => negb (Nat.eqb i d)) (map id l).
Proof.
  induction l as [| g l IH]; cbn; trivial.
  destruct (Nat.eqb (id g) d); cbn; congruence.
Qed.

Lemma deleteSelectedGear_gears (s : Simulator) (d : nat) :
  selectedGear s = Some d -> inRegistry (gears s) d = true ->
  gears (deleteSelectedGear s)
  = map (afterDeletionOf d)
        (filter (fun g => negb (Nat.eqb (id g) d)) (gears s)).
Proof.
  intros Sel Reg. unfold deleteSelectedGear. rewrite Sel, Reg. cbn.
  unfold updateGear. rewrite !map_map.
  rewrite filter_map_swap.
  - apply map_ext_in. intros g Hg. apply filter_In in Hg.
    destruct Hg as [_ N]. unfold afterDeletionOf.
    set (g1 := if refIs (incompatibleWith g) d
               then clearIncompatibleState g else g).
    assert (I1 : id g1 = id g).
    { unfold g1. destruct (refIs (incompatibleWith g) d); trivial.
      apply (clearIncompatibleState_frame g). }
    rewrite I1. apply negb_true_iff in N. now rewrite N.
  - intro g. cbn.
    set (g1 := if refIs (incompatibleWith g) d
               then clearIncompatibleState g else g).
    assert (I1 : id g1 = id g).
    { unfold g1. destruct (refIs (incompatibleWith g) d); trivial.
      apply (clearIncompatibleState_frame g). }
    destruct (Nat.eqb (id g1) d); [| now rewrite I1].
    rewrite (proj1 (proj1 (proj1 (clearIncompatibleState_frame g1)))).
    now rewrite I1.
Qed.

Lemma afterDeletionOf_spec (d : nat) (g : Gear) :
  sameRest g (afterDeletionOf d g) /\
  connectedTo (afterDeletionOf d g)
  = filter (fun c => negb (Nat.eqb c d)) (connectedTo g) /\
  (incompatibleWith g <> Some d -> sameErrors g (afterDeletionOf d g)) /\
  (incompatibleWith g = Some d ->
   errorState (afterDeletionOf d g) = NoError) /\
  incompatibleWith (afterDeletionOf d g) <> Some d.
Proof.
  unfold afterDeletionOf, refIs, clearIncompatibleState, sameRest, sameGeo,
    sameErrors, errorState.
  destruct (incompatibleWith g) as [w |] eqn:E.
  - destruct (Nat.eqb_spec w d) as [W | N]; cbn; rewrite ?E.
    + repeat split; trivial; try discriminate; congruence.
    + repeat split; trivial; try discriminate; congruence.
  - cbn. rewrite E. repeat split; trivial; try discriminate; congruence.
Qed.

(** X8: deleting the selected gear takes it out of the registry and takes
    every reference to it out of the gears that stay: out of their
    [connectedTo], and out of their error, which is cleared when it named
    the deleted gear.  Nothing else changes: the gears that stay keep
    their order, place, parameters, speed and direction (nothing is
    recalculated, also while playing) and their other connections and
    errors; the selection is dropped. *)
Theorem deleteSelectedGear_removes_every_reference (s : Simulator)
        (d : nat) :
  selectedGear s = Some d -> inRegistry (gears s) d = true ->
  let s' := deleteSelectedGear s in
  selectedGear s' = None /\ nextGearId s' = nextGearId s /\
  isPlaying s' = isPlaying s /\ inputRPM s' = inputRPM s /\
  map id (gears s')
  = filter (fun i => negb (Nat.eqb i d)) (map id (gears s)) /\
  (forall g', In g' (gears s') ->
              id g' <> d /\ ~ In d (connectedTo g') /\
              incompatibleWith g' <> Some d) /\
  Forall2 (fun g g' =>
             sameRest g g' /\
             connectedTo g'
             = filter (fun c => negb (Nat.eqb c d)) (connectedTo g) /\
             (incompatibleWith g <> Some d -> sameErrors g g') /\
             (incompatibleWith g = Some d -> errorState g' = NoError))
          (filter (fun g => negb (Nat.eqb (id g) d)) (gears s))
          (gears s').
Proof.
  intros Sel Reg s'.
  pose proof (deleteSelectedGear_gears s d Sel Reg) as G. fold s' in G.
  assert (Fr : Forall2 (fun g g' => g' = afterDeletionOf d g)
                 (filter (fun g => negb (Nat.eqb (id g) d)) (gears s))
                 (gears s')).
  { rewrite G. apply Forall2_map_r. reflexivity. }
  assert (Id : forall g, id (afterDeletionOf d g) = id g).
  { intro g. apply (afterDeletionOf_spec d g). }
  split; [| split; [| split; [| split]]];
    try (unfold s', deleteSelectedGear; rewrite Sel, Reg; reflexivity).
  split; [| split].
  - rewrite G, map_map, <- map_filter_ids. apply map_ext. exact Id.
  - intros g' H. rewrite G in H. apply in_map_iff in H.
    destruct H as (g & <- & Hg).
    destruct (afterDeletionOf_spec d g) as (_ & C & _ & _ & NI).
    split; [| split]; trivial.
    + rewrite Id. apply filter_In in Hg. destruct Hg as [_ N].
      now apply negb_true_iff, Nat.eqb_neq in N.
    + rewrite C. intro K. apply filter_In in K. destruct K as [_ K].
      now rewrite Nat.eqb_refl in K.
  - eapply Forall2_impl; [| exact Fr]. intros g g' ->.
    destruct (afterDeletionOf_spec d g) as (R & C & E1 & E2 & _).
    auto.
Qed.

(* ================================================================== *)
(** * The pairs a rebuild connects *)

Lemma connectGears_grows (gs : list Gear) (i j a b : nat) :
  linked gs a b -> linked (connectGears gs i j) a b.
Proof.
  unfold linked, neighbours, connectGears, updateGear. rewrite map_map.
  rewrite findGear_map.
  - destruct (findGear a gs) as [g |]; cbn; [| trivial]. intro H.
    repeat match goal with
           | |- context [if ?c then _ else _] => destruct c
           end; repeat apply pushIfAbsent_keeps; trivial.
  - intro g.
    repeat match goal with
           | |- context [if ?c then _ else _] => destruct c
           end; rewrite ?pushIfAbsent_id; trivial.
Qed.

Section Completeness.

Variable distanceTo : Vec3 -> Vec3 -> Q.
Hypothesis distanceTo_sym : forall p q, distanceTo p q == distanceTo q p.

Lemma connectStep_grows (gs : list Gear) (jam : option (nat * nat))
      (c : Candidate) (a b : nat) :
  linked gs a b -> linked (fst (connectStep distanceTo (gs, jam) c)) a b.
Proof.
  intro L. unfold connectStep.
  destruct (overlapRef distanceTo gs (gear1 c) (gear2 c)); trivial.
  destruct (negb (compatibleRef gs (gear1 c) (gear2 c))); trivial.
  destruct (wouldCauseJamming gs (gear1 c) (gear2 c)); trivial.
  now apply connectGears_grows.
Qed.

Lemma connectAll_grows (cs : list Candidate) :
  forall gs jam a b,
    linked gs a b ->
    linked (fst (fold_left (connectStep distanceTo) cs (gs, jam))) a b.
Proof.
  induction cs as [| c cs IH]; intros gs jam a b L; cbn [fold_left]; trivial.
  pose proof (connectStep_grows gs jam c a b L) as L1.
  destruct (connectStep distanceTo (gs, jam) c) as [gs1 jam1].
  now apply IH.
Qed.

(** The two ends of a candidate that passes the overlap and the module
    tests are connected, or were an even number of edges apart. *)
Lemma connectStep_joins (gs : list Gear) (jam : option (nat * nat))
      (c : Candidate) :
  overlapRef distanceTo gs (gear1 c) (gear2 c) = false ->
  compatibleRef gs (gear1 c) (gear2 c) = true ->
  let gs' := fst (connectStep distanceTo (gs, jam) c) in
  linked gs' (gear1 c) (gear2 c) \/
  exists k, Nat.even k = true /\ walk (neighbours gs') k (gear1 c) (gear2 c).
Proof.
  intros Ov Co. unfold connectStep. rewrite Ov, Co. cbn.
  destruct (wouldCauseJamming gs (gear1 c) (gear2 c)) eqn:J; cbn.
  - right. apply wouldCauseJamming_spec in J.
    destruct J as (k & (_ & W & _) & O). exists k. split; trivial.
    rewrite Nat.odd_succ in O. exact O.
  - left. apply compatibleRef_present in Co. destruct Co as [H1 H2].
    apply (connectGears_links gs _ _ H1 H2).
Qed.

Lemma connectStep_geo (B gs : list Gear) (jam : option (nat * nat))
      (c : Candidate) :
  Forall2 sameGeo B gs ->
  Forall2 sameGeo B (fst (connectStep distanceTo (gs, jam) c)).
Proof.
  intro G.
  apply (Forall2_trans sameGeo
           (fun g g' => sameRest g g' /\ sameErrors g g') sameGeo
           B gs _); [| exact G | apply connectStep_frame].
  intros a b d Gab [[Gbd _] _]. eapply sameGeo_trans; eauto.
Qed.

Lemma connectAll_joins (B : list Gear) (rest : list Candidate) :
  forall gs jam c,
    Forall2 sameGeo B gs -> In c rest ->
    overlapRef distanceTo B (gear1 c) (gear2 c) = false ->
    compatibleRef B (gear1 c) (gear2 c) = true ->
    let gs' := fst (fold_left (connectStep distanceTo) rest (gs, jam)) in
    linked gs' (gear1 c) (gear2 c) \/
    exists k,
      Nat.even k = true /\ walk (neighbours gs') k (gear1 c) (gear2 c).
Proof.
  induction rest as [| c0 rest IH]; intros gs jam c G Hc Ov Co;
    [destruct Hc |].
  cbn [fold_left]. pose proof (connectStep_geo B gs jam c0 G) as G1.
  destruct Hc as [-> | Hc].
  - rewrite <- (overlapRef_geo distanceTo _ _ _ _ G) in Ov.
    rewrite <- (compatibleRef_geo _ _ _ _ G) in Co.
    pose proof (connectStep_joins gs jam c Ov Co) as J.
    destruct (connectStep distanceTo (gs, jam) c) as [gs1 jam1].
    cbn in J. cbn zeta.
    destruct J as [L | (k & E & W)].
    + left. now apply connectAll_grows.
    + right. exists k. split; trivial.
      eapply walk_mono; [| exact W]. intros x y.
      apply (connectAll_grows rest gs1 jam1 x y).
  - destruct (connectStep distanceTo (gs, jam) c0) as [gs1 jam1].
    now apply IH.
Qed.

Lemma potentialConnections_has (gs : list Gear) (x y : Gear) :
  In (x, y) (pairs gs) -> inRange distanceTo x y = true ->
  In (mkCandidate (id x) (id y) (currentDistance distanceTo x y))
     (potentialConnections distanceTo gs).
Proof.
  intros P R. unfold potentialConnections. apply in_flat_map.
  exists (x, y). split; trivial. unfold candidateOf.
  fold (inRange distanceTo x y). rewrite R. now left.
Qed.

(** After a rebuild, two gears that are within the mesh threshold, do not
    overlap and have the same module are connected, in both directions,
    unless an even number of connections already leads from one to the
    other, in which case they are not connected. *)
Lemma rebuild_joins (selected : option nat) (gs : list Gear) (a b : Gear) :
  NoDup (map id gs) ->
  let T := rebuild distanceTo selected gs in
  In a T -> In b T -> id a <> id b -> mayMesh distanceTo a b ->
  (In (id b) (connectedTo a) /\ In (id a) (connectedTo b)) \/
  (~ In (id b) (connectedTo a) /\ ~ In (id a) (connectedTo b) /\
   exists k, Nat.even k = true /\ walk (neighbours T) k (id a) (id b)).
Proof.
  intros ND T Ha Hb D M.
  set (B := bare distanceTo gs).
  set (cs := candidates distanceTo gs).
  set (G4 := fst (connectAll distanceTo B cs)).
  assert (GB : Forall2 sameGeo gs B).
  { eapply Forall2_impl; [| apply bare_frame]. cbn. intros x y (R & _).
    apply R. }
  assert (NB : NoDup (map id B)).
  { rewrite (Forall2_ids sameGeo gs B); trivial. intros x y G. apply G. }
  assert (GT : Forall2 sameGeo B T).
  { apply (Forall2_trans (fun x y => sameGeo y x) sameGeo sameGeo B gs T);
      [| apply (Forall2_flip _ _ _ GB) | apply (rebuild_geo distanceTo)].
    intros x y z G1 G2.
    eapply sameGeo_trans; [apply sameGeo_sym; exact G1 | exact G2]. }
  assert (NT : NoDup (map id T)).
  { rewrite (Forall2_ids sameGeo B T); trivial. intros x y G. apply G. }
  assert (Nb : forall i, neighbours T i = neighbours G4 i).
  { intro i. unfold T. rewrite rebuild_unfold. fold B cs G4.
    apply neighbours_sameLink. apply Forall2_map_r. intros g _.
    split; apply surfaceGear_frame. }
  destruct (rebuild_evenGraph distanceTo selected gs ND)
    as [[Sym _ _ _] [col C]]. fold T in Sym, C.
  assert (Ca : neighbours T (id a) = connectedTo a)
    by (unfold neighbours; now rewrite findGear_In).
  assert (Cb : neighbours T (id b) = connectedTo b)
    by (unfold neighbours; now rewrite findGear_In).
  (* the two gears, as the graph construction sees them *)
  destruct (Forall2_In_r _ _ _ a GT Ha) as (x & Hx & Gx).
  destruct (Forall2_In_r _ _ _ b GT Hb) as (y & Hy & Gy).
  assert (Ix : id x = id a) by (symmetry; apply Gx).
  assert (Iy : id y = id b) by (symmetry; apply Gy).
  assert (Mxy : mayMesh distanceTo x y).
  { apply (mayMesh_geo distanceTo a x b y); trivial; now apply sameGeo_sym. }
  assert (Joined : forall u v,
             In (u, v) (pairs B) -> mayMesh distanceTo u v ->
             linked T (id u) (id v) \/
             exists k, Nat.even k = true /\
                       walk (neighbours T) k (id u) (id v)).
  { intros u v P (R & Ov & Co).
    destruct (pairs_In _ _ _ P) as [Hu Hv].
    pose proof (potentialConnections_has B u v P R) as Hc.
    apply (proj2 (In_sortByDistance _ _)) in Hc.
    pose proof (connectAll_joins B cs B None _
                  (Forall2_refl_on _ _ (fun g _ => sameGeo_refl g)) Hc)
      as J.
    cbn [gear1 gear2] in J. unfold overlapRef, compatibleRef in J.
    rewrite (findGear_In B u NB Hu), (findGear_In B v NB Hv) in J.
    specialize (J Ov Co). cbn zeta in J.
    fold (connectAll distanceTo B cs) in J. fold G4 in J.
    destruct J as [L | (k & E & W)].
    - left. unfold linked. now rewrite Nb.
    - right. exists k. split; trivial.
      eapply walk_ext; [| exact W]. exact Nb. }
  assert (Either : linked T (id a) (id b) \/
                   exists k, Nat.even k = true /\
                             walk (neighbours T) k (id a) (id b)).
  { destruct (pairs_cover B x y Hx Hy) as [E | [P | P]].
    - subst y. congruence.
    - rewrite <- Ix, <- Iy. now apply Joined.
    - rewrite <- Ix, <- Iy.
      destruct (Joined y x P (mayMesh_sym distanceTo distanceTo_sym _ _ Mxy))
        as [L | (k & E & W)].
      + left. now apply Sym.
      + right. exists k. split; trivial. now apply walk_reverse. }
  destruct Either as [L | (k & E & W)].
  - left. split.
    + now rewrite <- Ca.
    + rewrite <- Cb. now apply Sym.
  - right.
    assert (Same : col (id b) = col (id a)).
    { rewrite (walk_parity T col k _ _ C W).
      rewrite <- Nat.negb_even, E. cbn. apply xorb_false_r. }
    assert (No : ~ linked T (id a) (id b)).
    { intro L. apply C in L. rewrite Same in L. now destruct (col (id a)). }
    split; [now rewrite <- Ca |]. split; [| eauto].
    rewrite <- Cb. intro L. apply No. now apply Sym.
Qed.

(** X9: a rebuild connects every pair that can mesh, as far as the rule
    against odd cycles lets it: after updateConnections, two gears that
    are within the mesh threshold, do not overlap and have the same module
    are connected, in both directions, unless an even number of
    connections leads from one to the other, and then they are not. *)
Theorem rebuild_connects_what_can_mesh (s : Simulator) (a b : Gear) :
  wellFormed s ->
  let s' := updateConnections distanceTo s in
  In a (gears s') -> In b (gears s') -> id a <> id b ->
  mayMesh distanceTo a b ->
  (In (id b) (connectedTo a) /\ In (id a) (connectedTo b)) \/
  (~ In (id b) (connectedTo a) /\ ~ In (id a) (connectedTo b) /\
   exists k, Nat.even k = true /\
             walk (neighbours (gears s')) k (id a) (id b)).
Proof.
  intros (ND & _ & _). cbn. now apply rebuild_joins.
Qed.

End Completeness.

(* ================================================================== *)
(** * checkSnapToMesh *)

Section Snap.

Variable distanceTo : Vec3 -> Vec3 -> Q.
Variable normalize : Vec3 -> Vec3.

(** X10: checkSnapToMesh writes little.  No gear changes its make, speed or
    direction; a gear other than the one that moves keeps its place and its
    error; and when the call returns [false] no gear has moved and no
    connection has changed: all that can differ is the error of the gear
    that moves. *)
Theorem snap_writes_only_around_the_moved_gear (s : Simulator) (m : nat) :
  let r := checkSnapToMesh distanceTo normalize s m in
  selectedGear (fst r) = selectedGear s /\
  nextGearId (fst r) = nextGearId s /\
  isPlaying (fst r) = isPlaying s /\ inputRPM (fst r) = inputRPM s /\
  Forall2 (fun g g' =>
             sameDrive g g' /\
             (id g <> m -> position g' = position g /\ sameErrors g g') /\
             (snd r = false ->
              position g' = position g /\ connectedTo g' = connectedTo g))
          (gears s) (gears (fst r)).
Proof.
  unfold checkSnapToMesh.
  destruct (findGear m (gears s)) as [moving |] eqn:F; cbn.
  - apply findGear_Some in F. destruct F as [_ <-].
    pose proof (snapLoop_frame distanceTo normalize (gears s) moving
                  (gears s)) as Fr.
    destruct (snapLoop distanceTo normalize (gears s) moving (gears s))
      as [gs' b]. cbn in *.
    repeat split; trivial.
    eapply Forall2_impl; [| exact Fr]. cbn. intros a c [[D K] N].
    auto.
  - repeat split; trivial. apply Forall2_refl_on. intros g _.
    repeat split; trivial.
Qed.

(** A snap is made on the first gear of the registry, other than the one
    that moves, that overlaps it or is within the snap range of it. *)
Lemma snapLoop_snapped (gs : list Gear) (moving : Gear) (rest : list Gear) :
  snd (snapLoop distanceTo normalize gs moving rest) = true ->
  exists gear,
    In gear rest /\ id gear <> id moving /\
    checkGearsOverlap distanceTo moving gear = false /\
    Qabs (currentDistance distanceTo moving gear - idealDistance moving gear)
    < snapThreshold /\
    (1 # 10)
    < Qabs (currentDistance distanceTo moving gear
            - idealDistance moving gear) /\
    areGearsCompatible moving gear = true /\
    wouldCauseJamming gs (id moving) (id gear) = false /\
    fst (snapLoop distanceTo normalize gs moving rest)
    = snapTo normalize gs moving gear.
Proof.
  induction rest as [| gear rest IH]; [discriminate |].
  cbn [snapLoop]. cbv zeta.
  destruct (Nat.eqb_spec (id gear) (id moving)) as [E | N].
  { intro H. destruct (IH H) as (x & Hx & R). exists x. split; [now right | exact R]. }
  destruct (checkGearsOverlap distanceTo moving gear) eqn:Ov;
    [discriminate |].
  destruct (Qltb (Qabs (currentDistance distanceTo moving gear
                        - idealDistance moving gear)) snapThreshold) eqn:Near;
    cbn [andb].
  2:{ intro H. destruct (IH H) as (x & Hx & R). exists x. split; [now right | exact R]. }
  destruct (Qltb (1 # 10)
                 (Qabs (currentDistance distanceTo moving gear
                        - idealDistance moving gear))) eqn:Far.
  2:{ intro H. destruct (IH H) as (x & Hx & R). exists x. split; [now right | exact R]. }
  destruct (areGearsCompatible moving gear) eqn:Co; cbn [negb];
    [| discriminate].
  destruct (wouldCauseJamming gs (id moving) (id gear)) eqn:J;
    [discriminate |].
  intros _. exists gear. cbn [fst].
  apply Qltb_lt in Near, Far. repeat split; auto. now left.
Qed.

Lemma snapTo_moved (gs : list Gear) (moving gear : Gear) :
  findGear (id moving) gs = Some moving -> id gear <> id moving ->
  exists g',
    findGear (id moving) (snapTo normalize gs moving gear) = Some g' /\
    position g'
    = vadd (position gear)
           (vscale (normalize (vsub (position moving) (position gear)))
                   (idealDistance moving gear)) /\
    errorState g' = NoError /\
    In (id gear) (connectedTo g').
Proof.
  intros F N. unfold snapTo.
  set (target := vadd _ _).
  set (f1 := fun g : Gear =>
               if isSome (incompatibleWith moving)
               then clearIncompatibleState g else g).
  assert (E1 : (if isSome (incompatibleWith moving)
                then updateGear (id moving) clearIncompatibleState gs
                else gs) = updateGear (id moving) f1 gs).
  { unfold f1. destruct (isSome (incompatibleWith moving)); trivial.
    unfold updateGear. symmetry. rewrite <- (map_id gs) at 2.
    apply map_ext. intro g. now destruct (Nat.eqb (id g) (id moving)). }
  rewrite E1.
  assert (I1 : forall g, id (f1 g) = id g).
  { intro g. unfold f1. destruct (isSome (incompatibleWith moving)); trivial.
    apply (clearIncompatibleState_frame g). }
  assert (F2 : findGear (id moving)
                 (updateGear (id moving) (setPosition target)
                             (updateGear (id moving) f1 gs))
               = Some (setPosition target (f1 moving))).
  { rewrite findGear_updateGear_same by reflexivity.
    rewrite findGear_updateGear_same by exact I1. now rewrite F. }
  assert (Err : errorState (f1 moving) = NoError).
  { unfold f1, errorState, clearIncompatibleState.
    destruct (incompatibleWith moving) eqn:E; cbn; [| now rewrite E].
    reflexivity. }
  assert (Con : connectedTo (f1 moving) = connectedTo moving).
  { unfold f1. destruct (isSome (incompatibleWith moving)); trivial.
    apply (clearIncompatibleState_frame moving). }
  destruct (includes (connectedTo moving) (id gear)) eqn:Inc.
  - eexists. split; [exact F2 |]. cbn. repeat split; trivial.
    rewrite Con. now apply includes_In.
  - unfold connectGears.
    rewrite findGear_updateGear_other
      by (try apply pushIfAbsent_id; now apply not_eq_sym).
    rewrite findGear_updateGear_same by apply pushIfAbsent_id.
    rewrite F2. cbn [option_map]. eexists. split; [reflexivity |].
    split; [| split; [| apply pushIfAbsent_adds]].
    + unfold pushIfAbsent.
      match goal with |- context [if ?c then _ else _] => destruct c end;
        reflexivity.
    + unfold pushIfAbsent.
      match goal with |- context [if ?c then _ else _] => destruct c end;
        exact Err.
Qed.

(** X11: when checkSnapToMesh returns [true], in a state the simulator can be
    in, it has found a gear of the registry other than the one it moves,
    not overlapping it, of the same module, more than 0.1 and less than 5
    off the ideal distance, with which a connection closes no odd cycle;
    the moved gear now sits on the line through the two centres, at the
    centre of the other gear plus the ideal distance times the normalised
    direction; it shows no error; and each of the two lists the other as
    connected. *)
Theorem snap_places_and_connects (s : Simulator) (m : nat) :
  Reachable distanceTo normalize s ->
  snd (checkSnapToMesh distanceTo normalize s m) = true ->
  let s' := fst (checkSnapToMesh distanceTo normalize s m) in
  exists moving gear g',
    findGear m (gears s) = Some moving /\ In gear (gears s) /\
    id gear <> m /\
    checkGearsOverlap distanceTo moving gear = false /\
    areGearsCompatible moving gear = true /\
    (1 # 10)
    < Qabs (currentDistance distanceTo moving gear
            - idealDistance moving gear) < snapThreshold /\
    wouldCauseJamming (gears s) m (id gear) = false /\
    findGear m (gears s') = Some g' /\
    position g'
    = vadd (position gear)
           (vscale (normalize (vsub (position moving) (position gear)))
                   (idealDistance moving gear)) /\
    errorState g' = NoError /\
    linked (gears s') m (id gear) /\ linked (gears s') (id gear) m.
Proof.
  intros R. pose proof (reachable_evenGraph distanceTo normalize s R) as G.
  unfold checkSnapToMesh.
  destruct (findGear m (gears s)) as [moving |] eqn:F; [| discriminate].
  pose proof (findGear_Some _ _ _ F) as [Hm Im].
  pose proof (snapLoop_evenGraph distanceTo normalize (gears s) moving
                (gears s) Hm (incl_refl _) G) as [[Sym _ _ _] _].
  pose proof (snapLoop_snapped (gears s) moving (gears s)) as S.
  destruct (snapLoop distanceTo normalize (gears s) moving (gears s))
    as [gs' b]. cbn in *. intro B. subst b.
  destruct (S eq_refl) as (gear & Hg & N & Ov & Near & Far & Co & J & ->).
  rewrite <- Im in F.
  destruct (snapTo_moved (gears s) moving gear F N) as (g' & F' & P & E & L).
  rewrite Im in *.
  assert (Lk : linked (snapTo normalize (gears s) moving gear) m (id gear))
    by (unfold linked, neighbours; now rewrite F').
  exists moving, gear, g'. repeat split; trivial.
  now apply Sym.
Qed.

(** X12: in a state the simulator can be in, wouldCauseJamming does not depend
    on the order of its two gears, and it is [false] for two gears that are
    already connected. *)
Theorem wouldCauseJamming_is_symmetric (s : Simulator) (i j : nat) :
  Reachable distanceTo normalize s ->
  wouldCauseJamming (gears s) i j = wouldCauseJamming (gears s) j i /\
  (linked (gears s) i j -> wouldCauseJamming (gears s) i j = false).
Proof.
  intro R.
  destruct (reachable_evenGraph distanceTo normalize s R) as [[Sym _ _ _] _].
  split.
  - apply eq_true_iff_eq. rewrite !wouldCauseJamming_spec.
    split; intros (k & P & O); exists k; split; trivial;
      apply pathLength_reverse; trivial.
  - intro L. destruct (wouldCauseJamming (gears s) i j) eqn:J; trivial.
    apply wouldCauseJamming_spec in J. destruct J as (k & P & O).
    assert (P1 : pathLength (neighbours (gears s)) i j 1).
    { repeat split; trivial. econstructor; [exact L | constructor]. }
    rewrite (pathLength_unique _ _ _ _ _ P P1) in O. discriminate.
Qed.

End Snap.

(* ================================================================== *)
(** * The error each gear shows after a rebuild *)

Section ShownAfterRebuild.

Variable distanceTo : Vec3 -> Vec3 -> Q.





End ShownAfterRebuild.

(* ================================================================== *)
(** * updateSelectedGearParams *)

Section UpdateOfParameters.

Variable distanceTo : Vec3 -> Vec3 -> Q.

(** X14: with numbers in the five fields and a gear of the registry selected,
    updateSelectedGearParams stores each number clamped to its range, and
    the product of the clamped teeth and module as the pitch diameter, in
    the selected gear; it leaves the parameters of the others, and the
    place, speed, direction and driver mark of all. *)
Theorem updateSelectedGearParams_stores_clamped (s : Simulator) (sel : nat)
        (t m pa th bd : Q) :
  selectedGear s = Some sel -> inRegistry (gears s) sel = true ->
  exists s',
    updateSelectedGearParams distanceTo s
      (mkParamInputs (Some t) (Some m) (Some pa) (Some th) (Some bd))
    = Some s' /\
    selectedGear s' = Some sel /\
    Forall2 (fun g g' =>
               id g' = id g /\ position g' = position g /\
               rpm g' = rpm g /\
               rotationDirection g' = rotationDirection g /\
               isDriver g' = isDriver g /\
               params g'
               = if Nat.eqb (id g) sel
                 then mkGearParams (clamp 8 100 t) (clamp (1 # 2) 10 m)
                                   (clamp (29 # 2) 25 pa) (clamp 1 20 th)
                                   (clamp 1 20 bd)
                                   (clamp 8 100 t * clamp (1 # 2) 10 m)
                 else params g)
            (gears s) (gears s') /\
    forall g', In g' (gears s') -> id g' = sel -> inBounds (params g').
Proof.
  intros Sel Reg. unfold updateSelectedGearParams. rewrite Sel, Reg.
  cbn [negb in_teeth in_module in_pressureAngle in_thickness
       in_boreDiameter].
  eexists. split; [reflexivity |]. split; [exact Sel |].
  cbn [gears updateConnections setGears selectedGear].
  match goal with
  | |- context [rebuild _ _ (updateGear sel (setParams ?p) _)] =>
      set (stored := p)
  end.
  assert (St : stored
               = mkGearParams (clamp 8 100 t) (clamp (1 # 2) 10 m)
                              (clamp (29 # 2) 25 pa) (clamp 1 20 th)
                              (clamp 1 20 bd)
                              (clamp 8 100 t * clamp (1 # 2) 10 m)).
  { unfold stored. cbn.
    rewrite !orElse_nonzero; trivial;
      apply clamp_nonzero; reflexivity || discriminate. }
  assert (F : Forall2 (fun g g' =>
               id g' = id g /\ position g' = position g /\
               rpm g' = rpm g /\
               rotationDirection g' = rotationDirection g /\
               isDriver g' = isDriver g /\
               params g' = if Nat.eqb (id g) sel then stored else params g)
            (gears s)
            (rebuild distanceTo (selectedGear s)
                     (updateGear sel (setParams stored) (gears s)))).
  { apply (Forall2_trans
             (fun g g' => g' = if Nat.eqb (id g) sel
                               then setParams stored g else g)
             sameRest _ (gears s)
             (updateGear sel (setParams stored) (gears s)));
      [| apply Forall2_map_r; reflexivity | apply rebuild_frame].
    intros a b c -> ((I & P & M) & R & D & Dr).
    destruct (Nat.eqb (id a) sel); cbn in *; repeat split; congruence. }
  split.
  - rewrite <- St. exact F.
  - intros g' Hg' Ig.
    destruct (Forall2_In_r _ _ _ g' F Hg') as (g & _ & I & _ & _ & _ & _ & P).
    rewrite <- I, Ig, Nat.eqb_refl in P. rewrite P, St.
    unfold inBounds. cbn.
    repeat split; apply clamp_bounds; discriminate.
Qed.

End UpdateOfParameters.

(* ================================================================== *)
(** * Dragging and releasing a gear *)

Section Dragging.

Variable distanceTo : Vec3 -> Vec3 -> Q.
Variable normalize : Vec3 -> Vec3.

Lemma checkSnapToMesh_movedOnly (s : Simulator) (m : nat) :
  Forall2 (movedOnly m) (gears s)
          (gears (fst (checkSnapToMesh distanceTo normalize s m))).
Proof.
  unfold checkSnapToMesh.
  destruct (findGear m (gears s)) as [moving |] eqn:F; cbn.
  - apply findGear_Some in F. destruct F as [_ <-].
    pose proof (snapLoop_frame distanceTo normalize (gears s) moving
                  (gears s)) as Fr.
    destruct (snapLoop distanceTo normalize (gears s) moving (gears s))
      as [gs' b]. cbn in *.
    eapply Forall2_impl; [| exact Fr]. now intros a c [M _].
  - apply Forall2_refl_on. intros. apply movedOnly_refl.
Qed.

Lemma checkSnapToMesh_wellFormed (s : Simulator) (m : nat) :
  wellFormed s ->
  wellFormed (fst (checkSnapToMesh distanceTo normalize s m)).
Proof.
  intro W.
  apply (step_wellFormed distanceTo normalize s _ (EvSnap m) W).
  reflexivity.
Qed.

Lemma rebuilt_after_move (s s1 : Simulator) (m : nat) :
  wellFormed s1 ->
  Forall2 (movedOnly m) (gears s) (gears s1) ->
  let s' := updateConnections distanceTo s1 in
  Forall2 (placeKept m) (gears s) (gears s') /\
  updateConnections distanceTo s' = s' /\ wellFormed s'.
Proof.
  intros W1 F s'. split; [| split].
  - apply (Forall2_trans (movedOnly m) sameRest (placeKept m)
             (gears s) (gears s1) (gears s'));
      [| exact F | apply rebuild_frame].
    intros a b c [((I1 & P1 & D1) & R1 & T1) K] ((I2 & Q2 & P2) & R2 & T2 & D2).
    split; [repeat split; congruence |].
    intro N. destruct (K N) as [Q1 _]. congruence.
  - destruct W1 as (_ & OK & _).
    unfold s', updateConnections, setGears. cbn.
    now rewrite rebuild_twice.
  - now apply updateConnections_wellFormed.
Qed.

(** X15: a step of a drag, and the release of a grabbed gear, move one gear and
    rebuild.  Every gear keeps its make, speed and direction (nothing is
    recalculated, also while playing); every gear but the dragged or
    released one keeps its place; the state they leave is one that a
    further updateConnections does not change; and a shift-drag keeps the
    x and y of the dragged gear and sets its z. *)
Theorem drag_and_release_move_one_gear (s : Simulator) (sel : nat) :
  wellFormed s ->
  (selectedGear s = Some sel ->
   forall shiftKey newX newY newZ,
     let s' := onMouseMove distanceTo normalize s true shiftKey
                           newX newY newZ in
     Forall2 (placeKept sel) (gears s) (gears s') /\
     updateConnections distanceTo s' = s' /\ wellFormed s' /\
     (shiftKey = true ->
      Forall2 (fun g g' =>
                 id g = sel ->
                 position g'
                 = mkVec3 (vx (position g)) (vy (position g)) newZ)
              (gears s) (gears s'))) /\
  (let s' := releaseGrab distanceTo normalize s true (Some sel) in
   Forall2 (placeKept sel) (gears s) (gears s') /\
   updateConnections distanceTo s' = s' /\ wellFormed s').
Proof.
  intro W. split.
  - intros Sel shiftKey newX newY newZ. unfold onMouseMove. rewrite Sel.
    destruct shiftKey.
    + set (f := fun g : Gear =>
                  setPosition (mkVec3 (vx (position g)) (vy (position g))
                                      newZ) g).
      set (s1 := setGears (updateGear sel f (gears s)) s).
      assert (W1 : wellFormed s1).
      { eapply wellFormedGears_tame; [| exact W].
        apply updateGear_tame. intro. apply tame_setPosition. }
      assert (F1 : Forall2 (movedOnly sel) (gears s) (gears s1)).
      { apply updateGear_movedOnly. intro g. repeat split. }
      destruct (rebuilt_after_move s s1 sel W1 F1) as (A & B & C).
      split; [exact A | split; [exact B | split; [exact C |]]]. intros _.
      apply (Forall2_trans
               (fun g g' => g' = if Nat.eqb (id g) sel then f g else g)
               sameRest _ (gears s) (gears s1)
               (gears (updateConnections distanceTo s1)));
        [| apply Forall2_map_r; reflexivity | apply rebuild_frame].
      intros a b c -> ((_ & P & _) & _) E.
      rewrite P. apply Nat.eqb_eq in E. now rewrite E.
    + set (s0 := setGears _ s).
      set (s1 := fst (checkSnapToMesh distanceTo normalize s0 sel)).
      assert (W0 : wellFormed s0).
      { eapply wellFormedGears_tame; [| exact W].
        apply updateGear_tame. intro. apply tame_setPosition. }
      assert (W1 : wellFormed s1) by now apply checkSnapToMesh_wellFormed.
      assert (F1 : Forall2 (movedOnly sel) (gears s) (gears s1)).
      { eapply Forall2_movedOnly_trans;
          [| apply checkSnapToMesh_movedOnly].
        apply updateGear_movedOnly. intro g. repeat split. }
      destruct (rebuilt_after_move s s1 sel W1 F1) as (A & B & C).
      split; [exact A | split; [exact B | split; [exact C |]]].
      discriminate.
  - cbn. apply rebuilt_after_move.
    + now apply checkSnapToMesh_wellFormed.
    + apply checkSnapToMesh_movedOnly.
Qed.

End Dragging.

(* ================================================================== *)
(** * The RPM control and the animation *)



Section RpmControl.

Variable distanceTo : Vec3 -> Vec3 -> Q.
Variable normalize : Vec3 -> Vec3.




End RpmControl.

(* ================================================================== *)
(** * The search of wouldCauseJamming, and the two distance tests *)

(** X18: the search of wouldCauseJamming always comes to an end, within two
    rounds more than there are entries in the [connectedTo] lists, and
    what it finds is the shortest cycle the new connection would close:
    one edge more than the least number of connections that lead from the
    first gear to the second; it finds nothing exactly when no connection
    leads from the one to the other. *)
Theorem search_finds_the_shortest_cycle (gs : list Gear) (gear1 gear2 : nat) :
  jamLoop (searchFuel gs) gs gear2 [gear1] [(gear1, O)]
  = Some (closingCycle gs gear1 gear2) /\
  (forall n,
      closingCycle gs gear1 gear2 = Some n <->
      exists k, n = S k /\ pathLength (neighbours gs) gear1 gear2 k) /\
  (closingCycle gs gear1 gear2 = None <->
   forall m, ~ walk (neighbours gs) (S m) gear1 gear2).
Proof.
  pose proof (closingCycle_spec gs gear1 gear2) as S.
  split; [| split].
  - destruct (jamLoop_total gs gear1 gear2) as (r & H & E). now rewrite E.
  - intro n. split.
    + intro E. rewrite E in S. exact S.
    + intros (k & -> & P).
      destruct (closingCycle gs gear1 gear2) as [n' |].
      * destruct S as (k' & -> & P').
        now rewrite (pathLength_unique _ _ _ _ _ P P').
      * destruct P as (K & W & _). destruct k as [| k]; [lia |].
        exfalso. exact (S k W).
  - split.
    + intro E. now rewrite E in S.
    + intro No. destruct (closingCycle gs gear1 gear2) as [n |]; trivial.
      destruct S as (k & _ & K & W & _). destruct k as [| k]; [lia |].
      exfalso. exact (No k W).
Qed.

Section DistanceTests.

Variable distanceTo : Vec3 -> Vec3 -> Q.

(** X19: the overlap test and the two range tests meet only on small gears.
    Two gears that overlap are at least a tenth of their ideal distance
    short of it: when the ideal distance is 30 or more they are not within
    the mesh threshold, so that updateConnections does not even take them
    as a candidate, and when it is 50 or more they are not within the snap
    threshold either. *)
Theorem overlapping_gears_are_out_of_range (a b : Gear) :
  checkGearsOverlap distanceTo a b = true ->
  idealDistance a b * (1 # 10)
  < Qabs (currentDistance distanceTo a b - idealDistance a b) /\
  (30 <= idealDistance a b ->
   inRange distanceTo a b = false /\ candidateOf distanceTo (a, b) = []) /\
  (50 <= idealDistance a b ->
   Qltb (Qabs (currentDistance distanceTo a b - idealDistance a b))
        snapThreshold = false).
Proof.
  unfold checkGearsOverlap. intro O. apply Qltb_lt in O.
  set (d := currentDistance distanceTo a b) in *.
  set (I := idealDistance a b) in *.
  assert (A : I - d <= Qabs (d - I)).
  { rewrite <- Qabs_opp. setoid_replace (- (d - I)) with (I - d) by ring.
    apply Qle_Qabs. }
  assert (Far : I * (1 # 10) < Qabs (d - I)) by lra.
  split; [exact Far | split].
  - intro Big.
    assert (R : inRange distanceTo a b = false).
    { unfold inRange. fold d I. apply Qltb_ge. unfold meshThreshold. lra. }
    split; trivial. unfold candidateOf.
    fold (inRange distanceTo a b). now rewrite R.
  - intro Big. apply Qltb_ge. unfold snapThreshold. lra.
Qed.

End DistanceTests.

(* ================================================================== *)
(** * A rebuild starts from nothing *)

Section RebuildFromNothing.

Variable distanceTo : Vec3 -> Vec3 -> Q.

Lemma sameRest_sym a b : sameRest a b -> sameRest b a.
Proof.
  intros ((I & P & M) & R & D & Dr). repeat split; congruence.
Qed.

Lemma sameErrors_sym a b : sameErrors a b -> sameErrors b a.
Proof. intros (I & J & O). repeat split; congruence. Qed.

Lemma clearPositional_alike (g g' : Gear) :
  sameRest g g' -> sameErrors g g' ->
  sameRest (clearPositional g) (clearPositional g') /\
  sameErrors (clearPositional g) (clearPositional g').
Proof.
  intros R (I & J & O). split.
  - eapply sameRest_trans; [apply sameRest_sym, clearPositional_frame |].
    eapply sameRest_trans; [exact R | apply clearPositional_frame].
  - unfold clearPositional, clearIncompatibleState, sameErrors.
    rewrite I, J, O.
    destruct (incompatibleWith g) eqn:Ei, (jammingError g) eqn:Ej,
      (overlapError g) eqn:Eo; cbn; repeat split; congruence.
Qed.

Lemma bare_alike (gs gs' : list Gear) :
  Forall2 (fun g g' => sameRest g g' /\ sameErrors g g') gs gs' ->
  bare distanceTo gs' = bare distanceTo gs.
Proof.
  intro F. unfold bare.
  assert (F1 : Forall2 (fun g g' => sameRest g g' /\ sameErrors g g')
                       (map clearPositional gs) (map clearPositional gs')).
  { eapply Forall2_map_both; [| exact F]. cbn. intros a b [R E].
    now apply clearPositional_alike. }
  assert (G1 : Forall2 sameGeo (map clearPositional gs)
                       (map clearPositional gs')).
  { eapply Forall2_impl; [| exact F1]. now intros a b [[G _] _]. }
  symmetry. apply Forall2_eq.
  eapply Forall2_map_both; [| eapply Forall2_map_both; [| exact F1]].
  - intros a b H. exact H.
  - cbn. intros a b [R E]. symmetry.
    apply (gear_ext
             (setConnectedTo [] (clearMovedAway distanceTo
                                   (map clearPositional gs) a))
             (setConnectedTo [] (clearMovedAway distanceTo
                                   (map clearPositional gs') b))).
    + destruct (clearMovedAway_frame distanceTo (map clearPositional gs) a)
        as [Ra _].
      destruct (clearMovedAway_frame distanceTo (map clearPositional gs') b)
        as [Rb _].
      assert (K : sameRest (clearMovedAway distanceTo
                              (map clearPositional gs) a)
                           (clearMovedAway distanceTo
                              (map clearPositional gs') b)).
      { eapply sameRest_trans; [apply sameRest_sym; exact Ra |].
        eapply sameRest_trans; [exact R | exact Rb]. }
      exact K.
    + reflexivity.
    + apply (clearMovedAway_geo distanceTo _ _ a b G1); trivial. apply R.
Qed.

(** X20: updateConnections takes nothing from the graph it finds: two
    registries that differ in their [connectedTo] lists only are rebuilt
    into the same registry.  A connection made by a snap is there after
    the rebuild only if the rebuild makes it again. *)
Theorem rebuild_forgets_the_old_graph (selected : option nat)
        (gs gs' : list Gear) :
  Forall2 (fun g g' => sameRest g g' /\ sameErrors g g') gs gs' ->
  rebuild distanceTo selected gs' = rebuild distanceTo selected gs.
Proof.
  intro F. rewrite !rebuild_unfold. unfold candidates.
  now rewrite (bare_alike gs gs' F).
Qed.

End RebuildFromNothing.

Lemma rebuild_forgets_the_old_graph_witness :
  rebuild euclid None (map (setConnectedTo []) (gears (after squareScene)))
  = rebuild euclid None (gears (after squareScene)).
Proof.
  refine (rebuild_forgets_the_old_graph euclid None
            (gears (after squareScene))
            (map (setConnectedTo []) (gears (after squareScene))) _).
  vm_compute. repeat constructor.
Defined.

(* ================================================================== *)
(** * The theorems on the scenes *)

Lemma chainScene_reachable : Reachable euclid unit (after chainScene).
Proof. exists chainScene. vm_compute. reflexivity. Qed.

Lemma chainSelected_reachable : Reachable euclid unit (after chainSelected).
Proof. exists chainSelected. vm_compute. reflexivity. Qed.


Lemma nearScene_reachable : Reachable euclid unit (after nearScene).
Proof. exists nearScene. vm_compute. reflexivity. Qed.

Lemma driverDeleted_reachable : Reachable euclid unit (after driverDeleted).
Proof. exists driverDeleted. vm_compute. reflexivity. Qed.


Lemma deleteSelectedGear_removes_every_reference_witness :
  map id (gears (deleteSelectedGear (after chainSelected)))
  = filter (fun i => negb (Nat.eqb i 2))
           (map id (gears (after chainSelected))).
Proof.
  exact (proj1 (proj2 (proj2 (proj2 (proj2
           (deleteSelectedGear_removes_every_reference
              (after chainSelected) 2 eq_refl eq_refl)))))).
Defined.

Lemma connections_are_mutual_witness :
  NoDup (connectedTo (gearOf (after squareScene) 1)).
Proof.
  refine (proj1 (connections_are_mutual euclid unit (after squareScene)
                   (gearOf (after squareScene) 1) squareScene_reachable _)).
  vm_compute. tauto.
Defined.

Lemma no_odd_cycle_is_ever_built_witness : Nat.even 4 = true.
Proof.
  refine (proj1 (no_odd_cycle_is_ever_built euclid unit (after squareScene)
                   squareScene_reachable) 4%nat 1%nat _).
  apply walk_edge with 2%nat; [vm_compute; tauto |].
  apply walk_edge with 3%nat; [vm_compute; tauto |].
  apply walk_edge with 4%nat; [vm_compute; tauto |].
  apply walk_edge with 1%nat; [vm_compute; tauto | apply walk_here].
Defined.

Lemma rebuild_connects_what_can_mesh_witness :
  let s' := updateConnections euclid (after chainScene) in
  (In 2%nat (connectedTo (gearOf s' 1)) /\
   In 1%nat (connectedTo (gearOf s' 2))) \/
  (~ In 2%nat (connectedTo (gearOf s' 1)) /\
   ~ In 1%nat (connectedTo (gearOf s' 2)) /\
   exists k, Nat.even k = true /\ walk (neighbours (gears s')) k 1 2).
Proof.
  refine (rebuild_connects_what_can_mesh euclid euclid_sym
            (after chainScene)
            (gearOf (updateConnections euclid (after chainScene)) 1)
            (gearOf (updateConnections euclid (after chainScene)) 2)
            (reachable_wellFormed euclid unit _ chainScene_reachable)
            _ _ _ _).
  - vm_compute. tauto.
  - vm_compute. tauto.
  - vm_compute. discriminate.
  - vm_compute. tauto.
Defined.



Lemma the_driver_is_the_first_gear_witness :
  findDriver (gears (after driverDeleted))
  = hd_error (gears (after driverDeleted)).
Proof.
  exact (proj1 (the_driver_is_the_first_gear euclid unit
                  (after driverDeleted) driverDeleted_reachable)).
Defined.


Lemma identifiers_are_never_reused_witness :
  NoDup (map id (gears (after (chainSelected
                                 ++ [EvDelete; EvAddGear (fields 20 2)])))).
Proof.
  refine (proj1 (identifiers_are_never_reused euclid unit
                   (after chainSelected)
                   (after (chainSelected
                             ++ [EvDelete; EvAddGear (fields 20 2)]))
                   [EvDelete; EvAddGear (fields 20 2)]
                   chainSelected_reachable _)).
  vm_compute. reflexivity.
Defined.

Lemma snap_places_and_connects_witness :
  let s' := fst (checkSnapToMesh euclid unit (after nearScene) 2) in
  exists moving gear g',
    findGear 2 (gears (after nearScene)) = Some moving /\
    In gear (gears (after nearScene)) /\ id gear <> 2%nat /\
    checkGearsOverlap euclid moving gear = false /\
    areGearsCompatible moving gear = true /\
    (1 # 10)
    < Qabs (currentDistance euclid moving gear - idealDistance moving gear)
    < snapThreshold /\
    wouldCauseJamming (gears (after nearScene)) 2 (id gear) = false /\
    findGear 2 (gears s') = Some g' /\
    position g'
    = vadd (position gear)
           (vscale (unit (vsub (position moving) (position gear)))
                   (idealDistance moving gear)) /\
    errorState g' = NoError /\
    linked (gears s') 2 (id gear) /\ linked (gears s') (id gear) 2.
Proof.
  refine (snap_places_and_connects euclid unit (after nearScene) 2
            nearScene_reachable _).
  vm_compute. reflexivity.
Defined.

Lemma wouldCauseJamming_is_symmetric_witness :
  wouldCauseJamming (gears (after squareScene)) 1 3
  = wouldCauseJamming (gears (after squareScene)) 3 1.
Proof.
  exact (proj1 (wouldCauseJamming_is_symmetric euclid unit
                  (after squareScene) 1 3 squareScene_reachable)).
Defined.


Lemma updateSelectedGearParams_stores_clamped_witness :
  exists s',
    updateSelectedGearParams euclid (after chainSelected)
      (mkParamInputs (Some 200) (Some 50) (Some 90) (Some 100) (Some 100))
    = Some s' /\
    selectedGear s' = Some 2%nat /\
    Forall2 (fun g g' =>
               id g' = id g /\ position g' = position g /\
               rpm g' = rpm g /\
               rotationDirection g' = rotationDirection g /\
               isDriver g' = isDriver g /\
               params g'
               = if Nat.eqb (id g) 2
                 then mkGearParams (clamp 8 100 200) (clamp (1 # 2) 10 50)
                                   (clamp (29 # 2) 25 90) (clamp 1 20 100)
                                   (clamp 1 20 100)
                                   (clamp 8 100 200 * clamp (1 # 2) 10 50)
                 else params g)
            (gears (after chainSelected)) (gears s') /\
    forall g', In g' (gears s') -> id g' = 2%nat -> inBounds (params g').
Proof.
  exact (updateSelectedGearParams_stores_clamped euclid
           (after chainSelected) 2 200 50 90 100 100 eq_refl eq_refl).
Defined.

Lemma drag_and_release_move_one_gear_witness :
  let s := after chainSelected in
  let s' := releaseGrab euclid unit s true (Some 2%nat) in
  Forall2 (placeKept 2) (gears s) (gears s') /\
  updateConnections euclid s' = s' /\ wellFormed s'.
Proof.
  exact (proj2 (drag_and_release_move_one_gear euclid unit
                  (after chainSelected) 2
                  (reachable_wellFormed euclid unit _
                                        chainSelected_reachable))).
Defined.



Lemma overlapping_gears_are_out_of_range_witness :
  idealDistance (fst overlappingPair) (snd overlappingPair) * (1 # 10)
  < Qabs (currentDistance euclid (fst overlappingPair) (snd overlappingPair)
          - idealDistance (fst overlappingPair) (snd overlappingPair)).
Proof.
  refine (proj1 (overlapping_gears_are_out_of_range euclid
                   (fst overlappingPair) (snd overlappingPair) _)).
  vm_compute. reflexivity.
Defined.
